(** * generate_repo.py: Kodi repository index generator

    A shallow embedding of [src/generate_repo.py] and the properties of its
    version ordering, latest-version selection and output files.

    Conventions of the embedding.
    - A Python [str] is a [string]; a character stands for the code point of
      the same number, so the embedding covers the code points below 256.
    - A Python object that the program compares is a [pyval]; an operation
      that can raise returns a [result].
    - The archives of the input directory, the XML parser, the XML
      serializer and the MD5 function are inputs of the program. *)

From Stdlib Require Import ZArith NArith Ascii String List Lia Bool.
From Stdlib Require Import DecimalString.
From stdpp Require Import base option list gmap strings sorting.
From Equations Require Import Equations.


Local Open Scope Z_scope.

(** ** Exceptions and results *)

(** The exceptions below [Exception]. The program tells
    [zipfile.BadZipFile] from every other one, kept with its class name
    and its message, which is what [str(e)] prints. *)
Inductive exn : Type :=
  | BadZipFile (msg : string)
  | Exception (cls : string) (msg : string).

Inductive result (A : Type) : Type :=
  | Ok (a : A)
  | Raise (e : exn).
Arguments Ok {A} a.
Arguments Raise {A} e.

#[global] Instance result_ret : MRet result := @Ok.
#[global] Instance result_bind : MBind result := fun A B k r =>
  match r with
  | Ok a => k a
  | Raise e => Raise e
  end.

(** ** Characters and strings *)

Definition code (c : ascii) : N := N_of_ascii c.

Definition in_range (lo hi : N) (c : ascii) : bool :=
  ((lo <=? code c) && (code c <=? hi))%N.

(** [\d] in a [str] pattern: the decimal digits; below 256 these are 0-9. *)
Definition re_digit (c : ascii) : bool := in_range 48 57 c.

(** [[A-Za-z]]. *)
Definition re_alpha (c : ascii) : bool := in_range 65 90 c || in_range 97 122 c.

(** One character of [str.isdigit]: below 256 the decimal digits and the
    superscripts two, three and one. *)
Definition chr_isdigit (c : ascii) : bool :=
  re_digit c || (code c =? 178)%N || (code c =? 179)%N || (code c =? 185)%N.

(** One character of [str.lower]: below 256 the letters A-Z and the
    capital letters from 192 to 222, the multiplication sign 215 apart. *)
Definition chr_lower (c : ascii) : ascii :=
  if in_range 65 90 c || (in_range 192 222 c && negb (code c =? 215)%N)
  then ascii_of_N (code c + 32)
  else c.

Fixpoint str_all (p : ascii -> bool) (s : string) : bool :=
  match s with
  | EmptyString => true
  | String c s' => p c && str_all p s'
  end.

Fixpoint str_map (f : ascii -> ascii) (s : string) : string :=
  match s with
  | EmptyString => EmptyString
  | String c s' => String (f c) (str_map f s')
  end.

Fixpoint str_filter (p : ascii -> bool) (s : string) : string :=
  match s with
  | EmptyString => EmptyString
  | String c s' => if p c then String c (str_filter p s') else str_filter p s'
  end.

(** The strings of a list put end to end. *)
Definition str_join (l : list string) : string :=
  fold_right String.append EmptyString l.

(** [token.isdigit()]: every character is a digit and there is one. *)
Definition str_isdigit (s : string) : bool :=
  match s with
  | EmptyString => false
  | _ => str_all chr_isdigit s
  end.

(** [token.lower()]. *)
Definition str_lower (s : string) : string := str_map chr_lower s.

(** The most digits that [int] accepts in a string, leading zeros counted:
    the default of [sys.get_int_max_str_digits()]. *)
Definition int_max_str_digits : nat := 4300.

(** [str(n)] for a natural number. *)
Definition str_of_nat (n : nat) : string :=
  NilZero.string_of_uint (Nat.to_uint n).

(** The [ValueError] of [int] for a string of [digits] digits, too many. *)
Definition int_limit_error (digits : nat) : exn :=
  Exception "ValueError"
    ("Exceeds the limit (4300 digits) for integer string conversion: " +:+
     "value has " +:+ str_of_nat digits +:+
     " digits; use sys.set_int_max_str_digits() to increase the limit").

(** [int(token)] for a plain run of decimal digits: its value, or
    [ValueError] when the run has more than 4300 digits. Any other
    argument is rejected with [ValueError] (Python accepts a few more
    forms, a sign or blanks around the digits, which the program never
    passes). *)
Fixpoint int_digits (acc : Z) (s : string) : result Z :=
  match s with
  | EmptyString => Ok acc
  | String c s' =>
      if re_digit c
      then int_digits (10 * acc + (Z.of_N (code c) - 48)) s'
      else Raise (Exception "ValueError" "invalid literal for int() with base 10")
  end.

Definition py_int (s : string) : result Z :=
  match s with
  | EmptyString => Raise (Exception "ValueError" "invalid literal for int() with base 10")
  | _ =>
      if str_all re_digit s then
        if (String.length s <=? int_max_str_digits)%nat then int_digits 0 s
        else Raise (int_limit_error (String.length s))
      else Raise (Exception "ValueError" "invalid literal for int() with base 10")
  end.

(** [s > t] on [str]: the first differing code point decides, a proper
    prefix is smaller. *)
Definition str_gt (s t : string) : bool :=
  match String.compare s t with
  | Gt => true
  | _ => false
  end.

(** [s.endswith(suffix)]: [s] is [suffix] or what follows the first
    character of [s] ends with it. *)
Fixpoint str_endswith (s suffix : string) : bool :=
  String.eqb s suffix ||
  match s with
  | EmptyString => false
  | String _ s' => str_endswith s' suffix
  end.

(** ** The regular expression of [normalize_version] *)

(** The longest prefix of [s] made of characters of the class [cls], and
    what follows it: a greedy [cls*]. *)
Fixpoint take_class (cls : ascii -> bool) (s : string) : string :=
  match s with
  | String c s' => if cls c then String c (take_class cls s') else EmptyString
  | EmptyString => EmptyString
  end.

Fixpoint drop_class (cls : ascii -> bool) (s : string) : string :=
  match s with
  | String c s' => if cls c then drop_class cls s' else s
  | EmptyString => EmptyString
  end.

(** [re.findall(r"\d+|[A-Za-z]+", v)]: at each position the left
    alternative is tried first, then the right one, each greedy; the scan
    resumes after a match and one character further when nothing matches. *)
Equations? findall (v : string) : list string by wf (String.length v) lt :=
  findall EmptyString := [];
  findall (String c v') :=
    if re_digit c then
      String c (take_class re_digit v') :: findall (drop_class re_digit v')
    else if re_alpha c then
      String c (take_class re_alpha v') :: findall (drop_class re_alpha v')
    else findall v'.
Proof.
  all: assert (Hlen : forall cls s,
         (String.length (drop_class cls s) <= String.length s)%nat)
    by (intros cls s; induction s as [|a s IH]; simpl;
        [lia | destruct (cls a); simpl; lia]).
  all: simpl; pose proof (Hlen re_digit v'); pose proof (Hlen re_alpha v'); lia.
Qed.

(** ** Python values and their comparison *)

#[warnings="-register-all"] Inductive pyval : Type :=
  | PInt (z : Z)
  | PStr (s : string)
  | PTuple (items : list pyval).

(** [a == b]: values of different types are unequal, tuples are equal when
    they have the same length and equal items. *)
Fixpoint py_eq (a b : pyval) : bool :=
  match a, b with
  | PInt x, PInt y => Z.eqb x y
  | PStr s, PStr t => String.eqb s t
  | PTuple xs, PTuple ys =>
      (fix items_eq (xs ys : list pyval) : bool :=
         match xs, ys with
         | [], [] => true
         | x :: xs', y :: ys' => py_eq x y && items_eq xs' ys'
         | _, _ => false
         end) xs ys
  | _, _ => false
  end.

Definition TypeError_gt : exn :=
  Exception "TypeError" "'>' not supported between instances".

(** [a > b]. Tuples: the first position where the items are not [==]
    decides by [>] on those two items; without one, the longer tuple is
    the greater. Values of different types raise [TypeError]. *)
Fixpoint py_gt (a b : pyval) : result bool :=
  match a, b with
  | PInt x, PInt y => Ok (Z.gtb x y)
  | PStr s, PStr t => Ok (str_gt s t)
  | PTuple xs, PTuple ys =>
      (fix items_gt (xs ys : list pyval) : result bool :=
         match xs, ys with
         | x :: xs', y :: ys' => if py_eq x y then items_gt xs' ys' else py_gt x y
         | _ :: _, [] => Ok true
         | [], _ => Ok false
         end) xs ys
  | _, _ => Raise TypeError_gt
  end.

(** ** [normalize_version] *)

(** The body of the loop over [primary]: one part per token. *)
Definition normalize_token (token : string) : result pyval :=
  if str_isdigit token
  then n ← py_int token; Ok (PTuple [PInt 0; PInt n])
  else Ok (PTuple [PInt 1; PStr (str_lower token)]).

Fixpoint normalize_parts (primary : list string) : result (list pyval) :=
  match primary with
  | [] => Ok []
  | token :: primary' =>
      part ← normalize_token token;
      parts ← normalize_parts primary';
      Ok (part :: parts)
  end.

Definition normalize_version (v : string) : result pyval :=
  parts ← normalize_parts (findall v);
  Ok (PTuple parts).

(** Every token of [v] that [int] is called on is within its limit. *)
Definition token_within_cap (token : string) : bool :=
  negb (str_isdigit token) ||
  (String.length token <=? int_max_str_digits)%nat.

Definition within_cap (v : string) : bool :=
  forallb token_within_cap (findall v).

(** [normalize_version(a) > normalize_version(b)], the test of [main]. *)
Definition version_gt (a b : string) : result bool :=
  x ← normalize_version a;
  y ← normalize_version b;
  py_gt x y.


(** ** Paths, XML elements and archives *)

(** A resolved path is the list of its components below the root. *)
Definition path : Type := list string.

(** [p / name]. *)
Definition path_join (p : path) (name : string) : path := p ++ [name].

(** [p.name], the last component. *)
Definition path_name (p : path) : string := List.last p "".

(** [str(p)]. *)
Definition path_str (p : path) : string :=
  match p with
  | [] => "/"
  | _ => String.concat "" (List.map (fun part => "/" +:+ part) p)
  end.

Definition bytes : Type := list Byte.byte.

(** An [xml.etree.ElementTree.Element]. *)
#[warnings="-register-all"] Inductive Element : Type :=
  mkElement {
    tag : string;
    attrib : gmap string string;
    text : option string;
    tail : option string;
    children : list Element }.

(** [ET.Element(tag)]: no attribute, no text, no child. *)
Definition ET_Element (tag : string) : Element :=
  mkElement tag ∅ None None [].

(** [root.append(child)]. *)
Definition ET_append (root child : Element) : Element :=
  mkElement (tag root) (attrib root) (text root) (tail root)
            (children root ++ [child]).

(** An opened [zipfile.ZipFile]: [z.namelist()] and, for a member name,
    what [z.open(name).read()] gives. *)
Record zipfile : Type :=
  mkZip {
    namelist : list string;
    zip_read : string -> result bytes }.

(** The member that [z.open(name)] reads in an archive with the members
    [entries], listed in the order of the archive: the last one of that
    name. *)
Fixpoint last_named (name : string) (entries : list (string * result bytes))
  : option (result bytes) :=
  match entries with
  | [] => None
  | (n, content) :: entries' =>
      match last_named name entries' with
      | Some later => Some later
      | None => if String.eqb n name then Some content else None
      end
  end.

(** The opened archive with the members [entries], each a name and what
    reading it gives: [z.namelist()] lists the names of all of them, in
    order and with repetitions; a name that no member has is a
    [KeyError]. *)
Definition zip_of_entries (entries : list (string * result bytes)) : zipfile :=
  mkZip (List.map fst entries)
        (fun name =>
           match last_named name entries with
           | Some content => content
           | None =>
               Raise (Exception "KeyError"
                        ("There is no item named '" +:+ name +:+
                         "' in the archive"))
           end).

(** A path found by [zips_dir.rglob("*.zip")] and what opening it as an
    archive gives. *)
Record archive : Type :=
  mkArchive {
    zip_path : path;
    zip_open : result zipfile }.

(** The tuple [(addon_id, addon_ver, elem, zip_path)]. *)
Record addon : Type :=
  mkAddon {
    addon_id : string;
    addon_ver : string;
    addon_elem : Element;
    addon_zip : path }.

(** ** The world and the monad of the program *)

Record world : Type :=
  mkWorld {
    files : gmap path bytes;
    dirs : gset path;
    stdout : list string;
    stderr : list string }.

(** How a computation ends: it returns, an exception leaves it, or
    [sys.exit] was called ([SystemExit] is not below [Exception], so no
    handler of the program catches it). *)
Inductive outcome (A : Type) : Type :=
  | Done (a : A)
  | Failed (e : exn)
  | Exited (code : Z).
Arguments Done {A} a.
Arguments Failed {A} e.
Arguments Exited {A} code.

(** A computation changes the world and ends. *)
Definition M (A : Type) : Type := world -> world * outcome A.

#[global] Instance M_ret : MRet M := fun A a w => (w, Done a).
#[global] Instance M_bind : MBind M := fun A B k m w =>
  match m w with
  | (w', Done a) => k a w'
  | (w', Failed e) => (w', Failed e)
  | (w', Exited c) => (w', Exited c)
  end.

(** A call that returns or raises and leaves the world as it is. *)
Definition lift {A : Type} (r : result A) : M A := fun w =>
  match r with
  | Ok a => (w, Done a)
  | Raise e => (w, Failed e)
  end.

(** [sys.exit(code)]. *)
Definition sys_exit {A : Type} (code : Z) : M A := fun w => (w, Exited code).

(** [print(line)] and [print(line, file=sys.stderr)]. *)
Definition print (line : string) : M unit := fun w =>
  (mkWorld (files w) (dirs w) (stdout w ++ [line]) (stderr w), Done tt).

Definition print_err (line : string) : M unit := fun w =>
  (mkWorld (files w) (dirs w) (stdout w) (stderr w ++ [line]), Done tt).

(** [p] and the directories above it. *)
Definition path_parents (p : path) : list path :=
  List.map (fun n => take n p) (seq 0 (S (List.length p))).

(** [p] is a regular file of the world. *)
Definition is_file (w : world) (p : path) : bool :=
  match files w !! p with
  | Some _ => true
  | None => false
  end.

(** [p] or a directory above it is a regular file: [p] cannot be made a
    directory. *)
Definition blocked (w : world) (p : path) : bool :=
  existsb (is_file w) (path_parents p).

(** What [mkdir] raises then: [FileExistsError] where [p] is a regular
    file, [NotADirectoryError] where a directory above it is one. *)
Definition mkdir_error (w : world) (p : path) : exn :=
  if is_file w p
  then Exception "FileExistsError"
         ("[Errno 17] File exists: '" +:+ path_str p +:+ "'")
  else Exception "NotADirectoryError"
         ("[Errno 20] Not a directory: '" +:+ path_str p +:+ "'").

(** [p.mkdir(parents=True, exist_ok=True)]: the missing directories are
    created, the existing ones left; where [p] or a directory above it is
    a regular file the call raises and nothing is created. *)
Definition mkdir_parents (p : path) : M unit := fun w =>
  if blocked w p then (w, Failed (mkdir_error w p))
  else
    (mkWorld (files w) (dirs w ∪ list_to_set (path_parents p)) (stdout w)
             (stderr w), Done tt).

(** [open(p, "wb")] empties or creates the file, [f.write(data)] appends. *)
Definition open_wb (p : path) : M unit := fun w =>
  (mkWorld (<[p := []]> (files w)) (dirs w) (stdout w) (stderr w), Done tt).

Definition file_write (p : path) (data : bytes) : M unit := fun w =>
  (mkWorld (<[p := default [] (files w !! p) ++ data]> (files w)) (dirs w)
           (stdout w) (stderr w), Done tt).

(** [open(p, "rb").read()]. *)
Definition read_rb (p : path) : M bytes := fun w =>
  match files w !! p with
  | Some content => (w, Done content)
  | None => (w, Failed (Exception "FileNotFoundError" (path_str p)))
  end.

(** [s.encode("utf-8")] for code points below 256. *)
Definition utf8_char (c : ascii) : bytes :=
  if (code c <? 128)%N then [byte_of_ascii c]
  else [byte_of_ascii (ascii_of_N (192 + code c / 64));
        byte_of_ascii (ascii_of_N (128 + code c mod 64))].

Fixpoint encode_utf8 (s : string) : bytes :=
  match s with
  | EmptyString => []
  | String c s' => utf8_char c ++ encode_utf8 s'
  end.

(** [p.write_text(s, encoding="utf-8")]. *)
Definition write_text (p : path) (s : string) : M unit := fun w =>
  (mkWorld (<[p := encode_utf8 s]> (files w)) (dirs w) (stdout w) (stderr w),
   Done tt).

(** [digest.hex()]: two lowercase hexadecimal digits per byte. *)
Definition hex_digit (n : N) : ascii :=
  if (n <? 10)%N then ascii_of_N (48 + n) else ascii_of_N (87 + n).

Fixpoint hex (digest : bytes) : string :=
  match digest with
  | [] => EmptyString
  | b :: digest' =>
      let n := Byte.to_N b in
      String (hex_digit (n / 16)) (String (hex_digit (n mod 16)) (hex digest'))
  end.

(** ** [find_addons] *)

(** [not x] for an optional string: true for [None] and for the empty
    string. *)
Definition py_not (x : option string) : bool :=
  match x with
  | None | Some EmptyString => true
  | Some _ => false
  end.

(** The loop over [z.namelist()] with its [break]. *)
Fixpoint find_addon_xml (names : list string) : option string :=
  match names with
  | [] => None
  | n :: names' =>
      if str_endswith (str_lower n) "/addon.xml" then Some n
      else find_addon_xml names'
  end.

Definition double_quote : string := String (ascii_of_N 34) EmptyString.
Definition newline : string := String (ascii_of_N 10) EmptyString.

(** The declaration written at the head of addons.xml, without the line
    feed that ends it. *)
Definition xml_declaration : string :=
  "<?xml version=" +:+ double_quote +:+ "1.0" +:+ double_quote +:+
  " encoding=" +:+ double_quote +:+ "UTF-8" +:+ double_quote +:+
  " standalone=" +:+ double_quote +:+ "yes" +:+ double_quote +:+ "?>".

(** The bytes literal of the first [f.write]. *)
Definition xml_header : bytes :=
  list_byte_of_string (xml_declaration +:+ newline).

Section Program.

(** [ET.fromstring], [ET.tostring(_, encoding="utf-8")] and the digest of
    [hashlib.md5]: library functions, inputs of the embedding. *)
Variable fromstring : bytes -> result Element.
Variable tostring : Element -> bytes.
Variable md5_digest : bytes -> bytes.

(** The body of the [try] for one archive: [Some] is a [yield], [None] a
    [continue]. *)
Definition scan_zip (a : archive) : M (option addon) :=
  z ← lift (zip_open a);
  let addon_xml_name := find_addon_xml (namelist z) in
  if py_not addon_xml_name then
    _ ← print_err ("[WARN] No addon.xml found in " +:+ path_str (zip_path a));
    mret None
  else
    data ← lift (zip_read z (default "" addon_xml_name));
    elem ← lift (fromstring data);
    let id := attrib elem !! "id" in
    let ver := attrib elem !! "version" in
    if py_not id || py_not ver then
      _ ← print_err ("[WARN] Missing id/version in " +:+ path_str (zip_path a));
      mret None
    else
      mret (Some (mkAddon (default "" id) (default "" ver) elem (zip_path a))).

(** One round of the generator's loop: the [try] with its two handlers. *)
Definition find_addons_next (a : archive) : M (option addon) := fun w =>
  match scan_zip a w with
  | (w', Failed (BadZipFile _)) =>
      (_ ← print_err ("[WARN] Bad zip file: " +:+ path_str (zip_path a));
       mret None) w'
  | (w', Failed (Exception _ msg)) =>
      (_ ← print_err ("[WARN] " +:+ path_str (zip_path a) +:+ ": " +:+ msg);
       mret None) w'
  | r => r
  end.

(** The generator: one suspended round per archive, in scan order. *)
Definition find_addons (zips : list archive) : list (M (option addon)) :=
  List.map find_addons_next zips.

(** ** [build_addons_xml] *)

(** The root element and the loop that appends the descriptors to it. *)
Definition addons_root (entries : list addon) : Element :=
  fold_left (fun root e => ET_append root (addon_elem e)) entries
            (ET_Element "addons").

Definition build_addons_xml (entries : list addon) (out_dir : path)
  : M (path * path) :=
  let xml_bytes := tostring (addons_root entries) in
  let addons_xml_path := path_join out_dir "addons.xml" in
  _ ← open_wb addons_xml_path;
  _ ← file_write addons_xml_path xml_header;
  _ ← file_write addons_xml_path xml_bytes;
  content ← read_rb addons_xml_path;
  let md5 := hex (md5_digest content) in
  _ ← write_text (path_join out_dir "addons.xml.md5") md5;
  mret (addons_xml_path, path_join out_dir "addons.xml.md5").

(** ** [main] *)

(** The body of the loop of [main] for one yielded tuple. *)
Definition select (latest : gmap string addon) (r : addon)
  : result (gmap string addon) :=
  match latest !! addon_id r with
  | None => Ok (<[addon_id r := r]> latest)
  | Some best =>
      gt ← version_gt (addon_ver r) (addon_ver best);
      Ok (if gt : bool then <[addon_id r := r]> latest else latest)
  end.

Fixpoint main_loop (gen : list (M (option addon))) (latest : gmap string addon)
  : M (gmap string addon) :=
  match gen with
  | [] => mret latest
  | next :: gen' =>
      y ← next;
      match y with
      | None => main_loop gen' latest
      | Some r => latest' ← lift (select latest r); main_loop gen' latest'
      end
  end.

(** The loop of [main] run on the yielded tuples alone. *)
Fixpoint select_seq (rs : list addon) (latest : gmap string addon)
  : result (gmap string addon) :=
  match rs with
  | [] => Ok latest
  | r :: rs' => latest' ← select latest r; select_seq rs' latest'
  end.

(** [sorted(latest.keys())]: the keys are distinct strings, ordered by
    code points. *)
Definition sorted_keys (latest : gmap string addon) : list string :=
  merge_sort String.le (elements (dom latest)).

(** [latest[k]]. *)
Definition getitem (latest : gmap string addon) (k : string) : result addon :=
  match latest !! k with
  | Some r => Ok r
  | None => Raise (Exception "KeyError" k)
  end.

(** The list [[latest[k] for k in keys]]. *)
Fixpoint getitems (latest : gmap string addon) (keys : list string)
  : result (list addon) :=
  match keys with
  | [] => Ok []
  | k :: keys' =>
      r ← getitem latest k;
      rs ← getitems latest keys';
      Ok (r :: rs)
  end.

(** The line of the summary for one selected tuple. *)
Definition included_line (r : addon) : string :=
  " - " +:+ addon_id r +:+ " @ " +:+ addon_ver r +:+ "  (" +:+
  path_name (addon_zip r) +:+ ")".

Fixpoint print_included (selected : list addon) : M unit :=
  match selected with
  | [] => mret tt
  | r :: selected' => _ ← print (included_line r); print_included selected'
  end.

(** [main], from the resolved [--zips] and [--out] directories and the
    archives under the former in the order [rglob] finds them. *)
Definition main (zips_dir out_dir : path) (zips : list archive) : M unit :=
  _ ← mkdir_parents out_dir;
  latest ← main_loop (find_addons zips) ∅;
  if (size latest =? 0)%nat then
    _ ← print_err ("No add-ons found under " +:+ path_str zips_dir);
    sys_exit 1
  else
    selected ← lift (getitems latest (sorted_keys latest));
    out ← build_addons_xml selected out_dir;
    _ ← print "Generated:";
    _ ← print (" - " +:+ path_str (fst out));
    _ ← print (" - " +:+ path_str (snd out));
    _ ← print (newline +:+ "Included add-ons (latest only):");
    print_included selected.

(** ** What the scan of an archive comes to *)

(** The line that the handlers of [find_addons] print for an exception. *)
Definition handler_line (a : archive) (e : exn) : string :=
  match e with
  | BadZipFile _ => "[WARN] Bad zip file: " +:+ path_str (zip_path a)
  | Exception _ msg => "[WARN] " +:+ path_str (zip_path a) +:+ ": " +:+ msg
  end.

(** The processing of an archive fails, leaving a line on standard error:
    the archive does not open, it has no descriptor, the descriptor cannot
    be read or parsed, or its root has no id or no version. *)
Inductive archive_fails (a : archive) : string -> Prop :=
  | fails_open e :
      zip_open a = Raise e ->
      archive_fails a (handler_line a e)
  | fails_no_descriptor z :
      zip_open a = Ok z ->
      find_addon_xml (namelist z) = None ->
      archive_fails a ("[WARN] No addon.xml found in " +:+ path_str (zip_path a))
  | fails_read z n e :
      zip_open a = Ok z ->
      find_addon_xml (namelist z) = Some n ->
      zip_read z n = Raise e ->
      archive_fails a (handler_line a e)
  | fails_parse z n data e :
      zip_open a = Ok z ->
      find_addon_xml (namelist z) = Some n ->
      zip_read z n = Ok data ->
      fromstring data = Raise e ->
      archive_fails a (handler_line a e)
  | fails_attributes z n data elem :
      zip_open a = Ok z ->
      find_addon_xml (namelist z) = Some n ->
      zip_read z n = Ok data ->
      fromstring data = Ok elem ->
      py_not (attrib elem !! "id") || py_not (attrib elem !! "version") = true ->
      archive_fails a ("[WARN] Missing id/version in " +:+ path_str (zip_path a)).

(** The processing of an archive succeeds and yields a tuple. *)
Inductive archive_yields (a : archive) : addon -> Prop :=
  | yields_addon z n data elem id ver :
      zip_open a = Ok z ->
      find_addon_xml (namelist z) = Some n ->
      zip_read z n = Ok data ->
      fromstring data = Ok elem ->
      attrib elem !! "id" = Some id -> id <> EmptyString ->
      attrib elem !! "version" = Some ver -> ver <> EmptyString ->
      archive_yields a (mkAddon id ver elem (zip_path a)).

(** The tuples yielded and the lines printed for a list of archives, both
    in scan order. *)
Inductive scanned : list archive -> list addon -> list string -> Prop :=
  | scanned_nil : scanned [] [] []
  | scanned_yield a r zips rs lines :
      archive_yields a r -> scanned zips rs lines ->
      scanned (a :: zips) (r :: rs) lines
  | scanned_fail a line zips rs lines :
      archive_fails a line -> scanned zips rs lines ->
      scanned (a :: zips) rs (line :: lines).

(** The tuples that a run on [zips] selects, in the order of the document,
    and the lines of its warnings: the scan yields at least one tuple, and
    the selected tuples are those of the table at its sorted keys. *)
Definition selection_of (zips : list archive) (lines : list string)
    (selected : list addon) : Prop :=
  exists rs latest,
    scanned zips rs lines /\ rs <> [] /\
    select_seq rs ∅ = Ok latest /\
    getitems latest (sorted_keys latest) = Ok selected /\
    Forall2 (fun k r => latest !! k = Some r) (sorted_keys latest) selected.

(** The exit status of the process: 0 on return, the code of [sys.exit],
    1 after any other uncaught exception. *)
Definition exit_status (o : outcome unit) : Z :=
  match o with
  | Done _ => 0
  | Exited c => c
  | Failed _ => 1
  end.

End Program.

(** The lines of the summary that [main] prints after writing. *)
Definition summary (out_dir : path) (selected : list addon) : list string :=
  ["Generated:";
   " - " +:+ path_str (path_join out_dir "addons.xml");
   " - " +:+ path_str (path_join out_dir "addons.xml.md5");
   newline +:+ "Included add-ons (latest only):"] ++
  List.map included_line selected.

(** The world after [main] wrote [content] and its checksum [sum] and
    printed the warnings [lines] and the summary. *)
Definition written (out_dir : path) (content sum : bytes)
    (lines : list string) (selected : list addon) (w : world) : world :=
  mkWorld
    (<[path_join out_dir "addons.xml.md5" := sum]>
       (<[path_join out_dir "addons.xml" := content]> (files w)))
    (dirs w ∪ list_to_set (path_parents out_dir))
    (stdout w ++ summary out_dir selected)
    (stderr w ++ lines).

(** The world after [main] found nothing: no file is touched. *)
Definition nothing_found (zips_dir out_dir : path) (lines : list string)
    (w : world) : world :=
  mkWorld
    (files w)
    (dirs w ∪ list_to_set (path_parents out_dir))
    (stdout w)
    (stderr w ++ lines ++ ["No add-ons found under " +:+ path_str zips_dir]).

(** The world after the loop of [main] stopped on an exception: the
    directories are made and the warnings printed so far are on standard
    error. *)
Definition aborted (out_dir : path) (lines : list string) (w : world) : world :=
  mkWorld
    (files w)
    (dirs w ∪ list_to_set (path_parents out_dir))
    (stdout w)
    (stderr w ++ lines).

(** The world after some lines went to standard error. *)
Definition warn (lines : list string) (w : world) : world :=
  mkWorld (files w) (dirs w) (stdout w) (stderr w ++ lines).

(** [r] is new for its identifier or its version is strictly greater than
    the version kept. *)
Definition is_newer (latest : gmap string addon) (r : addon) : Prop :=
  latest !! addon_id r = None \/
  exists best, latest !! addon_id r = Some best /\
               version_gt (addon_ver r) (addon_ver best) = Ok true.

(** [r] is, among the tuples of its identifier in [rs], the first one of
    the greatest version: strictly greater than those before it, not
    smaller than those after it. *)
Definition first_greatest (rs : list addon) (r : addon) : Prop :=
  exists pre post,
    rs = pre ++ r :: post /\
    (forall r', r' ∈ pre -> addon_id r' = addon_id r ->
                version_gt (addon_ver r) (addon_ver r') = Ok true) /\
    (forall r', r' ∈ post -> addon_id r' = addon_id r ->
                version_gt (addon_ver r') (addon_ver r) = Ok false).

(** [s < t] on [str]. *)
Definition str_lt (s t : string) : Prop := String.compare s t = Lt.

(** The name of a member is one that [find_addons] takes for a
    descriptor. *)
Definition is_descriptor (n : string) : bool :=
  str_endswith (str_lower n) "/addon.xml".

(** ** Sample library functions and inputs *)

(** A toy parser: the data [id@version] is an element [addon] with these
    two attributes, the one left out when its text is empty; data without
    [@] is not well formed. *)
Fixpoint split_at (sep : ascii) (s : string) : option (string * string) :=
  match s with
  | EmptyString => None
  | String c s' =>
      if Ascii.eqb c sep then Some (EmptyString, s')
      else match split_at sep s' with
           | Some (l, r) => Some (String c l, r)
           | None => None
           end
  end.

Definition sample_attrib (id ver : string) : gmap string string :=
  (if String.eqb id "" then ∅ else {[ "id" := id ]}) ∪
  (if String.eqb ver "" then ∅ else {[ "version" := ver ]}).

Definition sample_fromstring (data : bytes) : result Element :=
  match split_at "@" (string_of_list_byte data) with
  | Some (id, ver) => Ok (mkElement "addon" (sample_attrib id ver) None None [])
  | None => Raise (Exception "ParseError" "syntax error: line 1, column 0")
  end.

(** A toy serializer: the tag and the children between brackets. *)
Fixpoint sample_tostring (e : Element) : bytes :=
  match e with
  | mkElement t _ _ _ cs =>
      list_byte_of_string ("<" +:+ t +:+ ">") ++
      concat (List.map sample_tostring cs) ++
      list_byte_of_string ("</" +:+ t +:+ ">")
  end.

(** What the toy parser makes of [id@version], and the tuple for it. *)
Definition sample_elem (id ver : string) : Element :=
  mkElement "addon" (sample_attrib id ver) None None [].

Definition sample_entry (id ver : string) (p : path) : addon :=
  mkAddon id ver (sample_elem id ver) p.

(** A toy digest: the length and the sum of the bytes. *)
Definition sample_digest (data : bytes) : bytes :=
  [byte_of_ascii (ascii_of_nat (List.length data));
   byte_of_ascii (ascii_of_N (fold_right (fun b n => (Byte.to_N b + n) mod 256)%N 0%N data))].

(** An archive with one member [name] holding [data]. *)
Definition sample_zip (p : path) (name : string) (data : string) : archive :=
  mkArchive p (Ok (mkZip [name] (fun n =>
    if String.eqb n name then Ok (list_byte_of_string data)
    else Raise (Exception "KeyError" "There is no item named that in the archive")))).

Definition sample_good : archive :=
  sample_zip ["repo"; "zips"; "a.zip"] "a.addon/addon.xml" "a.addon@1.2.0".

Definition sample_newer : archive :=
  sample_zip ["repo"; "zips"; "a2.zip"] "a.addon/addon.xml" "a.addon@1.3.0".

Definition sample_corrupt : archive :=
  mkArchive ["repo"; "zips"; "bad.zip"] (Raise (BadZipFile "File is not a zip file")).

Definition sample_rootonly : archive :=
  sample_zip ["repo"; "zips"; "root.zip"] "addon.xml" "r.addon@1.0.0".

Definition sample_world : world := mkWorld ∅ ∅ [] [].

(** ** The version ordering as the specification words it *)

Module Spec.

Inductive kind : Type := Digits | Letters.

Definition is_digit (c : ascii) : bool :=
  match Ascii.is_nat c with
  | Some _ => true
  | None => false
  end.

Definition is_upper (c : ascii) : bool :=
  (N_of_ascii "A" <=? N_of_ascii c)%N && (N_of_ascii c <=? N_of_ascii "Z")%N.

Definition is_lower (c : ascii) : bool :=
  (N_of_ascii "a" <=? N_of_ascii c)%N && (N_of_ascii c <=? N_of_ascii "z")%N.

Definition kind_of (c : ascii) : option kind :=
  if is_digit c then Some Digits
  else if is_upper c || is_lower c then Some Letters
  else None.

Definition same_kind (k : kind) (o : option kind) : bool :=
  match k, o with
  | Digits, Some Digits | Letters, Some Letters => true
  | _, _ => false
  end.

(** The kind of the first character of [s], if it has one. *)
Definition head_kind (s : string) : option kind :=
  match s with
  | String c _ => kind_of c
  | EmptyString => None
  end.

(** The maximal runs of digits or of letters of [s], in order; every
    other character is dropped. A character joins the run that starts
    right after it when that run has its kind, and starts a run
    otherwise. *)
Fixpoint runs (s : string) : list (kind * string) :=
  match s with
  | EmptyString => []
  | String c s' =>
      match kind_of c with
      | None => runs s'
      | Some k =>
          match runs s' with
          | (_, r) :: rs' =>
              if same_kind k (head_kind s') then (k, String c r) :: rs'
              else (k, String c EmptyString) :: runs s'
          | [] => [(k, String c EmptyString)]
          end
      end
  end.

(** A character that is neither a digit nor a letter, and one of the kind
    [k]. *)
Definition is_other (c : ascii) : bool :=
  match kind_of c with
  | None => true
  | Some _ => false
  end.

Definition has_kind (k : kind) (c : ascii) : bool := same_kind k (kind_of c).

(** The same, as a relation. [s] is cut into runs when it is made of
    characters that are neither digits nor letters, or starts with such
    characters, goes on with a run, not empty, of digits or of letters
    that the next character would not extend, and is cut into runs from
    there on. *)
Inductive maximal_runs : string -> list (kind * string) -> Prop :=
  | runs_done s :
      str_all is_other s = true ->
      maximal_runs s []
  | runs_next sep k r rest rs :
      str_all is_other sep = true ->
      r <> EmptyString ->
      str_all (has_kind k) r = true ->
      head_kind rest <> Some k ->
      maximal_runs rest rs ->
      maximal_runs (sep +:+ r +:+ rest) ((k, r) :: rs).

(** The kind of the last character of [s], if it has one. *)
Fixpoint last_kind (s : string) : option kind :=
  match s with
  | EmptyString => None
  | String c EmptyString => kind_of c
  | String _ s' => last_kind s'
  end.

Inductive token : Type :=
  | TNum (n : N)
  | TAlpha (s : string).

(** The integer value of a run of digits. *)
Fixpoint value (acc : N) (s : string) : N :=
  match s with
  | EmptyString => acc
  | String c s' => value (10 * acc + N.of_nat (default 0%nat (Ascii.is_nat c))) s'
  end.

Definition fold_case (c : ascii) : ascii :=
  if is_upper c then ascii_of_N (N_of_ascii c + 32) else c.

Definition token_of (r : kind * string) : token :=
  match r with
  | (Digits, d) => TNum (value 0 d)
  | (Letters, l) => TAlpha (str_map fold_case l)
  end.

Definition tokens (v : string) : list token := List.map token_of (runs v).

(** A digit run compares as its value and sorts before a letter run;
    letter runs compare as text, their case folded. *)
Definition token_compare (a b : token) : comparison :=
  match a, b with
  | TNum x, TNum y => N.compare x y
  | TNum _, TAlpha _ => Lt
  | TAlpha _, TNum _ => Gt
  | TAlpha s, TAlpha t => String.compare s t
  end.

(** Token by token; a version that runs out of tokens first is the
    smaller. *)
Fixpoint tokens_compare (xs ys : list token) : comparison :=
  match xs, ys with
  | [], [] => Eq
  | [], _ :: _ => Lt
  | _ :: _, [] => Gt
  | x :: xs', y :: ys' =>
      match token_compare x y with
      | Eq => tokens_compare xs' ys'
      | c => c
      end
  end.

Definition version_compare (a b : string) : comparison :=
  tokens_compare (tokens a) (tokens b).

End Spec.

(** The part that [normalize_version] builds for a token. *)
Definition part_of (t : Spec.token) : pyval :=
  match t with
  | Spec.TNum n => PTuple [PInt 0; PInt (Z.of_N n)]
  | Spec.TAlpha s => PTuple [PInt 1; PStr s]
  end.

(** ** Notions used by the proofs *)

(** The character class that a kind of run is made of. *)
Definition class_of (k : Spec.kind) : ascii -> bool :=
  match k with
  | Spec.Digits => re_digit
  | Spec.Letters => re_alpha
  end.

(** A run is not empty and made of the class of its kind. *)
Definition run_ok (r : Spec.kind * string) : Prop :=
  snd r <> EmptyString /\ str_all (class_of (fst r)) (snd r) = true.

(** A run of digits that [int] accepts, or a run of letters. *)
Definition run_within_cap (r : Spec.kind * string) : bool :=
  match fst r with
  | Spec.Digits => (String.length (snd r) <=? int_max_str_digits)%nat
  | Spec.Letters => true
  end.

(** The string of [n] times the character [c]. *)
Fixpoint str_repeat (c : ascii) (n : nat) : string :=
  match n with
  | O => EmptyString
  | S n' => String c (str_repeat c n')
  end.

(** Every version kept in the table is one that [normalize_version]
    accepts. *)
Definition table_within_cap (latest : gmap string addon) : Prop :=
  forall k r, latest !! k = Some r -> within_cap (addon_ver r) = true.

(** A run with its letters in lower case. *)
Definition lower_run (r : Spec.kind * string) : Spec.kind * string :=
  (fst r, str_lower (snd r)).

(** What the table holds after the tuples [rs]: for an identifier met, the
    first tuple of the greatest version; nothing for the others. *)
Definition table_of (rs : list addon) (latest : gmap string addon) : Prop :=
  (forall k r, latest !! k = Some r -> addon_id r = k /\ first_greatest rs r) /\
  (forall k, latest !! k = None -> forall r, r ∈ rs -> addon_id r <> k).

(** A lowercase hexadecimal digit. *)
Definition is_hex_char (c : ascii) : bool :=
  in_range 48 57 c || in_range 97 102 c.

(** A run of the program on four archives: a good one, a corrupt one, one
    with its descriptor at the root, and a newer version of the first. *)
Definition sample_zips : list archive :=
  [sample_good; sample_corrupt; sample_rootonly; sample_newer].

Definition sample_run : world * outcome unit :=
  main sample_fromstring sample_tostring sample_digest
       ["repo"; "zips"] ["repo"] sample_zips sample_world.

(** No two tuples of one identifier tie: with the same identifier and
    versions of the same normalized tuple they are the same tuple. *)
Definition no_ties (rs : list addon) : Prop :=
  forall r1 r2, r1 ∈ rs -> r2 ∈ rs -> addon_id r1 = addon_id r2 ->
    normalize_version (addon_ver r1) = normalize_version (addon_ver r2) ->
    r1 = r2.

(** [r] is in [rs] and its version is strictly greater than the version of
    every other tuple of its identifier. *)
Definition greatest (rs : list addon) (r : addon) : Prop :=
  r ∈ rs /\
  forall r', r' ∈ rs -> addon_id r' = addon_id r ->
    r' = r \/ version_gt (addon_ver r) (addon_ver r') = Ok true.

(** * Properties *)

(** ** Characters *)

Ltac ascii_cases :=
  let c := fresh "c" in
  intros c; destruct c as [[] [] [] [] [] [] [] []]; vm_compute;
  try reflexivity; try discriminate; try (intros; discriminate);
  try (intros; reflexivity).

Lemma re_digit_spec : forall c, re_digit c = Spec.is_digit c.
Proof. ascii_cases. Qed.

Lemma re_alpha_spec : forall c, re_alpha c = Spec.is_upper c || Spec.is_lower c.
Proof. ascii_cases. Qed.

Lemma re_digit_not_alpha : forall c, re_digit c = true -> re_alpha c = false.
Proof. ascii_cases. Qed.

Lemma re_digit_isdigit : forall c, re_digit c = true -> chr_isdigit c = true.
Proof. ascii_cases. Qed.

Lemma re_alpha_not_isdigit : forall c, re_alpha c = true -> chr_isdigit c = false.
Proof. ascii_cases. Qed.

Lemma re_alpha_lower : forall c, re_alpha c = true -> chr_lower c = Spec.fold_case c.
Proof. ascii_cases. Qed.

Lemma re_digit_value : forall c,
  re_digit c = true ->
  Z.of_N (code c) - 48 = Z.of_nat (default 0%nat (Ascii.is_nat c)).
Proof. ascii_cases. Qed.

Lemma class_of_kind k c :
  class_of k c = Spec.same_kind k (Spec.kind_of c).
Proof.
  unfold Spec.kind_of. rewrite <- re_digit_spec, <- re_alpha_spec.
  destruct k; simpl; destruct (re_digit c) eqn:Hd; simpl;
    try reflexivity.
  - destruct (re_alpha c); reflexivity.
  - apply re_digit_not_alpha in Hd. exact Hd.
  - destruct (re_alpha c); reflexivity.
Qed.

Lemma kind_of_digit c : re_digit c = true -> Spec.kind_of c = Some Spec.Digits.
Proof. unfold Spec.kind_of. rewrite <- re_digit_spec. intros ->. reflexivity. Qed.

Lemma kind_of_alpha c :
  re_digit c = false -> re_alpha c = true -> Spec.kind_of c = Some Spec.Letters.
Proof.
  unfold Spec.kind_of. rewrite <- re_digit_spec, <- re_alpha_spec.
  intros -> ->. reflexivity.
Qed.

Lemma kind_of_other c :
  re_digit c = false -> re_alpha c = false -> Spec.kind_of c = None.
Proof.
  unfold Spec.kind_of. rewrite <- re_digit_spec, <- re_alpha_spec.
  intros -> ->. reflexivity.
Qed.

(** ** The scan of the regular expression finds the maximal runs *)

Lemma take_class_all cls s : str_all cls (take_class cls s) = true.
Proof.
  induction s as [|c s IH]; simpl; [reflexivity|].
  destruct (cls c) eqn:Hc; simpl; [|reflexivity].
  rewrite Hc, IH. reflexivity.
Qed.

Lemma drop_class_length cls s :
  (String.length (drop_class cls s) <= String.length s)%nat.
Proof.
  induction s as [|c s IH]; simpl; [lia|].
  destruct (cls c); simpl; lia.
Qed.

Lemma take_drop_class cls s : take_class cls s +:+ drop_class cls s = s.
Proof.
  induction s as [|c s IH]; [reflexivity|].
  simpl. destruct (cls c); [|reflexivity].
  change (String c (take_class cls s +:+ drop_class cls s) = String c s).
  rewrite IH. reflexivity.
Qed.

(** A character of kind [k] opens the run made of it and of the longest
    stretch of its class that follows. *)
Lemma runs_cons k c s :
  Spec.kind_of c = Some k ->
  Spec.runs (String c s) =
    (k, String c (take_class (class_of k) s)) ::
    Spec.runs (drop_class (class_of k) s).
Proof.
  revert c. induction s as [|c' s IH]; intros c Hk.
  - simpl. rewrite Hk. reflexivity.
  - change (Spec.runs (String c (String c' s))) with
      (match Spec.kind_of c with
       | None => Spec.runs (String c' s)
       | Some k0 =>
           match Spec.runs (String c' s) with
           | (_, r) :: rs' =>
               if Spec.same_kind k0 (Spec.kind_of c') then (k0, String c r) :: rs'
               else (k0, String c EmptyString) :: Spec.runs (String c' s)
           | [] => [(k0, String c EmptyString)]
           end
       end).
    rewrite Hk. simpl take_class. simpl drop_class.
    rewrite class_of_kind.
    destruct (Spec.same_kind k (Spec.kind_of c')) eqn:Hs.
    + assert (Hk' : Spec.kind_of c' = Some k).
      { destruct k, (Spec.kind_of c') as [[]|]; simpl in Hs;
          try discriminate; reflexivity. }
      rewrite (IH c' Hk'). reflexivity.
    + destruct (Spec.runs (String c' s)) as [|[k1 r] rs]; reflexivity.
Qed.

Lemma runs_skip c s :
  Spec.kind_of c = None -> Spec.runs (String c s) = Spec.runs s.
Proof. intros Hk. simpl. rewrite Hk. reflexivity. Qed.

(** [findall] returns the runs, without their kinds. *)
Lemma findall_runs v : findall v = List.map snd (Spec.runs v).
Proof.
  funelim (findall v); [reflexivity|].
  destruct (re_digit c) eqn:Hd.
  - rewrite (runs_cons Spec.Digits) by (apply kind_of_digit; exact Hd).
    simpl. f_equal. auto.
  - destruct (re_alpha c) eqn:Ha.
    + rewrite (runs_cons Spec.Letters) by (apply kind_of_alpha; assumption).
      simpl. f_equal. auto.
    + rewrite runs_skip by (apply kind_of_other; assumption). auto.
Qed.

Lemma runs_ok v : Forall run_ok (Spec.runs v).
Proof.
  remember (String.length v) as n eqn:Hn.
  assert (Hle : (String.length v <= n)%nat) by lia. clear Hn.
  revert v Hle. induction n as [|n IH]; intros [|c v] Hle; simpl in Hle;
    try (constructor; fail); try lia.
  destruct (Spec.kind_of c) as [k|] eqn:Hk.
  - rewrite (runs_cons k) by exact Hk. constructor.
    + split; [discriminate|]. simpl.
      rewrite class_of_kind, Hk, take_class_all.
      destruct k; reflexivity.
    + apply IH. pose proof (drop_class_length (class_of k) v). lia.
  - rewrite runs_skip by exact Hk. apply IH. lia.
Qed.

(** ** [normalize_version] builds the tokens' parts or raises for a long run *)

Lemma int_digits_value d : forall acc,
  str_all re_digit d = true ->
  int_digits (Z.of_N acc) d = Ok (Z.of_N (Spec.value acc d)).
Proof.
  induction d as [|c d IH]; intros acc Hall; [reflexivity|].
  simpl in Hall. apply andb_true_iff in Hall as [Hc Hd].
  simpl. rewrite Hc, (re_digit_value c Hc).
  replace (10 * Z.of_N acc + Z.of_nat (default 0%nat (Ascii.is_nat c)))
    with (Z.of_N (10 * acc + N.of_nat (default 0%nat (Ascii.is_nat c))))
    by lia.
  apply IH. exact Hd.
Qed.

Lemma str_all_impl (p q : ascii -> bool) s :
  (forall c, p c = true -> q c = true) ->
  str_all p s = true -> str_all q s = true.
Proof.
  intros Hpq. induction s as [|c s IH]; simpl; [reflexivity|].
  intros [Hc Hs]%andb_true_iff. rewrite (Hpq c Hc), (IH Hs). reflexivity.
Qed.

Lemma str_lower_alpha s :
  str_all re_alpha s = true -> str_lower s = str_map Spec.fold_case s.
Proof.
  unfold str_lower. induction s as [|c s IH]; simpl; [reflexivity|].
  intros [Hc Hs]%andb_true_iff. rewrite (re_alpha_lower c Hc), (IH Hs).
  reflexivity.
Qed.

Lemma str_isdigit_run r :
  run_ok r ->
  str_isdigit (snd r) =
    match fst r with
    | Spec.Digits => true
    | Spec.Letters => false
    end.
Proof.
  destruct r as [k [|c s]]; intros [Hne Hall]; simpl in *; [congruence|].
  apply andb_true_iff in Hall as [Hc Hs].
  destruct k; simpl in Hc, Hs.
  - rewrite (re_digit_isdigit c Hc). simpl.
    apply (str_all_impl re_digit); [apply re_digit_isdigit|exact Hs].
  - rewrite (re_alpha_not_isdigit c Hc). reflexivity.
Qed.

Lemma token_within_cap_run r :
  run_ok r -> token_within_cap (snd r) = run_within_cap r.
Proof.
  intros Hr. unfold token_within_cap, run_within_cap.
  rewrite (str_isdigit_run r Hr). destruct (fst r); reflexivity.
Qed.

(** One token: its part, or the error of [int] for a run of digits that
    is too long. *)
Lemma normalize_token_run r :
  run_ok r ->
  normalize_token (snd r) =
    if run_within_cap r then Ok (part_of (Spec.token_of r))
    else Raise (int_limit_error (String.length (snd r))).
Proof.
  intros Hr. pose proof (str_isdigit_run r Hr) as Hd.
  destruct r as [k [|c s]]; destruct Hr as [Hne Hall];
    cbn [fst snd] in *; [congruence|].
  unfold normalize_token. rewrite Hd. unfold run_within_cap. cbn [fst snd].
  cbn [str_all] in Hall. apply andb_true_iff in Hall as [Hc Hs].
  destruct k; cbn [class_of] in Hc, Hs.
  - unfold py_int. cbn [str_all]. rewrite Hc, Hs. cbn [andb].
    destruct (String.length (String c s) <=? int_max_str_digits)%nat;
      [|reflexivity].
    change 0 with (Z.of_N 0). rewrite int_digits_value; [reflexivity|].
    simpl. rewrite Hc, Hs. reflexivity.
  - rewrite (str_lower_alpha (String c s)); [reflexivity|].
    simpl. rewrite Hc, Hs. reflexivity.
Qed.

Lemma normalize_parts_runs rs :
  Forall run_ok rs -> forallb run_within_cap rs = true ->
  normalize_parts (List.map snd rs) =
    Ok (List.map part_of (List.map Spec.token_of rs)).
Proof.
  induction 1 as [|r rs Hr _ IH]; [reflexivity|].
  simpl. intros [Hc Hrs]%andb_true_iff.
  rewrite (normalize_token_run r Hr), Hc. simpl.
  rewrite (IH Hrs). reflexivity.
Qed.

Lemma normalize_parts_raises rs :
  Forall run_ok rs -> forallb run_within_cap rs = false ->
  exists n, (int_max_str_digits < n)%nat /\
            normalize_parts (List.map snd rs) = Raise (int_limit_error n).
Proof.
  induction 1 as [|r rs Hr _ IH]; [discriminate|].
  simpl. intros Hcap.
  rewrite (normalize_token_run r Hr).
  destruct (run_within_cap r) eqn:Hc; simpl.
  - destruct (IH Hcap) as (n & Hn & ->). exists n. split; [exact Hn|reflexivity].
  - exists (String.length (snd r)). split; [|reflexivity].
    unfold run_within_cap in Hc. destruct (fst r); [|discriminate].
    apply Nat.leb_gt in Hc. exact Hc.
Qed.

Lemma within_cap_runs v :
  within_cap v = forallb run_within_cap (Spec.runs v).
Proof.
  unfold within_cap. rewrite findall_runs.
  pose proof (runs_ok v) as Hok.
  induction Hok as [|r rs Hr _ IH]; [reflexivity|].
  simpl. rewrite (token_within_cap_run r Hr), IH. reflexivity.
Qed.

(** [normalize_version] returns, for every string without a run of more
    than 4300 digits, the tuple of the parts of its tokens. *)
Lemma normalize_version_tokens v :
  within_cap v = true ->
  normalize_version v = Ok (PTuple (List.map part_of (Spec.tokens v))).
Proof.
  rewrite within_cap_runs. intros Hcap.
  unfold normalize_version, Spec.tokens.
  rewrite findall_runs, (normalize_parts_runs _ (runs_ok v) Hcap). reflexivity.
Qed.

(** For the other strings it raises the [ValueError] of [int]. *)
Lemma normalize_version_raises v :
  within_cap v = false ->
  exists n, (int_max_str_digits < n)%nat /\
            normalize_version v = Raise (int_limit_error n).
Proof.
  rewrite within_cap_runs. intros Hcap.
  unfold normalize_version. rewrite findall_runs.
  destruct (normalize_parts_raises _ (runs_ok v) Hcap) as (n & Hn & ->).
  exists n. split; [exact Hn|reflexivity].
Qed.

Lemma normalize_version_ok v t :
  normalize_version v = Ok t -> within_cap v = true.
Proof.
  intros Hv. destruct (within_cap v) eqn:Hcap; [reflexivity|].
  destruct (normalize_version_raises v Hcap) as (n & _ & Hn). congruence.
Qed.

(** The result depends on the string through its runs alone. *)
Lemma normalize_version_runs a b :
  Spec.runs a = Spec.runs b -> normalize_version a = normalize_version b.
Proof.
  intros Hab. unfold normalize_version. rewrite !findall_runs, Hab.
  reflexivity.
Qed.

(** ** The order of strings by code points *)

Lemma ascii_compare_refl c : Ascii.compare c c = Eq.
Proof. apply N.compare_refl. Qed.

Lemma ascii_compare_lt_trans a b c :
  Ascii.compare a b = Lt -> Ascii.compare b c = Lt -> Ascii.compare a c = Lt.
Proof.
  unfold Ascii.compare. rewrite !N.compare_lt_iff. lia.
Qed.

Lemma str_compare_refl s : String.compare s s = Eq.
Proof.
  induction s as [|c s IH]; simpl; [reflexivity|].
  rewrite ascii_compare_refl. exact IH.
Qed.

Lemma str_compare_eq s t : String.compare s t = Eq <-> s = t.
Proof.
  split; [apply String.compare_eq_iff|]. intros ->. apply str_compare_refl.
Qed.

Lemma str_compare_lt_trans s : forall t u,
  String.compare s t = Lt -> String.compare t u = Lt -> String.compare s u = Lt.
Proof.
  induction s as [|a s IH]; intros [|b t] [|c u]; simpl;
    try discriminate; try reflexivity.
  destruct (Ascii.compare a b) eqn:Hab; try discriminate.
  - apply Ascii.compare_eq_iff in Hab as ->.
    destruct (Ascii.compare b c); try discriminate; [apply IH|reflexivity].
  - intros _. destruct (Ascii.compare b c) eqn:Hbc; try discriminate.
    + apply Ascii.compare_eq_iff in Hbc as <-. rewrite Hab. reflexivity.
    + rewrite (ascii_compare_lt_trans a b c Hab Hbc). reflexivity.
Qed.

(** ** Comparing two tuples of parts *)

Lemma token_compare_eq x y : Spec.token_compare x y = Eq <-> x = y.
Proof.
  destruct x as [n|s], y as [m|t]; simpl; split; try discriminate.
  - intros ->%N.compare_eq_iff. reflexivity.
  - intros [= ->]. apply N.compare_refl.
  - intros ->%str_compare_eq. reflexivity.
  - intros [= ->]. apply str_compare_refl.
Qed.

Lemma py_eq_part x y :
  py_eq (part_of x) (part_of y) = bool_decide (Spec.token_compare x y = Eq).
Proof.
  destruct x as [n|s], y as [m|t]; cbn -[Z.eqb Z.of_N String.eqb].
  - rewrite ?andb_true_r, ?andb_true_l. destruct (N.compare n m) eqn:Hc.
    + apply N.compare_eq_iff in Hc as ->. rewrite Z.eqb_refl. reflexivity.
    + rewrite N.compare_lt_iff in Hc.
      rewrite bool_decide_eq_false_2 by discriminate. apply Z.eqb_neq. lia.
    + rewrite N.compare_gt_iff in Hc.
      rewrite bool_decide_eq_false_2 by discriminate. apply Z.eqb_neq. lia.
  - rewrite bool_decide_eq_false_2 by discriminate. reflexivity.
  - rewrite bool_decide_eq_false_2 by discriminate. reflexivity.
  - rewrite ?andb_true_r, ?andb_true_l.
    destruct (String.eqb_spec s t) as [->|Hne].
    + rewrite bool_decide_eq_true_2; [reflexivity|].
      apply str_compare_refl.
    + rewrite bool_decide_eq_false_2; [reflexivity|].
      intros Hc. apply str_compare_eq in Hc. contradiction.
Qed.

Lemma py_gt_part x y :
  Spec.token_compare x y <> Eq ->
  py_gt (part_of x) (part_of y) =
    Ok (bool_decide (Spec.token_compare x y = Gt)).
Proof.
  destruct x as [n|s], y as [m|t];
    cbn -[Z.eqb Z.gtb Z.of_N String.eqb str_gt]; intros Hne.
  - assert (Hnm : Z.eqb (Z.of_N n) (Z.of_N m) = false).
    { apply Z.eqb_neq. intros Heq. apply Hne, N.compare_eq_iff. lia. }
    rewrite Hnm. f_equal. unfold Z.gtb. rewrite N2Z.inj_compare.
    destruct (N.compare n m); reflexivity.
  - reflexivity.
  - reflexivity.
  - assert (Hst : String.eqb s t = false).
    { apply String.eqb_neq. intros ->. apply Hne, str_compare_refl. }
    rewrite Hst. f_equal. unfold str_gt.
    destruct (String.compare s t); reflexivity.
Qed.

(** [>] on two tuples of parts never raises and is the token-by-token
    comparison. *)
Lemma py_gt_parts xs : forall ys,
  py_gt (PTuple (List.map part_of xs)) (PTuple (List.map part_of ys)) =
    Ok (bool_decide (Spec.tokens_compare xs ys = Gt)).
Proof.
  induction xs as [|x xs IH]; intros [|y ys]; try reflexivity.
  change (py_gt (PTuple (List.map part_of (x :: xs)))
                (PTuple (List.map part_of (y :: ys))))
    with (if py_eq (part_of x) (part_of y)
          then py_gt (PTuple (List.map part_of xs)) (PTuple (List.map part_of ys))
          else py_gt (part_of x) (part_of y)).
  rewrite py_eq_part. simpl Spec.tokens_compare.
  destruct (Spec.token_compare x y) eqn:Hc.
  - rewrite bool_decide_eq_true_2 by reflexivity. apply IH.
  - rewrite bool_decide_eq_false_2 by discriminate.
    rewrite py_gt_part by congruence. rewrite Hc. reflexivity.
  - rewrite bool_decide_eq_false_2 by discriminate.
    rewrite py_gt_part by congruence. rewrite Hc. reflexivity.
Qed.

(** The test of [main], on two strings that [normalize_version] accepts,
    is the comparison of the specification. *)
Lemma version_gt_compare a b :
  within_cap a = true -> within_cap b = true ->
  version_gt a b = Ok (bool_decide (Spec.version_compare a b = Gt)).
Proof.
  intros Ha Hb. unfold version_gt.
  rewrite (normalize_version_tokens a Ha), (normalize_version_tokens b Hb).
  simpl. apply py_gt_parts.
Qed.

(** It returns for no other pair. *)
Lemma version_gt_ok a b g :
  version_gt a b = Ok g ->
  within_cap a = true /\ within_cap b = true /\
  g = bool_decide (Spec.version_compare a b = Gt).
Proof.
  intros Hg.
  assert (Ha : within_cap a = true).
  { unfold version_gt in Hg.
    destruct (normalize_version a) as [x|e] eqn:Ha; [|discriminate].
    exact (normalize_version_ok a x Ha). }
  assert (Hb : within_cap b = true).
  { unfold version_gt in Hg.
    destruct (normalize_version a) as [x|e]; [|discriminate]. simpl in Hg.
    destruct (normalize_version b) as [y|e] eqn:Hb; [|discriminate].
    exact (normalize_version_ok b y Hb). }
  split; [exact Ha|]. split; [exact Hb|].
  rewrite (version_gt_compare a b Ha Hb) in Hg. congruence.
Qed.

(** ** The token order is a total order *)

Lemma token_compare_antisym x y :
  Spec.token_compare x y = CompOpp (Spec.token_compare y x).
Proof.
  destruct x, y; simpl; try reflexivity.
  - apply N.compare_antisym.
  - apply String.compare_antisym.
Qed.

Lemma tokens_compare_antisym xs : forall ys,
  Spec.tokens_compare xs ys = CompOpp (Spec.tokens_compare ys xs).
Proof.
  induction xs as [|x xs IH]; intros [|y ys]; simpl; try reflexivity.
  rewrite (token_compare_antisym x y), (IH ys).
  destruct (Spec.token_compare y x); reflexivity.
Qed.

Lemma tokens_compare_eq xs : forall ys,
  Spec.tokens_compare xs ys = Eq <-> xs = ys.
Proof.
  induction xs as [|x xs IH]; intros [|y ys]; simpl; split;
    try discriminate; try reflexivity.
  - destruct (Spec.token_compare x y) eqn:Hxy; try discriminate.
    apply token_compare_eq in Hxy as ->. intros ->%IH. reflexivity.
  - intros [= -> ->].
    rewrite (proj2 (token_compare_eq y y) eq_refl). apply IH. reflexivity.
Qed.

Lemma token_compare_lt_trans x y z :
  Spec.token_compare x y = Lt -> Spec.token_compare y z = Lt ->
  Spec.token_compare x z = Lt.
Proof.
  destruct x, y, z; simpl; try discriminate; try reflexivity.
  - rewrite !N.compare_lt_iff. lia.
  - apply str_compare_lt_trans.
Qed.

Lemma tokens_compare_lt_trans xs : forall ys zs,
  Spec.tokens_compare xs ys = Lt -> Spec.tokens_compare ys zs = Lt ->
  Spec.tokens_compare xs zs = Lt.
Proof.
  induction xs as [|x xs IH]; intros [|y ys] [|z zs]; simpl;
    try discriminate; try reflexivity.
  destruct (Spec.token_compare x y) eqn:Hxy; try discriminate.
  - apply token_compare_eq in Hxy as ->.
    destruct (Spec.token_compare y z); try discriminate;
      [apply IH|reflexivity].
  - intros _. destruct (Spec.token_compare y z) eqn:Hyz; try discriminate.
    + apply token_compare_eq in Hyz as <-. rewrite Hxy. reflexivity.
    + rewrite (token_compare_lt_trans x y z Hxy Hyz). reflexivity.
Qed.

Lemma tokens_compare_gt_trans xs ys zs :
  Spec.tokens_compare xs ys = Gt -> Spec.tokens_compare ys zs = Gt ->
  Spec.tokens_compare xs zs = Gt.
Proof.
  rewrite (tokens_compare_antisym xs ys), (tokens_compare_antisym ys zs),
    (tokens_compare_antisym xs zs).
  intros Hxy Hyz.
  rewrite (tokens_compare_lt_trans zs ys xs); [reflexivity| |].
  - destruct (Spec.tokens_compare zs ys); try discriminate; reflexivity.
  - destruct (Spec.tokens_compare ys xs); try discriminate; reflexivity.
Qed.

Lemma part_of_inj x y : part_of x = part_of y -> x = y.
Proof.
  destruct x, y; simpl; intros H; inversion H; try reflexivity.
  f_equal. lia.
Qed.

Lemma map_part_of_inj xs : forall ys,
  List.map part_of xs = List.map part_of ys -> xs = ys.
Proof.
  induction xs as [|x xs IH]; intros [|y ys]; simpl; intros H;
    inversion H; try reflexivity.
  f_equal; [apply part_of_inj; assumption | apply IH; assumption].
Qed.

(** Two versions that [normalize_version] accepts have the same tuple
    exactly when they have the same tokens. *)
Lemma normalize_version_eq a b :
  within_cap a = true -> within_cap b = true ->
  normalize_version a = normalize_version b <-> Spec.tokens a = Spec.tokens b.
Proof.
  intros Ha Hb.
  rewrite (normalize_version_tokens a Ha), (normalize_version_tokens b Hb).
  split.
  - intros [= H]. apply map_part_of_inj. exact H.
  - intros ->. reflexivity.
Qed.

Lemma version_gt_true a b :
  version_gt a b = Ok true <->
  within_cap a = true /\ within_cap b = true /\
  Spec.version_compare a b = Gt.
Proof.
  split.
  - intros (Ha & Hb & Hg)%version_gt_ok.
    split; [exact Ha|]. split; [exact Hb|].
    symmetry in Hg. apply bool_decide_eq_true_1 in Hg. exact Hg.
  - intros (Ha & Hb & Hg). rewrite (version_gt_compare a b Ha Hb).
    rewrite bool_decide_eq_true_2 by exact Hg. reflexivity.
Qed.

Lemma version_gt_false a b :
  version_gt a b = Ok false <->
  within_cap a = true /\ within_cap b = true /\
  Spec.version_compare a b <> Gt.
Proof.
  split.
  - intros (Ha & Hb & Hg)%version_gt_ok.
    split; [exact Ha|]. split; [exact Hb|].
    symmetry in Hg. apply bool_decide_eq_false_1 in Hg. exact Hg.
  - intros (Ha & Hb & Hg). rewrite (version_gt_compare a b Ha Hb).
    rewrite bool_decide_eq_false_2 by exact Hg. reflexivity.
Qed.

Lemma version_gt_trans a b c :
  version_gt a b = Ok true -> version_gt b c = Ok true ->
  version_gt a c = Ok true.
Proof.
  rewrite !version_gt_true. intros (Ha & Hb & Hab) (_ & Hc & Hbc).
  split; [exact Ha|]. split; [exact Hc|].
  apply (tokens_compare_gt_trans _ (Spec.tokens b)); assumption.
Qed.

(** Neither of two versions is greater exactly when [normalize_version]
    returns the same tuple for both. *)
Lemma version_gt_tie a b :
  version_gt a b = Ok false /\ version_gt b a = Ok false <->
  exists t, normalize_version a = Ok t /\ normalize_version b = Ok t.
Proof.
  rewrite !version_gt_false. unfold Spec.version_compare. split.
  - intros [(Ha & Hb & Hab) (_ & _ & Hba)].
    exists (PTuple (List.map part_of (Spec.tokens a))).
    split; [apply normalize_version_tokens; exact Ha|].
    rewrite (normalize_version_tokens b Hb).
    assert (Heq : Spec.tokens a = Spec.tokens b); [|rewrite Heq; reflexivity].
    apply tokens_compare_eq.
    rewrite (tokens_compare_antisym (Spec.tokens b) (Spec.tokens a)) in Hba.
    destruct (Spec.tokens_compare (Spec.tokens a) (Spec.tokens b));
      [reflexivity|exfalso; apply Hba; reflexivity
      |exfalso; apply Hab; reflexivity].
  - intros (t & Ha & Hb).
    pose proof (normalize_version_ok a t Ha) as Hca.
    pose proof (normalize_version_ok b t Hb) as Hcb.
    assert (Heq : Spec.tokens a = Spec.tokens b)
      by (apply (normalize_version_eq a b Hca Hcb); congruence).
    rewrite Heq, (proj2 (tokens_compare_eq _ _) eq_refl).
    repeat split; try assumption; discriminate.
Qed.

Lemma version_gt_trichotomy a b :
  within_cap a = true -> within_cap b = true ->
  version_gt a b = Ok true \/ version_gt b a = Ok true \/
  normalize_version a = normalize_version b.
Proof.
  intros Ha Hb.
  rewrite !version_gt_true, (normalize_version_eq a b Ha Hb).
  unfold Spec.version_compare. rewrite <- tokens_compare_eq.
  rewrite (tokens_compare_antisym (Spec.tokens b) (Spec.tokens a)).
  destruct (Spec.tokens_compare (Spec.tokens a) (Spec.tokens b)); simpl; auto.
Qed.

Lemma version_gt_asym a b :
  version_gt a b = Ok true -> version_gt b a = Ok false.
Proof.
  rewrite version_gt_true, version_gt_false. unfold Spec.version_compare.
  rewrite (tokens_compare_antisym (Spec.tokens b) (Spec.tokens a)).
  intros (Ha & Hb & ->). repeat split; try assumption. discriminate.
Qed.

(** ** The runs are the maximal ones *)

Lemma same_kind_true k o : Spec.same_kind k o = true <-> o = Some k.
Proof.
  destruct k, o as [[]|]; simpl; split; congruence.
Qed.

Lemma class_of_decide k c : class_of k c = Spec.has_kind k c.
Proof. apply class_of_kind. Qed.

Lemma is_other_none c : Spec.is_other c = true <-> Spec.kind_of c = None.
Proof.
  unfold Spec.is_other. destruct (Spec.kind_of c); split; congruence.
Qed.

Lemma str_all_ext (p q : ascii -> bool) s :
  (forall c, p c = q c) -> str_all p s = str_all q s.
Proof.
  intros Hpq. induction s as [|c s IH]; simpl; [reflexivity|].
  rewrite Hpq, IH. reflexivity.
Qed.

Lemma head_kind_drop k s :
  Spec.head_kind (drop_class (class_of k) s) <> Some k.
Proof.
  induction s as [|c s IH]; simpl; [discriminate|].
  destruct (class_of k c) eqn:Hc; [exact IH|].
  simpl. intros Hk. rewrite class_of_kind, Hk in Hc.
  destruct k; discriminate.
Qed.

Lemma maximal_runs_skip c s rs :
  Spec.kind_of c = None ->
  Spec.maximal_runs s rs -> Spec.maximal_runs (String c s) rs.
Proof.
  intros Hc [s' Hs|sep k r rest rs' Hsep Hr Hall Hnext Hrest].
  - constructor. simpl. rewrite Hs, (proj2 (is_other_none c) Hc). reflexivity.
  - apply (Spec.runs_next (String c sep) k r rest rs'); try assumption.
    simpl. rewrite Hsep, (proj2 (is_other_none c) Hc). reflexivity.
Qed.

(** The runs that [Spec.runs] computes cut the string into maximal runs. *)
Lemma runs_maximal v : Spec.maximal_runs v (Spec.runs v).
Proof.
  remember (String.length v) as n eqn:Hn.
  assert (Hle : (String.length v <= n)%nat) by lia. clear Hn.
  revert v Hle. induction n as [|n IH]; intros [|c v] Hle; simpl in Hle;
    try (constructor; reflexivity); try lia.
  destruct (Spec.kind_of c) as [k|] eqn:Hk.
  - rewrite (runs_cons k) by exact Hk.
    rewrite <- (take_drop_class (class_of k) v) at 1.
    apply (Spec.runs_next EmptyString k
             (String c (take_class (class_of k) v))
             (drop_class (class_of k) v)).
    + reflexivity.
    + discriminate.
    + rewrite <- (str_all_ext (class_of k)) by apply class_of_decide.
      simpl. rewrite class_of_kind, Hk, take_class_all.
      destruct k; reflexivity.
    + apply head_kind_drop.
    + apply IH. pose proof (drop_class_length (class_of k) v). lia.
  - rewrite runs_skip by exact Hk. apply maximal_runs_skip; [exact Hk|].
    apply IH. lia.
Qed.

Lemma runs_separators sep s :
  str_all Spec.is_other sep = true ->
  Spec.runs (sep +:+ s) = Spec.runs s.
Proof.
  induction sep as [|c sep IH]; [reflexivity|].
  simpl str_all. intros [Hc Hs]%andb_true_iff.
  apply is_other_none in Hc.
  change (String c sep +:+ s) with (String c (sep +:+ s)).
  rewrite runs_skip by exact Hc. apply IH. exact Hs.
Qed.

Lemma take_drop_run k r rest :
  str_all (class_of k) r = true -> Spec.head_kind rest <> Some k ->
  take_class (class_of k) (r +:+ rest) = r /\
  drop_class (class_of k) (r +:+ rest) = rest.
Proof.
  intros Hall Hnext. induction r as [|c r IH].
  - change (EmptyString +:+ rest) with rest.
    destruct rest as [|c rest]; [split; reflexivity|].
    simpl. simpl in Hnext. rewrite class_of_kind.
    destruct (Spec.same_kind k (Spec.kind_of c)) eqn:Hs; [|split; reflexivity].
    apply same_kind_true in Hs. contradiction.
  - simpl in Hall. apply andb_true_iff in Hall as [Hc Hr].
    change (String c r +:+ rest) with (String c (r +:+ rest)).
    simpl. rewrite Hc. destruct (IH Hr) as [-> ->]. split; reflexivity.
Qed.

(** No other cut into maximal runs exists. *)
Lemma maximal_runs_unique v rs :
  Spec.maximal_runs v rs -> rs = Spec.runs v.
Proof.
  induction 1 as [s Hs|sep k r rest rs Hsep Hr Hall Hnext _ IH].
  - induction s as [|c s IHs]; [reflexivity|].
    simpl in Hs. apply andb_true_iff in Hs as [Hc Hs].
    apply is_other_none in Hc. rewrite runs_skip by exact Hc.
    apply IHs. exact Hs.
  - rewrite (runs_separators sep _ Hsep).
    rewrite <- (str_all_ext (class_of k)) in Hall by apply class_of_decide.
    destruct r as [|c r]; [congruence|].
    simpl in Hall. apply andb_true_iff in Hall as [Hc Hall].
    change (String c r +:+ rest) with (String c (r +:+ rest)).
    rewrite (runs_cons k).
    + destruct (take_drop_run k r rest Hall Hnext) as [-> ->].
      rewrite IH. reflexivity.
    + rewrite class_of_kind in Hc. apply same_kind_true in Hc. exact Hc.
Qed.

(** The tokens put end to end are the digits and letters of the string:
    the scan drops every other character and nothing else. *)
Lemma filter_take_drop k s :
  str_filter (fun c => re_digit c || re_alpha c) s =
    take_class (class_of k) s +:+
    str_filter (fun c => re_digit c || re_alpha c) (drop_class (class_of k) s).
Proof.
  induction s as [|c s IH]; [reflexivity|].
  simpl take_class. simpl drop_class.
  destruct (class_of k c) eqn:Hc; [|reflexivity].
  simpl str_filter.
  assert (Ht : re_digit c || re_alpha c = true).
  { destruct k; simpl in Hc; rewrite Hc; [reflexivity|apply orb_true_r]. }
  rewrite Ht, IH. reflexivity.
Qed.

Lemma findall_join v :
  str_join (findall v) = str_filter (fun c => re_digit c || re_alpha c) v.
Proof.
  funelim (findall v); [reflexivity|].
  simpl str_filter.
  destruct (re_digit c) eqn:Hd; simpl.
  - rewrite (filter_take_drop Spec.Digits v'). simpl. rewrite H. reflexivity.
  - destruct (re_alpha c) eqn:Ha; simpl.
    + rewrite (filter_take_drop Spec.Letters v'). simpl. rewrite H0. reflexivity.
    + auto.
Qed.

Lemma version_gt_raises a b :
  within_cap a && within_cap b = false ->
  exists n, (int_max_str_digits < n)%nat /\
            version_gt a b = Raise (int_limit_error n).
Proof.
  intros Hcap. unfold version_gt.
  destruct (within_cap a) eqn:Ha.
  - rewrite (normalize_version_tokens a Ha). simpl in Hcap.
    destruct (normalize_version_raises b Hcap) as (n & Hn & ->).
    exists n. split; [exact Hn|reflexivity].
  - destruct (normalize_version_raises a Ha) as (n & Hn & ->).
    exists n. split; [exact Hn|reflexivity].
Qed.

(** Not every pair of strings is compared token by token: [int] refuses a
    run of more than 4300 digits, so for the version made of 4301 nines,
    which the token order of the specification puts above 1,
    [normalize_version] raises [ValueError] and so does the comparison. *)
Lemma version_gt_raises_on_long_digit_run :
  Spec.version_compare (str_repeat "9" 4301) "1" = Gt /\
  normalize_version (str_repeat "9" 4301) = Raise (int_limit_error 4301) /\
  version_gt (str_repeat "9" 4301) "1" = Raise (int_limit_error 4301) /\
  ~ (forall a b,
       version_gt a b = Ok (bool_decide (Spec.version_compare a b = Gt))).
Proof.
  assert (H : version_gt (str_repeat "9" 4301) "1" =
              Raise (int_limit_error 4301)) by (vm_compute; reflexivity).
  split; [vm_compute; reflexivity|].
  split; [vm_compute; reflexivity|].
  split; [exact H|].
  intros Hall. rewrite Hall in H. discriminate.
Qed.

(** C1. The version ordering compares two version strings token
    by token when no run of digits in them has more than 4300 digits:
    [findall] cuts a string into its maximal runs of digits or of letters
    and drops every other character (a dropped character still ends the
    run before it: 1.0.0 has the runs 1, 0 and 0); [normalize_version]
    turns a digit run into its integer value and a letter run into its
    lowercase text; [>] on the two tuples is the lexicographic comparison
    in which a number sorts before a text, numbers compare by value and
    texts by code points. For a string with a longer run of digits
    [normalize_version] raises the [ValueError] of [int], and the
    comparison returns for no other reason than both strings being within
    the limit. In particular 1.0.0 < 1.0.0a < 1.0.1. *)
Theorem version_order_token_by_token :
  (forall v, Spec.maximal_runs v (Spec.runs v)) /\
  (forall v rs, Spec.maximal_runs v rs -> findall v = List.map snd rs) /\
  findall "1.0.0" = ["1"; "0"; "0"] /\
  version_gt "2" "1.0" = Ok true /\
  (forall v, str_join (findall v) =
             str_filter (fun c => re_digit c || re_alpha c) v) /\
  (forall v, within_cap v = forallb run_within_cap (Spec.runs v)) /\
  (forall v, within_cap v = true ->
             normalize_version v =
               Ok (PTuple (List.map part_of (Spec.tokens v)))) /\
  (forall v, within_cap v = false ->
             exists n, (int_max_str_digits < n)%nat /\
                       normalize_version v = Raise (int_limit_error n)) /\
  (forall a b, within_cap a = true -> within_cap b = true ->
               version_gt a b =
                 Ok (bool_decide (Spec.version_compare a b = Gt))) /\
  (forall a b g, version_gt a b = Ok g ->
                 within_cap a = true /\ within_cap b = true /\
                 g = bool_decide (Spec.version_compare a b = Gt)) /\
  Spec.version_compare "1.0.0" "1.0.0a" = Lt /\
  Spec.version_compare "1.0.0a" "1.0.1" = Lt /\
  version_gt "1.0.0a" "1.0.0" = Ok true /\
  version_gt "1.0.1" "1.0.0a" = Ok true /\
  version_gt "1.0.1" "1.0.0" = Ok true /\
  version_gt "1.0.0" "1.0.0a" = Ok false.
Proof.
  split; [exact runs_maximal|].
  split; [intros v rs ->%maximal_runs_unique; apply findall_runs|].
  split; [vm_compute; reflexivity|].
  split; [vm_compute; reflexivity|].
  split; [exact findall_join|].
  split; [exact within_cap_runs|].
  split; [exact normalize_version_tokens|].
  split; [exact normalize_version_raises|].
  split; [exact version_gt_compare|].
  split; [exact version_gt_ok|].
  repeat split; vm_compute; reflexivity.
Qed.

(** The comparison is not defined on every pair of version strings: with
    a run of 4301 zeros on one side it raises [ValueError], whichever side
    that is. *)
Lemma version_gt_undefined_on_long_digit_run :
  version_gt ("1." +:+ str_repeat "0" 4301) "1.0" =
    Raise (int_limit_error 4301) /\
  version_gt "1.0" ("1." +:+ str_repeat "0" 4301) =
    Raise (int_limit_error 4301) /\
  ~ (forall a b, exists r, version_gt a b = Ok r).
Proof.
  assert (H : version_gt ("1." +:+ str_repeat "0" 4301) "1.0" =
              Raise (int_limit_error 4301)) by (vm_compute; reflexivity).
  split; [exact H|].
  split; [vm_compute; reflexivity|].
  intros Hall.
  destruct (Hall ("1." +:+ str_repeat "0" 4301) "1.0") as [r Hr].
  rewrite Hr in H. discriminate.
Qed.

(** C8. On the version strings without a run of more than 4300
    digits the comparison of normalized versions is a total order: it is
    defined on every pair of them (it does not raise), it is transitive
    and asymmetric, and any two of them are comparable (one is greater or
    their normalized tuples are equal). With such a run on either side the
    comparison raises [ValueError]. A tie happens only for equal tuples,
    and 1.0.0+meta is greater than 1.0.0. *)
Theorem version_order_total :
  (forall a b, within_cap a = true -> within_cap b = true ->
               exists r, version_gt a b = Ok r) /\
  (forall a b, within_cap a && within_cap b = false ->
               exists n, (int_max_str_digits < n)%nat /\
                         version_gt a b = Raise (int_limit_error n)) /\
  (forall a b c, version_gt a b = Ok true -> version_gt b c = Ok true ->
                 version_gt a c = Ok true) /\
  (forall a b, version_gt a b = Ok true -> version_gt b a = Ok false) /\
  (forall a b, within_cap a = true -> within_cap b = true ->
               version_gt a b = Ok true \/ version_gt b a = Ok true \/
               normalize_version a = normalize_version b) /\
  (forall a b, version_gt a b = Ok false /\ version_gt b a = Ok false <->
               exists t, normalize_version a = Ok t /\
                         normalize_version b = Ok t) /\
  version_gt "1.0.0+meta" "1.0.0" = Ok true /\
  version_gt "1.0.0" "1.0.0+meta" = Ok false.
Proof.
  split; [intros a b Ha Hb; rewrite (version_gt_compare a b Ha Hb); eauto|].
  split; [exact version_gt_raises|].
  split; [exact version_gt_trans|].
  split; [exact version_gt_asym|].
  split; [exact version_gt_trichotomy|].
  split; [exact version_gt_tie|].
  split; vm_compute; reflexivity.
Qed.

(** ** Letter case and leading zeros *)

Lemma kind_of_lower : forall c, Spec.kind_of (chr_lower c) = Spec.kind_of c.
Proof. ascii_cases. Qed.

Lemma is_nat_lower : forall c, Ascii.is_nat (chr_lower c) = Ascii.is_nat c.
Proof. ascii_cases. Qed.

Lemma fold_case_lower : forall c,
  re_alpha c = true -> Spec.fold_case (chr_lower c) = Spec.fold_case c.
Proof. ascii_cases. Qed.

Lemma runs_unfold c s :
  Spec.runs (String c s) =
    match Spec.kind_of c with
    | None => Spec.runs s
    | Some k =>
        match Spec.runs s with
        | (_, r) :: rs' =>
            if Spec.same_kind k (Spec.head_kind s) then (k, String c r) :: rs'
            else (k, String c EmptyString) :: Spec.runs s
        | [] => [(k, String c EmptyString)]
        end
    end.
Proof. reflexivity. Qed.

Lemma head_kind_lower s : Spec.head_kind (str_lower s) = Spec.head_kind s.
Proof. destruct s as [|c s]; [reflexivity|]. simpl. apply kind_of_lower. Qed.

Lemma runs_lower v : Spec.runs (str_lower v) = List.map lower_run (Spec.runs v).
Proof.
  induction v as [|c v IH]; [reflexivity|].
  change (str_lower (String c v)) with (String (chr_lower c) (str_lower v)).
  rewrite !runs_unfold, kind_of_lower, head_kind_lower, IH.
  destruct (Spec.kind_of c) as [k|]; [|reflexivity].
  destruct (Spec.runs v) as [|[k1 r] rs]; [reflexivity|].
  simpl. destruct (Spec.same_kind k (Spec.head_kind v)); reflexivity.
Qed.

Lemma value_lower d : forall acc,
  Spec.value acc (str_lower d) = Spec.value acc d.
Proof.
  induction d as [|c d IH]; intros acc; [reflexivity|].
  simpl. rewrite is_nat_lower. apply IH.
Qed.

Lemma fold_case_str_lower l :
  str_all re_alpha l = true ->
  str_map Spec.fold_case (str_lower l) = str_map Spec.fold_case l.
Proof.
  induction l as [|c l IH]; [reflexivity|].
  simpl. intros [Hc Hl]%andb_true_iff.
  rewrite (fold_case_lower c Hc). f_equal. apply IH. exact Hl.
Qed.

Lemma token_of_lower r :
  run_ok r -> Spec.token_of (lower_run r) = Spec.token_of r.
Proof.
  destruct r as [[] s]; intros [_ Hall]; simpl in *.
  - f_equal. apply value_lower.
  - f_equal. apply fold_case_str_lower. exact Hall.
Qed.

Lemma tokens_lower v : Spec.tokens (str_lower v) = Spec.tokens v.
Proof.
  unfold Spec.tokens. rewrite runs_lower.
  pose proof (runs_ok v) as Hok.
  induction Hok as [|r rs Hr _ IH]; [reflexivity|].
  cbn [List.map]. rewrite (token_of_lower r Hr), IH. reflexivity.
Qed.

Lemma str_lower_length s : String.length (str_lower s) = String.length s.
Proof.
  unfold str_lower. induction s as [|c s IH]; simpl; [reflexivity|].
  rewrite IH. reflexivity.
Qed.

Lemma run_ok_lower r : run_ok r -> run_ok (lower_run r).
Proof.
  destruct r as [k s]. intros [Hne Hall]. unfold run_ok, lower_run.
  cbn [fst snd] in *. split.
  - destruct s; [congruence|discriminate].
  - clear Hne. unfold str_lower. induction s as [|c s IH]; [reflexivity|].
    cbn [str_all str_map] in *.
    apply andb_true_iff in Hall as [Hc Hs].
    rewrite class_of_kind, kind_of_lower, <- class_of_kind, Hc.
    apply IH. exact Hs.
Qed.

Lemma normalize_token_lower r :
  run_ok r -> normalize_token (snd (lower_run r)) = normalize_token (snd r).
Proof.
  intros Hr.
  rewrite (normalize_token_run _ (run_ok_lower r Hr)), (normalize_token_run r Hr).
  rewrite (token_of_lower r Hr).
  unfold run_within_cap, lower_run. cbn [fst snd].
  rewrite str_lower_length. reflexivity.
Qed.

(** [normalize_version] gives for a string what it gives for its
    [lower()], be it a tuple or an error. *)
Lemma normalize_version_str_lower v :
  normalize_version (str_lower v) = normalize_version v.
Proof.
  unfold normalize_version. rewrite !findall_runs, runs_lower.
  pose proof (runs_ok v) as Hok.
  induction Hok as [|r rs Hr _ IH]; [reflexivity|].
  cbn [List.map normalize_parts].
  rewrite (normalize_token_lower r Hr).
  destruct (normalize_token (snd r)) as [x|e]; [|reflexivity].
  cbn [mbind result_bind] in *.
  destruct (normalize_parts (List.map snd (List.map lower_run rs)));
    destruct (normalize_parts (List.map snd rs)); simpl in *; congruence.
Qed.

(** Two strings with the same [lower()] have the same normalized tuple. *)
Lemma normalize_version_lower v v' :
  str_lower v = str_lower v' -> normalize_version v = normalize_version v'.
Proof.
  intros H.
  rewrite <- (normalize_version_str_lower v), <- (normalize_version_str_lower v'), H.
  reflexivity.
Qed.

Lemma runs_nonempty s k :
  Spec.head_kind s = Some k -> Spec.runs s <> [].
Proof.
  destruct s as [|c s]; simpl; [discriminate|].
  intros Hk. rewrite Hk.
  destruct (Spec.runs s) as [|[k1 r] rs]; [discriminate|].
  destruct (Spec.same_kind k (Spec.head_kind s)); discriminate.
Qed.

Lemma head_kind_app pre s :
  pre <> EmptyString -> Spec.head_kind (pre +:+ s) = Spec.head_kind pre.
Proof. destruct pre; [congruence|reflexivity]. Qed.

(** The runs of two strings put end to end are the runs of the first and
    then those of the second, unless a run goes across the seam. *)
Lemma runs_app pre : forall s,
  (forall k, Spec.last_kind pre = Some k -> Spec.head_kind s <> Some k) ->
  Spec.runs (pre +:+ s) = Spec.runs pre ++ Spec.runs s.
Proof.
  induction pre as [|c pre IH]; intros s Hseam; [reflexivity|].
  change (String c pre +:+ s) with (String c (pre +:+ s)).
  rewrite !runs_unfold.
  destruct pre as [|c' pre'].
  - change (EmptyString +:+ s) with s. simpl Spec.runs at 3.
    destruct (Spec.kind_of c) as [k|] eqn:Hk; [|reflexivity].
    assert (Hs : Spec.same_kind k (Spec.head_kind s) = false).
    { apply not_true_is_false. intros Ht%same_kind_true.
      apply (Hseam k); [exact Hk | exact Ht]. }
    rewrite Hs. destruct (Spec.runs s) as [|[k1 r] rs]; reflexivity.
  - rewrite (IH s) by (intros k Hl; apply Hseam; exact Hl).
    rewrite head_kind_app by discriminate.
    destruct (Spec.kind_of c) as [k|]; [|reflexivity].
    destruct (Spec.same_kind k (Spec.head_kind (String c' pre'))) eqn:Hs.
    + apply same_kind_true in Hs. apply runs_nonempty in Hs.
      destruct (Spec.runs (String c' pre')) as [|[k1 r] rs];
        [congruence|reflexivity].
    + destruct (Spec.runs (String c' pre')) as [|[k1 r] rs]; simpl.
      * destruct (Spec.runs s) as [|[k2 r2] rs2]; reflexivity.
      * reflexivity.
Qed.

Lemma runs_leading_zero rest :
  Spec.head_kind rest = Some Spec.Digits ->
  exists d rs, Spec.runs rest = (Spec.Digits, d) :: rs /\
               Spec.runs (String "0" rest) = (Spec.Digits, String "0" d) :: rs.
Proof.
  destruct rest as [|c r]; simpl Spec.head_kind; [discriminate|].
  intros Hk.
  rewrite (runs_cons Spec.Digits "0" (String c r)) by reflexivity.
  rewrite (runs_cons Spec.Digits c r) by exact Hk.
  assert (Hc : re_digit c = true).
  { pose proof (class_of_kind Spec.Digits c) as H. rewrite Hk in H. exact H. }
  simpl class_of. simpl take_class. simpl drop_class. rewrite Hc.
  eexists _, _. split; reflexivity.
Qed.

Lemma runs_leading_zero_app pre rest :
  Spec.last_kind pre <> Some Spec.Digits ->
  Spec.head_kind rest = Some Spec.Digits ->
  exists d rs,
    Spec.runs (pre +:+ rest) = Spec.runs pre ++ (Spec.Digits, d) :: rs /\
    Spec.runs (pre +:+ String "0" rest) =
      Spec.runs pre ++ (Spec.Digits, String "0" d) :: rs.
Proof.
  intros Hpre Hrest.
  destruct (runs_leading_zero rest Hrest) as (d & rs & H1 & H2).
  exists d, rs. rewrite !runs_app, H1, H2.
  - split; reflexivity.
  - intros k Hl Hh. change (Some Spec.Digits = Some k) in Hh. congruence.
  - intros k Hl Hh. rewrite Hrest in Hh. congruence.
Qed.

(** A zero put in front of a run of digits does not change the tuple, as
    long as the run stays within the limit of [int]. *)
Lemma normalize_version_leading_zero pre rest :
  Spec.last_kind pre <> Some Spec.Digits ->
  Spec.head_kind rest = Some Spec.Digits ->
  within_cap (pre +:+ String "0" rest) = true ->
  within_cap (pre +:+ rest) = true /\
  normalize_version (pre +:+ String "0" rest) = normalize_version (pre +:+ rest).
Proof.
  intros Hpre Hrest Hcap.
  destruct (runs_leading_zero_app pre rest Hpre Hrest) as (d & rs & H1 & H2).
  assert (Hcap' : within_cap (pre +:+ rest) = true).
  { rewrite within_cap_runs in *. rewrite H1. rewrite H2 in Hcap.
    rewrite forallb_app in *. apply andb_true_iff in Hcap as [Hp Hd].
    rewrite Hp. cbn [forallb andb] in *.
    apply andb_true_iff in Hd as [Hd Hrs]. rewrite Hrs, andb_true_r.
    unfold run_within_cap in *. cbn [fst snd] in *.
    apply Nat.leb_le in Hd. apply Nat.leb_le. simpl in Hd. lia. }
  split; [exact Hcap'|].
  apply (normalize_version_eq _ _ Hcap Hcap'). unfold Spec.tokens.
  rewrite H1, H2, !List.map_app. reflexivity.
Qed.

(** Two versions with the same tuple: the archive met second does not
    replace the one kept. *)
Lemma select_tie latest r best t :
  latest !! addon_id r = Some best ->
  normalize_version (addon_ver r) = Ok t ->
  normalize_version (addon_ver best) = Ok t ->
  select latest r = Ok latest.
Proof.
  intros Hbest Hr Hb. unfold select. rewrite Hbest.
  assert (Htie : exists t, normalize_version (addon_ver r) = Ok t /\
                           normalize_version (addon_ver best) = Ok t)
    by (exists t; split; assumption).
  apply version_gt_tie in Htie as [-> _]. reflexivity.
Qed.



(** ** One archive *)

Lemma str_endswith_spec s suffix :
  str_endswith s suffix = true <-> exists p, s = p +:+ suffix.
Proof.
  induction s as [|c s IH].
  - cbn [str_endswith]. rewrite orb_false_r. split.
    + intros <-%String.eqb_eq. exists EmptyString. reflexivity.
    + intros [[|c p] Hp]; [|discriminate].
      apply String.eqb_eq. exact Hp.
  - cbn [str_endswith]. rewrite orb_true_iff, IH, String.eqb_eq. split.
    + intros [->|[p ->]].
      * exists EmptyString. reflexivity.
      * exists (String c p). reflexivity.
    + intros [[|c' p] Hp].
      * left. exact Hp.
      * right. exists p. injection Hp as _ Hp. exact Hp.
Qed.

Lemma find_addon_xml_descriptor names n :
  find_addon_xml names = Some n -> is_descriptor n = true.
Proof.
  induction names as [|m names IH]; simpl; [discriminate|].
  destruct (str_endswith (str_lower m) "/addon.xml") eqn:Hm; [|exact IH].
  intros [= <-]. exact Hm.
Qed.

Lemma py_not_find names :
  py_not (find_addon_xml names) =
    match find_addon_xml names with
    | None => true
    | Some _ => false
    end.
Proof.
  destruct (find_addon_xml names) as [n|] eqn:Hn; [|reflexivity].
  apply find_addon_xml_descriptor in Hn.
  destruct n; [discriminate|reflexivity].
Qed.

Lemma py_not_false x :
  py_not x = false <-> exists s, x = Some s /\ s <> EmptyString.
Proof.
  destruct x as [[|c t]|]; simpl; split; try discriminate.
  - intros (s & [= <-] & Hs). congruence.
  - intros _. eexists. split; [reflexivity|discriminate].
  - reflexivity.
  - intros (s & Hs & _). discriminate.
Qed.

Lemma warn_nil w : warn [] w = w.
Proof. destruct w. unfold warn. simpl. rewrite app_nil_r. reflexivity. Qed.

Lemma warn_app l1 l2 w : warn l2 (warn l1 w) = warn (l1 ++ l2) w.
Proof. unfold warn. simpl. rewrite app_assoc. reflexivity. Qed.

Section ProgramProperties.

Variable fromstring : bytes -> result Element.
Variable tostring : Element -> bytes.
Variable md5_digest : bytes -> bytes.

Ltac run_scan :=
  unfold find_addons_next, scan_zip, mbind, M_bind, mret, M_ret, lift,
    print_err, warn; simpl.

Lemma find_addons_next_yields a r w :
  archive_yields fromstring a r ->
  find_addons_next fromstring a w = (w, Done (Some r)).
Proof.
  intros [z n data elem id ver Hz Hn Hdata Helem Hid Hid' Hver Hver'].
  run_scan. rewrite Hz, py_not_find, Hn. simpl.
  rewrite Hdata, Helem, Hid, Hver.
  destruct id; [congruence|]. destruct ver; [congruence|]. reflexivity.
Qed.

Lemma find_addons_next_fails a line w :
  archive_fails fromstring a line ->
  find_addons_next fromstring a w = (warn [line] w, Done None).
Proof.
  intros [e Hz|z Hz Hn|z n e Hz Hn Hdata|z n data e Hz Hn Hdata Helem
         |z n data elem Hz Hn Hdata Helem Hattr]; run_scan.
  - rewrite Hz. destruct e; reflexivity.
  - rewrite Hz, py_not_find, Hn. reflexivity.
  - rewrite Hz, py_not_find, Hn. simpl. rewrite Hdata. destruct e; reflexivity.
  - rewrite Hz, py_not_find, Hn. simpl. rewrite Hdata, Helem.
    destruct e; reflexivity.
  - rewrite Hz, py_not_find, Hn. simpl. rewrite Hdata, Helem, Hattr.
    reflexivity.
Qed.

(** Every archive yields a tuple or fails with a line. *)
Lemma archive_yields_or_fails a :
  (exists r, archive_yields fromstring a r) \/
  (exists line, archive_fails fromstring a line).
Proof.
  destruct (zip_open a) as [z|e] eqn:Hz;
    [|right; eexists; apply (fails_open _ _ e Hz)].
  destruct (find_addon_xml (namelist z)) as [n|] eqn:Hn;
    [|right; eexists; apply (fails_no_descriptor _ _ z Hz Hn)].
  destruct (zip_read z n) as [data|e] eqn:Hdata;
    [|right; eexists; apply (fails_read _ _ z n e Hz Hn Hdata)].
  destruct (fromstring data) as [elem|e] eqn:Helem;
    [|right; eexists; apply (fails_parse _ _ z n data e Hz Hn Hdata Helem)].
  destruct (py_not (attrib elem !! "id") || py_not (attrib elem !! "version"))
    eqn:Hattr;
    [right; eexists; apply (fails_attributes _ _ z n data elem Hz Hn Hdata Helem Hattr)|].
  apply orb_false_iff in Hattr as [Hid Hver].
  apply py_not_false in Hid as (id & Hid & Hid').
  apply py_not_false in Hver as (ver & Hver & Hver').
  left. eexists.
  apply (yields_addon _ _ z n data elem id ver); assumption.
Qed.

Lemma archive_not_both a r line :
  archive_yields fromstring a r -> archive_fails fromstring a line -> False.
Proof.
  intros Hy Hf.
  pose proof (find_addons_next_yields a r sample_world Hy) as H1.
  pose proof (find_addons_next_fails a line sample_world Hf) as H2.
  rewrite H1 in H2. discriminate.
Qed.

Lemma scanned_total zips :
  exists rs lines, scanned fromstring zips rs lines.
Proof.
  induction zips as [|a zips (rs & lines & IH)].
  - exists [], []. constructor.
  - destruct (archive_yields_or_fails a) as [[r Hr]|[line Hl]].
    + exists (r :: rs), lines. constructor; assumption.
    + exists rs, (line :: lines). constructor; assumption.
Qed.

End ProgramProperties.

(** ** The selection of the latest version *)

Lemma elem_of_middle {A : Type} (pre : list A) (x : A) (post : list A) :
  x ∈ pre ++ x :: post.
Proof. apply elem_of_app. right. apply elem_of_cons. left. reflexivity. Qed.

Lemma version_gt_total a b :
  within_cap a = true -> within_cap b = true ->
  exists g, version_gt a b = Ok g.
Proof. intros Ha Hb. rewrite (version_gt_compare a b Ha Hb). eauto. Qed.

(** Greater than a version that a third one does not exceed. *)
Lemma version_gt_not_gt a b c :
  version_gt a b = Ok true -> version_gt c b = Ok false ->
  version_gt a c = Ok true.
Proof.
  rewrite !version_gt_true, version_gt_false. unfold Spec.version_compare.
  intros (Ha & Hb & Hab) (Hc' & _ & Hcb).
  split; [exact Ha|]. split; [exact Hc'|].
  destruct (Spec.tokens_compare (Spec.tokens c) (Spec.tokens b)) eqn:Hc;
    [| |congruence].
  - apply tokens_compare_eq in Hc. rewrite Hc. exact Hab.
  - apply (tokens_compare_gt_trans _ (Spec.tokens b)); [exact Hab|].
    rewrite tokens_compare_antisym, Hc. reflexivity.
Qed.

Lemma select_newer latest r :
  is_newer latest r -> select latest r = Ok (<[addon_id r := r]> latest).
Proof.
  unfold select. intros [Hnone|(best & Hbest & Hgt)].
  - rewrite Hnone. reflexivity.
  - rewrite Hbest, Hgt. reflexivity.
Qed.

(** What [select] returns, when it returns: the table with the tuple put
    in it when the tuple is newer, the table as it was otherwise. *)
Lemma select_ok latest r latest' :
  select latest r = Ok latest' ->
  (is_newer latest r /\ latest' = <[addon_id r := r]> latest) \/
  (~ is_newer latest r /\ latest' = latest).
Proof.
  unfold select, is_newer.
  destruct (latest !! addon_id r) as [best|] eqn:Hbest.
  - destruct (version_gt (addon_ver r) (addon_ver best)) as [[]|e] eqn:Hg;
      simpl; intros [= <-].
    + left. split; [right; exists best; split; [reflexivity|exact Hg]|].
      reflexivity.
    + right. split; [|reflexivity].
      intros [Hn|(b & [= <-] & Hb)]; congruence.
  - intros [= <-]. left. split; [left; reflexivity|reflexivity].
Qed.

(** [select] raises exactly when the identifier has a tuple and the
    comparison with its version raises. *)
Lemma select_raises latest r e :
  select latest r = Raise e <->
  exists best, latest !! addon_id r = Some best /\
               version_gt (addon_ver r) (addon_ver best) = Raise e.
Proof.
  unfold select. destruct (latest !! addon_id r) as [best|] eqn:Hbest.
  - destruct (version_gt (addon_ver r) (addon_ver best)) as [g|e'] eqn:Hg;
      simpl; split.
    + discriminate.
    + intros (b & [= <-] & Hb). congruence.
    + intros [= ->]. exists best. split; [reflexivity|exact Hg].
    + intros (b & [= <-] & Hb). congruence.
  - split; [discriminate|]. intros (b & Hb & _). discriminate.
Qed.

(** A tuple that is not newer leaves the table as it was, unless the
    comparison raises. *)
Lemma select_not_newer latest r :
  ~ is_newer latest r ->
  select latest r = Ok latest \/
  exists best n,
    latest !! addon_id r = Some best /\ (int_max_str_digits < n)%nat /\
    within_cap (addon_ver r) && within_cap (addon_ver best) = false /\
    select latest r = Raise (int_limit_error n).
Proof.
  intros Hnot.
  destruct (select latest r) as [latest'|e] eqn:Hsel.
  - apply select_ok in Hsel as [[Hn _]|[_ ->]]; [contradiction|].
    left. reflexivity.
  - right. apply select_raises in Hsel as (best & Hbest & Hg).
    exists best.
    destruct (within_cap (addon_ver r) && within_cap (addon_ver best)) eqn:Hcap.
    + apply andb_true_iff in Hcap as [Ha Hb].
      destruct (version_gt_total _ _ Ha Hb) as [g Hg']. congruence.
    + destruct (version_gt_raises _ _ Hcap) as (n & Hn & Hg').
      exists n. split; [exact Hbest|]. split; [exact Hn|].
      split; [reflexivity|]. congruence.
Qed.

Lemma select_not_newer_within latest r :
  ~ is_newer latest r ->
  within_cap (addon_ver r) = true -> table_within_cap latest ->
  select latest r = Ok latest.
Proof.
  intros Hnot Hr Htab.
  destruct (select_not_newer latest r Hnot)
    as [H|(best & n & Hbest & _ & Hcap & _)]; [exact H|].
  rewrite Hr, (Htab _ _ Hbest) in Hcap. discriminate.
Qed.

Lemma is_newer_dec latest r : is_newer latest r \/ ~ is_newer latest r.
Proof.
  unfold is_newer.
  destruct (latest !! addon_id r) as [best|]; [|left; left; reflexivity].
  destruct (version_gt (addon_ver r) (addon_ver best)) as [[]|e] eqn:Hg.
  - left. right. exists best. split; [reflexivity|exact Hg].
  - right. intros [Hn|(b & [= <-] & Hb)]; congruence.
  - right. intros [Hn|(b & [= <-] & Hb)]; congruence.
Qed.

Lemma table_within_cap_empty : table_within_cap ∅.
Proof. intros k r. rewrite lookup_empty. discriminate. Qed.

Lemma table_within_cap_insert latest r :
  within_cap (addon_ver r) = true -> table_within_cap latest ->
  table_within_cap (<[addon_id r := r]> latest).
Proof.
  intros Hr Htab k r'. rewrite lookup_insert. case_decide.
  - intros [= <-]. exact Hr.
  - apply Htab.
Qed.

(** With versions that [normalize_version] accepts, [select] returns. *)
Lemma select_total latest r :
  within_cap (addon_ver r) = true -> table_within_cap latest ->
  exists latest', select latest r = Ok latest' /\ table_within_cap latest'.
Proof.
  intros Hr Htab. destruct (is_newer_dec latest r) as [H|H].
  - rewrite (select_newer _ _ H). eexists. split; [reflexivity|].
    apply table_within_cap_insert; assumption.
  - rewrite (select_not_newer_within _ _ H Hr Htab). eauto.
Qed.

Lemma select_seq_app rs1 : forall rs2 latest,
  select_seq (rs1 ++ rs2) latest =
    (latest' ← select_seq rs1 latest; select_seq rs2 latest').
Proof.
  induction rs1 as [|r rs1 IH]; intros rs2 latest; [reflexivity|].
  simpl. destruct (select latest r) as [l|e]; [|reflexivity].
  simpl. apply IH.
Qed.

Lemma select_seq_total rs : forall latest,
  Forall (fun r => within_cap (addon_ver r) = true) rs ->
  table_within_cap latest ->
  exists latest', select_seq rs latest = Ok latest'.
Proof.
  induction rs as [|r rs IH]; intros latest Hrs Htab; simpl; [eauto|].
  apply Forall_cons in Hrs as [Hr Hrs].
  destruct (select_total latest r Hr Htab) as (l & -> & Hl). simpl.
  apply IH; assumption.
Qed.

(** The loop returns only when every version it met is one that
    [normalize_version] accepts, but for the versions of the identifiers
    met once, which are never compared. *)
Lemma select_seq_compared rs : forall latest latest',
  select_seq rs latest = Ok latest' ->
  forall r, r ∈ rs -> addon_id r ∈ dom latest ->
  within_cap (addon_ver r) = true.
Proof.
  induction rs as [|r0 rs IH]; intros latest latest' Hsel r Hin Hdom;
    [inversion Hin|].
  simpl in Hsel. destruct (select latest r0) as [l|e] eqn:Hs; [|discriminate].
  simpl in Hsel.
  apply elem_of_cons in Hin as [->|Hin].
  - apply elem_of_dom in Hdom as [best Hbest].
    unfold select in Hs. rewrite Hbest in Hs.
    destruct (version_gt (addon_ver r0) (addon_ver best)) as [g|e] eqn:Hg;
      [|discriminate].
    apply version_gt_ok in Hg as (Ha & _). exact Ha.
  - apply (IH l latest' Hsel r Hin).
    apply select_ok in Hs as [[_ ->]|[_ ->]]; [|exact Hdom].
    rewrite dom_insert. apply elem_of_union. right. exact Hdom.
Qed.


Lemma first_greatest_snoc_other rs r r1 :
  first_greatest rs r1 -> addon_id r <> addon_id r1 ->
  first_greatest (rs ++ [r]) r1.
Proof.
  intros (pre & post & -> & Hpre & Hpost) Hne.
  exists pre, (post ++ [r]). split; [rewrite <- app_assoc; reflexivity|].
  split; [exact Hpre|].
  intros r' [Hin|Hin]%elem_of_app Hid; [apply Hpost; assumption|].
  apply list_elem_of_singleton in Hin as ->. congruence.
Qed.

Lemma first_greatest_snoc_kept rs r best :
  first_greatest rs best ->
  version_gt (addon_ver r) (addon_ver best) = Ok false ->
  first_greatest (rs ++ [r]) best.
Proof.
  intros (pre & post & -> & Hpre & Hpost) Hng.
  exists pre, (post ++ [r]). split; [rewrite <- app_assoc; reflexivity|].
  split; [exact Hpre|].
  intros r' [Hin|Hin]%elem_of_app Hid; [apply Hpost; assumption|].
  apply list_elem_of_singleton in Hin as ->. exact Hng.
Qed.

Lemma first_greatest_snoc_new rs r :
  (forall r', r' ∈ rs -> addon_id r' = addon_id r ->
              version_gt (addon_ver r) (addon_ver r') = Ok true) ->
  first_greatest (rs ++ [r]) r.
Proof.
  intros Hall. exists rs, []. split; [reflexivity|].
  split; [exact Hall|]. intros r' Hin. inversion Hin.
Qed.

Lemma table_of_select rs latest r latest' :
  table_of rs latest -> select latest r = Ok latest' ->
  table_of (rs ++ [r]) latest'.
Proof.
  intros [Hsome Hnone] Hsel.
  destruct (latest !! addon_id r) as [best|] eqn:Hbest.
  - destruct (Hsome _ _ Hbest) as [Hid Hfg].
    destruct (version_gt (addon_ver r) (addon_ver best)) as [[]|e] eqn:Hg.
    3:{ unfold select in Hsel. rewrite Hbest, Hg in Hsel. discriminate. }
    + rewrite select_newer in Hsel
        by (right; exists best; split; [exact Hbest|exact Hg]).
      injection Hsel as <-. split.
      * intros k r1. rewrite lookup_insert. case_decide as Hk.
        -- intros [= <-]. split; [exact Hk|].
           apply first_greatest_snoc_new. intros r' Hin Hid'.
           destruct Hfg as (pre & post & -> & Hpre & Hpost).
           apply elem_of_app in Hin as [Hin|Hin].
           ++ apply (version_gt_trans _ (addon_ver best)); [exact Hg|].
              apply Hpre; [exact Hin|congruence].
           ++ apply elem_of_cons in Hin as [->|Hin]; [exact Hg|].
              apply (version_gt_not_gt _ (addon_ver best)); [exact Hg|].
              apply Hpost; [exact Hin|congruence].
        -- intros Hr1. destruct (Hsome _ _ Hr1) as [Hid1 Hfg1].
           split; [exact Hid1|].
           apply first_greatest_snoc_other; [exact Hfg1|congruence].
      * intros k. rewrite lookup_insert. case_decide as Hk; [discriminate|].
        intros Hk' r' [Hin|Hin]%elem_of_app; [apply (Hnone k Hk' r' Hin)|].
        apply list_elem_of_singleton in Hin as ->. exact Hk.
    + unfold select in Hsel. rewrite Hbest, Hg in Hsel. simpl in Hsel.
      injection Hsel as <-. split.
      * intros k r1 Hr1. destruct (Hsome _ _ Hr1) as [Hid1 Hfg1].
        split; [exact Hid1|].
        destruct (decide (addon_id r = k)) as [Hk|Hk].
        -- rewrite <- Hk, Hbest in Hr1. injection Hr1 as <-.
           apply first_greatest_snoc_kept; assumption.
        -- apply first_greatest_snoc_other; [exact Hfg1|congruence].
      * intros k Hk r' [Hin|Hin]%elem_of_app; [apply (Hnone k Hk r' Hin)|].
        apply list_elem_of_singleton in Hin as ->. congruence.
  - rewrite select_newer in Hsel by (left; exact Hbest).
    injection Hsel as <-. split.
    + intros k r1. rewrite lookup_insert. case_decide as Hk.
      * intros [= <-]. split; [exact Hk|].
        apply first_greatest_snoc_new. intros r' Hin Hid'.
        exfalso. apply (Hnone _ Hbest r' Hin Hid').
      * intros Hr1. destruct (Hsome _ _ Hr1) as [Hid1 Hfg1].
        split; [exact Hid1|].
        apply first_greatest_snoc_other; [exact Hfg1|congruence].
    + intros k. rewrite lookup_insert. case_decide as Hk; [discriminate|].
      intros Hk' r' [Hin|Hin]%elem_of_app; [apply (Hnone k Hk' r' Hin)|].
      apply list_elem_of_singleton in Hin as ->. exact Hk.
Qed.

Lemma table_of_select_seq rs : forall latest,
  select_seq rs ∅ = Ok latest -> table_of rs latest.
Proof.
  induction rs as [|r rs IH] using rev_ind; intros latest Hsel.
  - injection Hsel as <-. split.
    + intros k r. rewrite lookup_empty. discriminate.
    + intros k _ r Hin. inversion Hin.
  - rewrite select_seq_app in Hsel.
    destruct (select_seq rs ∅) as [l|e] eqn:Hl; [|discriminate].
    simpl in Hsel. destruct (select l r) as [l'|e] eqn:Hr; [|discriminate].
    simpl in Hsel. injection Hsel as <-.
    apply (table_of_select rs l r l'); [apply IH; reflexivity|exact Hr].
Qed.

(** Two first tuples of the greatest version of one identifier are the
    same tuple. *)
Lemma first_greatest_unique rs r1 r2 :
  first_greatest rs r1 -> first_greatest rs r2 ->
  addon_id r1 = addon_id r2 -> r1 = r2.
Proof.
  intros (pre1 & post1 & -> & Hpre1 & Hpost1)
         (pre2 & post2 & Heq & Hpre2 & Hpost2) Hid.
  apply app_eq_inv in Heq as [(l & Hl & Hr)|(l & Hl & Hr)].
  - destruct l as [|x l]; simpl in Hr.
    + injection Hr as -> _. reflexivity.
    + injection Hr as <- ->. exfalso.
      assert (H1 : version_gt (addon_ver r1) (addon_ver r2) = Ok true).
      { apply Hpre1; [|congruence]. rewrite Hl. apply elem_of_middle. }
      assert (H2 : version_gt (addon_ver r1) (addon_ver r2) = Ok false).
      { apply Hpost2; [|congruence]. apply elem_of_middle. }
      congruence.
  - destruct l as [|x l]; simpl in Hr.
    + injection Hr as -> _. reflexivity.
    + injection Hr as <- ->. exfalso.
      assert (H1 : version_gt (addon_ver r2) (addon_ver r1) = Ok true).
      { apply Hpre2; [|congruence]. rewrite Hl. apply elem_of_middle. }
      assert (H2 : version_gt (addon_ver r2) (addon_ver r1) = Ok false).
      { apply Hpost1; [|congruence]. apply elem_of_middle. }
      congruence.
Qed.

Lemma table_lookup rs latest k r :
  select_seq rs ∅ = Ok latest ->
  latest !! k = Some r <-> addon_id r = k /\ first_greatest rs r.
Proof.
  intros Hsel. destruct (table_of_select_seq rs latest Hsel) as [Hsome Hnone].
  split; [apply Hsome|]. intros [Hid Hfg].
  destruct (latest !! k) as [r0|] eqn:Hk.
  - destruct (Hsome _ _ Hk) as [Hid0 Hfg0]. f_equal.
    apply (first_greatest_unique rs); [assumption|assumption|congruence].
  - exfalso. destruct Hfg as (pre & post & Hrs & Hpre & Hpost).
    apply (Hnone k Hk r); [|exact Hid].
    rewrite Hrs. apply elem_of_middle.
Qed.

Lemma table_empty rs latest :
  select_seq rs ∅ = Ok latest -> size latest = 0%nat <-> rs = [].
Proof.
  intros Hsel. rewrite map_size_empty_iff. split.
  - intros ->. destruct rs as [|r rs]; [reflexivity|exfalso].
    destruct (table_of_select_seq _ _ Hsel) as [_ Hnone].
    apply (Hnone (addon_id r) (lookup_empty _) r); [set_solver|reflexivity].
  - intros ->. injection Hsel as <-. reflexivity.
Qed.

(** The loop of [main] over a generator that yields the tuples [rs]. *)
Lemma main_loop_yields rs : forall latest w,
  main_loop (List.map (fun r => mret (Some r)) rs) latest w =
    (w, match select_seq rs latest with
        | Ok latest' => Done latest'
        | Raise e => Failed e
        end).
Proof.
  induction rs as [|r rs IH]; intros latest w; [reflexivity|].
  simpl. unfold mbind at 1, M_bind at 1, mret at 1, M_ret at 1.
  unfold mbind at 1, M_bind at 1, lift.
  destruct (select latest r) as [l|e]; [|reflexivity].
  simpl. apply IH.
Qed.

(** C2. The loop of [main] keeps a tuple as the latest for its identifier
    exactly when the table has none for this identifier or the version of
    the tuple is strictly greater than the version kept; on a tie the
    tuple met first stays. The one other way out of [select] is the
    [ValueError] of a comparison with a run of more than 4300 digits,
    which ends the loop. After any sequence of tuples on which the loop
    returns the table holds, for each identifier met, the first tuple of
    the greatest version; the loop returns when no version has such a run.
    Of the versions 1.2.0 and 1.3.0 of one identifier, met in either
    order, 1.3.0 alone stays. *)
Theorem selection_keeps_latest :
  (forall latest r,
     is_newer latest r -> select latest r = Ok (<[addon_id r := r]> latest)) /\
  (forall latest r latest',
     select latest r = Ok latest' ->
     (is_newer latest r /\ latest' = <[addon_id r := r]> latest) \/
     (~ is_newer latest r /\ latest' = latest)) /\
  (forall latest r e,
     select latest r = Raise e <->
     exists best, latest !! addon_id r = Some best /\
                  version_gt (addon_ver r) (addon_ver best) = Raise e) /\
  (forall latest r,
     ~ is_newer latest r ->
     within_cap (addon_ver r) = true -> table_within_cap latest ->
     select latest r = Ok latest) /\
  (forall latest r best t,
     latest !! addon_id r = Some best ->
     normalize_version (addon_ver r) = Ok t ->
     normalize_version (addon_ver best) = Ok t ->
     select latest r = Ok latest) /\
  (forall rs w,
     main_loop (List.map (fun r => mret (Some r)) rs) ∅ w =
       (w, match select_seq rs ∅ with
           | Ok latest => Done latest
           | Raise e => Failed e
           end)) /\
  (forall rs latest,
     select_seq rs ∅ = Ok latest ->
     forall k r, latest !! k = Some r <->
                 addon_id r = k /\ first_greatest rs r) /\
  (forall rs,
     Forall (fun r => within_cap (addon_ver r) = true) rs ->
     exists latest, select_seq rs ∅ = Ok latest) /\
  (forall e1 e2 p1 p2,
     let old := mkAddon "plugin.x" "1.2.0" e1 p1 in
     let new := mkAddon "plugin.x" "1.3.0" e2 p2 in
     select_seq [old; new] ∅ = Ok {[ "plugin.x" := new ]} /\
     select_seq [new; old] ∅ = Ok {[ "plugin.x" := new ]}).
Proof.
  split; [exact select_newer|].
  split; [exact select_ok|].
  split; [exact select_raises|].
  split; [exact select_not_newer_within|].
  split; [exact select_tie|].
  split; [intros rs w; apply main_loop_yields|].
  split; [intros rs latest Hsel k r; apply table_lookup; exact Hsel|].
  split.
  - intros rs Hrs. apply select_seq_total; [exact Hrs|].
    apply table_within_cap_empty.
  - intros e1 e2 p1 p2 old new. split; vm_compute; reflexivity.
Qed.

(** ** The sorted keys and the selected tuples *)

Lemma str_le_lt s t : String.le s t -> s <> t -> str_lt s t.
Proof.
  unfold String.le, String.leb, str_lt. intros Hle Hne.
  destruct (String.compare s t) eqn:Hc; [|reflexivity|contradiction].
  apply str_compare_eq in Hc. contradiction.
Qed.

Lemma sorted_keys_elem latest k :
  k ∈ sorted_keys latest <-> is_Some (latest !! k).
Proof.
  unfold sorted_keys. rewrite merge_sort_Permutation, elem_of_elements.
  apply elem_of_dom.
Qed.

Lemma sorted_keys_NoDup latest : NoDup (sorted_keys latest).
Proof.
  unfold sorted_keys. rewrite merge_sort_Permutation. apply NoDup_elements.
Qed.

Lemma sorted_keys_ascending latest : StronglySorted str_lt (sorted_keys latest).
Proof.
  pose proof (sorted_keys_NoDup latest) as Hnd.
  assert (Hs : StronglySorted String.le (sorted_keys latest))
    by apply (StronglySorted_merge_sort String.le).
  induction Hs as [|k ks Hs IH Hall]; [constructor|].
  apply NoDup_cons in Hnd as [Hk Hnd].
  constructor; [apply IH; exact Hnd|].
  apply Forall_forall. intros k' Hin.
  apply str_le_lt; [exact (proj1 (Forall_forall _ _) Hall k' Hin)|].
  intros ->. contradiction.
Qed.

Lemma getitems_ok latest keys :
  (forall k, k ∈ keys -> is_Some (latest !! k)) ->
  exists selected,
    getitems latest keys = Ok selected /\
    Forall2 (fun k r => latest !! k = Some r) keys selected.
Proof.
  induction keys as [|k keys IH]; intros Hall.
  - exists []. split; [reflexivity|constructor].
  - destruct (Hall k) as [r Hr]; [set_solver|].
    destruct IH as (sel & Hsel & Hf); [intros; apply Hall; set_solver|].
    exists (r :: sel). split.
    + simpl. unfold getitem. rewrite Hr. simpl. rewrite Hsel. reflexivity.
    + constructor; assumption.
Qed.

Lemma selected_exists latest :
  exists selected,
    getitems latest (sorted_keys latest) = Ok selected /\
    Forall2 (fun k r => latest !! k = Some r) (sorted_keys latest) selected.
Proof.
  apply getitems_ok. intros k Hk. apply sorted_keys_elem. exact Hk.
Qed.

(** ** The document and the two files *)

Lemma addons_root_children entries :
  addons_root entries =
    mkElement "addons" ∅ None None (List.map addon_elem entries).
Proof.
  unfold addons_root, ET_Element.
  change (List.map addon_elem entries) with ([] ++ List.map addon_elem entries).
  generalize (@nil Element) as cs.
  induction entries as [|e entries IH]; intros cs; simpl.
  - rewrite app_nil_r. reflexivity.
  - unfold ET_append at 2. simpl. rewrite IH, <- app_assoc. reflexivity.
Qed.

Lemma hex_digit_ascii n : (n < 16)%N -> (code (hex_digit n) <? 128)%N = true.
Proof.
  intros Hn. unfold hex_digit, code.
  destruct (n <? 10)%N eqn:H10.
  - apply N.ltb_lt in H10. rewrite N_ascii_embedding by lia.
    apply N.ltb_lt. lia.
  - apply N.ltb_ge in H10. rewrite N_ascii_embedding by lia.
    apply N.ltb_lt. lia.
Qed.

Lemma byte_to_N_bound b : (Byte.to_N b < 256)%N.
Proof. destruct b; vm_compute; reflexivity. Qed.

(** A hexadecimal text is plain ASCII: its UTF-8 encoding has one byte for
    each character and nothing more. *)
Lemma encode_utf8_hex digest :
  encode_utf8 (hex digest) = list_byte_of_string (hex digest) /\
  List.length (encode_utf8 (hex digest)) = (2 * List.length digest)%nat.
Proof.
  induction digest as [|b digest [IH1 IH2]]; [split; reflexivity|].
  pose proof (byte_to_N_bound b) as Hb.
  assert (H1 : (code (hex_digit (Byte.to_N b / 16)) <? 128)%N = true).
  { apply hex_digit_ascii. apply N.Div0.div_lt_upper_bound. lia. }
  assert (H2 : (code (hex_digit (Byte.to_N b mod 16)) <? 128)%N = true).
  { apply hex_digit_ascii. apply N.mod_lt. lia. }
  cbn [hex encode_utf8]. unfold utf8_char. rewrite H1, H2. split.
  - cbn [app]. rewrite IH1. reflexivity.
  - cbn [app List.length]. rewrite IH2. lia.
Qed.

Section Pipeline.

Variable fromstring : bytes -> result Element.
Variable tostring : Element -> bytes.
Variable md5_digest : bytes -> bytes.

Ltac run_M :=
  unfold mbind, M_bind, mret, M_ret, lift, print, print_err, sys_exit,
    open_wb, file_write, read_rb, write_text, mkdir_parents; simpl.

(** The loop of [main] over the generator: the warnings go to standard
    error and the yielded tuples through [select]; nothing is raised. *)
Lemma main_loop_scanned zips rs lines :
  scanned fromstring zips rs lines ->
  forall latest latest' w,
    select_seq rs latest = Ok latest' ->
    main_loop (find_addons fromstring zips) latest w = (warn lines w, Done latest').
Proof.
  induction 1 as [|a r zips rs lines Hr _ IH|a line zips rs lines Hl _ IH];
    intros latest latest' w Hsel.
  - injection Hsel as <-. rewrite warn_nil. reflexivity.
  - simpl in Hsel. destruct (select latest r) as [l|e] eqn:Hs; [|discriminate].
    simpl in Hsel. simpl. unfold mbind at 1, M_bind at 1.
    rewrite (find_addons_next_yields fromstring a r w Hr).
    unfold mbind, M_bind, lift. rewrite Hs. apply IH. exact Hsel.
  - simpl. unfold mbind at 1, M_bind at 1.
    rewrite (find_addons_next_fails fromstring a line w Hl).
    rewrite (IH latest latest' (warn [line] w) Hsel), warn_app. reflexivity.
Qed.

(** When a comparison raises, the loop stops there: the warnings of the
    archives before it are on standard error, those of the archives
    after it are not. *)
Lemma main_loop_scanned_raise zips rs lines :
  scanned fromstring zips rs lines ->
  forall latest e,
    select_seq rs latest = Raise e ->
    exists lines1 lines2,
      lines = lines1 ++ lines2 /\
      (forall w,
         main_loop (find_addons fromstring zips) latest w =
           (warn lines1 w, Failed e)).
Proof.
  induction 1 as [|a r zips rs lines Hr _ IH|a line zips rs lines Hl _ IH];
    intros latest e Hsel.
  - discriminate.
  - simpl in Hsel. destruct (select latest r) as [l|e0] eqn:Hs.
    + simpl in Hsel. destruct (IH l e Hsel) as (l1 & l2 & Hl & Hrun).
      exists l1, l2. split; [exact Hl|]. intros w.
      simpl. unfold mbind at 1, M_bind at 1.
      rewrite (find_addons_next_yields fromstring a r w Hr).
      unfold mbind, M_bind, lift. rewrite Hs. apply Hrun.
    + injection Hsel as ->. exists [], lines. split; [reflexivity|].
      intros w. rewrite warn_nil.
      simpl. unfold mbind at 1, M_bind at 1.
      rewrite (find_addons_next_yields fromstring a r w Hr).
      unfold mbind, M_bind, lift. rewrite Hs. reflexivity.
  - destruct (IH latest e Hsel) as (l1 & l2 & -> & Hrun).
    exists (line :: l1), l2. split; [reflexivity|]. intros w.
    simpl. unfold mbind at 1, M_bind at 1.
    rewrite (find_addons_next_fails fromstring a line w Hl).
    rewrite Hrun, warn_app. reflexivity.
Qed.

Lemma main_loop_app gen1 : forall gen2 latest w,
  main_loop (gen1 ++ gen2) latest w =
    (l ← main_loop gen1 latest; main_loop gen2 l) w.
Proof.
  induction gen1 as [|next gen1 IH]; intros gen2 latest w; [reflexivity|].
  simpl. unfold mbind, M_bind.
  destruct (next w) as [w1 [[r|]|e|c]]; try reflexivity.
  - unfold lift. destruct (select latest r) as [l|e]; [|reflexivity].
    apply IH.
  - apply IH.
Qed.

Lemma print_included_run selected w :
  print_included selected w =
    (mkWorld (files w) (dirs w) (stdout w ++ List.map included_line selected)
             (stderr w), Done tt).
Proof.
  revert w. induction selected as [|r selected IH]; intros w.
  - simpl. unfold mret, M_ret. rewrite app_nil_r. destruct w; reflexivity.
  - simpl. run_M. rewrite IH. simpl. rewrite <- app_assoc. reflexivity.
Qed.

(** [build_addons_xml] leaves the header followed by the serialized root
    in addons.xml and the hexadecimal digest of these bytes in
    addons.xml.md5. *)
Lemma build_addons_xml_run entries out_dir w :
  let content := xml_header ++ tostring (addons_root entries) in
  build_addons_xml tostring md5_digest entries out_dir w =
    (mkWorld
       (<[path_join out_dir "addons.xml.md5" := encode_utf8 (hex (md5_digest content))]>
          (<[path_join out_dir "addons.xml" := content]> (files w)))
       (dirs w) (stdout w) (stderr w),
     Done (path_join out_dir "addons.xml", path_join out_dir "addons.xml.md5")).
Proof.
  unfold build_addons_xml. run_M.
  rewrite !lookup_insert_eq. simpl.
  rewrite !insert_insert_eq. reflexivity.
Qed.

(** Where the output directory cannot be made, [main] stops at once. *)
Lemma main_blocked zips_dir out_dir zips w :
  blocked w out_dir = true ->
  main fromstring tostring md5_digest zips_dir out_dir zips w =
    (w, Failed (mkdir_error w out_dir)).
Proof.
  intros Hb. unfold main. unfold mbind at 1, M_bind at 1, mkdir_parents at 1.
  rewrite Hb. reflexivity.
Qed.

(** Where a comparison raises, [main] stops in its loop: no file is
    touched and nothing goes to standard output. *)
Lemma main_raise zips_dir out_dir zips rs lines e w :
  blocked w out_dir = false ->
  scanned fromstring zips rs lines ->
  select_seq rs ∅ = Raise e ->
  exists lines1 lines2,
    lines = lines1 ++ lines2 /\
    main fromstring tostring md5_digest zips_dir out_dir zips w =
      (aborted out_dir lines1 w, Failed e).
Proof.
  intros Hb Hscan Hsel.
  destruct (main_loop_scanned_raise zips rs lines Hscan ∅ e Hsel)
    as (lines1 & lines2 & Hl & Hloop).
  exists lines1, lines2. split; [exact Hl|].
  unfold main. unfold mbind at 1, M_bind at 1, mkdir_parents at 1.
  rewrite Hb. unfold mbind at 1, M_bind at 1. rewrite Hloop. reflexivity.
Qed.

(** The whole run, once the output directory is made and when no
    comparison raises. The scan yields [rs] and prints [lines]; with no
    tuple the process exits with status 1 and touches no file, otherwise
    it writes the two files from the selected tuples and returns. *)
Lemma main_run zips_dir out_dir zips rs lines latest w :
  blocked w out_dir = false ->
  scanned fromstring zips rs lines ->
  select_seq rs ∅ = Ok latest ->
  match rs with
  | [] =>
      main fromstring tostring md5_digest zips_dir out_dir zips w =
        (nothing_found zips_dir out_dir lines w, Exited 1)
  | _ :: _ =>
      exists selected,
        getitems latest (sorted_keys latest) = Ok selected /\
        Forall2 (fun k r => latest !! k = Some r) (sorted_keys latest) selected /\
        let content := xml_header ++ tostring (addons_root selected) in
        main fromstring tostring md5_digest zips_dir out_dir zips w =
          (written out_dir content (encode_utf8 (hex (md5_digest content)))
                   lines selected w, Done tt)
  end.
Proof.
  intros Hb Hscan Hsel. pose proof (table_empty rs latest Hsel) as Hsize.
  destruct rs as [|r rs].
  - unfold main. unfold mbind at 1, M_bind at 1, mkdir_parents at 1.
    rewrite Hb. unfold mbind at 1, M_bind at 1.
    match goal with
    | |- context [main_loop _ _ ?w0] =>
        pose proof (main_loop_scanned zips [] lines Hscan _ latest w0 Hsel)
          as Hloop
    end.
    rewrite Hloop.
    rewrite (proj2 (Nat.eqb_eq _ _) (proj2 Hsize eq_refl)).
    run_M. unfold nothing_found, warn. simpl.
    rewrite <- app_assoc. reflexivity.
  - destruct (selected_exists latest) as (selected & Hget & Hall).
    exists selected. split; [exact Hget|]. split; [exact Hall|].
    unfold main. unfold mbind at 1, M_bind at 1, mkdir_parents at 1.
    rewrite Hb. unfold mbind at 1, M_bind at 1.
    match goal with
    | |- context [main_loop _ _ ?w0] =>
        pose proof (main_loop_scanned zips (r :: rs) lines Hscan _ latest w0 Hsel)
          as Hloop
    end.
    rewrite Hloop.
    destruct (size latest =? 0)%nat eqn:Hz.
    { apply Nat.eqb_eq, Hsize in Hz. discriminate. }
    unfold mbind at 1, M_bind at 1, lift at 1. rewrite Hget.
    unfold mbind at 1, M_bind at 1. rewrite build_addons_xml_run.
    run_M. rewrite print_included_run. unfold written, summary. simpl.
    rewrite <- !app_assoc. reflexivity.
Qed.

Lemma scanned_all_fail zips lines :
  scanned fromstring zips [] lines <->
  Forall2 (archive_fails fromstring) zips lines.
Proof.
  split.
  - remember [] as rs eqn:Hrs. induction 1; try discriminate;
      constructor; auto.
  - induction 1; constructor; auto.
Qed.

Lemma archive_yields_unique a r r' :
  archive_yields fromstring a r -> archive_yields fromstring a r' -> r = r'.
Proof.
  intros H1 H2.
  pose proof (find_addons_next_yields fromstring a r sample_world H1) as E1.
  pose proof (find_addons_next_yields fromstring a r' sample_world H2) as E2.
  congruence.
Qed.

(** The tuples of a scan are those that the archives yield. *)
Lemma scanned_elem zips rs lines r :
  scanned fromstring zips rs lines ->
  r ∈ rs <-> exists a, a ∈ zips /\ archive_yields fromstring a r.
Proof.
  induction 1 as [|a r0 zips rs lines Hr _ IH|a line zips rs lines Hl _ IH].
  - split; [intros H; inversion H|intros (a & H & _); inversion H].
  - rewrite elem_of_cons, IH. split.
    + intros [->|(a' & Ha' & Hy)].
      * exists a. split; [apply elem_of_cons; left; reflexivity|exact Hr].
      * exists a'. split; [apply elem_of_cons; right; exact Ha'|exact Hy].
    + intros (a' & [->|Ha']%elem_of_cons & Hy).
      * left. apply (archive_yields_unique a); assumption.
      * right. exists a'. auto.
  - rewrite IH. split.
    + intros (a' & Ha' & Hy). exists a'.
      split; [apply elem_of_cons; right; exact Ha'|exact Hy].
    + intros (a' & [->|Ha']%elem_of_cons & Hy).
      * exfalso. apply (archive_not_both fromstring a r line); assumption.
      * exists a'. auto.
Qed.

Lemma archive_yields_attrib a r :
  archive_yields fromstring a r ->
  attrib (addon_elem r) !! "id" = Some (addon_id r) /\
  attrib (addon_elem r) !! "version" = Some (addon_ver r) /\
  addon_zip r = zip_path a.
Proof. intros []. simpl. auto. Qed.

(** Every run ends in one of four ways: the output directory cannot be
    made; a comparison raises in the loop; no archive yields; the files
    are written. *)
Lemma main_outcome zips_dir out_dir zips w :
  (blocked w out_dir = true /\
   main fromstring tostring md5_digest zips_dir out_dir zips w =
     (w, Failed (mkdir_error w out_dir))) \/
  (blocked w out_dir = false /\
   exists rs lines lines1 lines2 e,
     scanned fromstring zips rs lines /\ select_seq rs ∅ = Raise e /\
     lines = lines1 ++ lines2 /\
     main fromstring tostring md5_digest zips_dir out_dir zips w =
       (aborted out_dir lines1 w, Failed e)) \/
  (blocked w out_dir = false /\
   exists lines,
     Forall2 (archive_fails fromstring) zips lines /\
     main fromstring tostring md5_digest zips_dir out_dir zips w =
       (nothing_found zips_dir out_dir lines w, Exited 1)) \/
  (blocked w out_dir = false /\
   exists lines selected,
     selection_of fromstring zips lines selected /\
     let content := xml_header ++ tostring (addons_root selected) in
     main fromstring tostring md5_digest zips_dir out_dir zips w =
       (written out_dir content (encode_utf8 (hex (md5_digest content)))
                lines selected w, Done tt)).
Proof.
  destruct (blocked w out_dir) eqn:Hb;
    [left; split; [reflexivity|apply main_blocked; exact Hb]|right].
  destruct (scanned_total fromstring zips) as (rs & lines & Hscan).
  destruct (select_seq rs ∅) as [latest|e] eqn:Hsel.
  - right.
    pose proof (main_run zips_dir out_dir zips rs lines latest w Hb Hscan Hsel)
      as H.
    destruct rs as [|r rs].
    + left. split; [reflexivity|]. exists lines.
      split; [apply scanned_all_fail; exact Hscan|exact H].
    + right. split; [reflexivity|].
      destruct H as (selected & Hget & Hall & Hmain).
      exists lines, selected. split; [|exact Hmain].
      exists (r :: rs), latest. repeat split; try assumption. discriminate.
  - left. split; [reflexivity|].
    destruct (main_raise zips_dir out_dir zips rs lines e w Hb Hscan Hsel)
      as (lines1 & lines2 & Hl & Hmain).
    exists rs, lines, lines1, lines2, e. repeat split; assumption.
Qed.

Lemma main_done zips_dir out_dir zips w w' :
  main fromstring tostring md5_digest zips_dir out_dir zips w = (w', Done tt) ->
  exists lines selected,
    selection_of fromstring zips lines selected /\
    w' = written out_dir (xml_header ++ tostring (addons_root selected))
           (encode_utf8
              (hex (md5_digest (xml_header ++ tostring (addons_root selected)))))
           lines selected w.
Proof.
  intros Hmain.
  destruct (main_outcome zips_dir out_dir zips w)
    as [(_ & H)|[(_ & rs & lines & l1 & l2 & e & _ & _ & _ & H)
       |[(_ & lines & _ & H)|(_ & lines & selected & Hsel & H)]]].
  - rewrite H in Hmain. discriminate.
  - rewrite H in Hmain. discriminate.
  - rewrite H in Hmain. discriminate.
  - simpl in H. rewrite H in Hmain. injection Hmain as <-.
    exists lines, selected. split; [exact Hsel|reflexivity].
Qed.

Lemma path_join_inj p n m : path_join p n = path_join p m -> n = m.
Proof.
  unfold path_join. intros H. apply app_inv_head in H. congruence.
Qed.

Lemma written_xml out_dir content sum lines selected w :
  files (written out_dir content sum lines selected w)
    !! path_join out_dir "addons.xml" = Some content.
Proof.
  unfold written. simpl. rewrite lookup_insert_ne, lookup_insert_eq;
    [reflexivity|].
  intros H%path_join_inj. discriminate.
Qed.

Lemma written_md5 out_dir content sum lines selected w :
  files (written out_dir content sum lines selected w)
    !! path_join out_dir "addons.xml.md5" = Some sum.
Proof. unfold written. simpl. apply lookup_insert_eq. Qed.

(** The selected tuples carry the identifiers met, once each and in
    ascending order. *)
Lemma selection_sorted zips lines selected :
  selection_of fromstring zips lines selected ->
  StronglySorted str_lt (List.map addon_id selected) /\
  (forall k, k ∈ List.map addon_id selected <->
             exists a r, a ∈ zips /\ archive_yields fromstring a r /\
                         addon_id r = k) /\
  Forall (fun r => attrib (addon_elem r) !! "id" = Some (addon_id r)) selected.
Proof.
  intros (rs & latest & Hscan & Hne & Hsel & Hget & Hall).
  destruct (table_of_select_seq rs latest Hsel) as [Hsome Hnone].
  assert (Hkeys : List.map addon_id selected = sorted_keys latest).
  { clear Hget. induction Hall as [|k r ks sel Hk _ IH]; [reflexivity|].
    simpl. rewrite IH. f_equal. apply (Hsome _ _ Hk). }
  assert (Hin : forall r, r ∈ selected -> r ∈ rs).
  { intros r Hr. clear Hget Hkeys.
    induction Hall as [|k r0 ks sel Hk _ IH]; [inversion Hr|].
    apply elem_of_cons in Hr as [->|Hr]; [|apply IH; exact Hr].
    destruct (Hsome _ _ Hk) as [_ (pre & post & Hrs & _)].
    rewrite Hrs. apply elem_of_middle. }
  split; [rewrite Hkeys; apply sorted_keys_ascending|]. split.
  - intros k. rewrite Hkeys, sorted_keys_elem. split.
    + intros [r Hr]. destruct (Hsome _ _ Hr) as [Hid (pre & post & Hrs & _)].
      assert (Hr' : r ∈ rs) by (rewrite Hrs; apply elem_of_middle).
      apply (scanned_elem zips rs lines r Hscan) in Hr' as (a & Ha & Hy).
      exists a, r. auto.
    + intros (a & r & Ha & Hy & Hid).
      assert (Hr : r ∈ rs)
        by (apply (scanned_elem zips rs lines r Hscan); exists a; auto).
      destruct (latest !! k) as [r0|] eqn:Hk; [eauto|].
      exfalso. apply (Hnone k Hk r Hr Hid).
  - apply Forall_forall. intros r Hr. apply Hin in Hr.
    apply (scanned_elem zips rs lines r Hscan) in Hr as (a & _ & Hy).
    apply (archive_yields_attrib a r Hy).
Qed.

(** C3. The file addons.xml is made of the declaration, a
    line feed, and right after it the serialization of the root element
    [addons] whose children are the selected descriptors; nothing else. *)
Theorem addons_xml_header_then_root :
  list_byte_of_string xml_declaration =
    [
     Byte.x3c; Byte.x3f; Byte.x78; Byte.x6d; Byte.x6c; Byte.x20;
     Byte.x76; Byte.x65; Byte.x72; Byte.x73; Byte.x69; Byte.x6f;
     Byte.x6e; Byte.x3d; Byte.x22; Byte.x31; Byte.x2e; Byte.x30;
     Byte.x22; Byte.x20; Byte.x65; Byte.x6e; Byte.x63; Byte.x6f;
     Byte.x64; Byte.x69; Byte.x6e; Byte.x67; Byte.x3d; Byte.x22;
     Byte.x55; Byte.x54; Byte.x46; Byte.x2d; Byte.x38; Byte.x22;
     Byte.x20; Byte.x73; Byte.x74; Byte.x61; Byte.x6e; Byte.x64;
     Byte.x61; Byte.x6c; Byte.x6f; Byte.x6e; Byte.x65; Byte.x3d;
     Byte.x22; Byte.x79; Byte.x65; Byte.x73; Byte.x22; Byte.x3f;
     Byte.x3e] /\
  xml_header = list_byte_of_string xml_declaration ++ [Byte.x0a] /\
  (forall entries out_dir w,
     files (fst (build_addons_xml tostring md5_digest entries out_dir w))
       !! path_join out_dir "addons.xml" =
     Some (list_byte_of_string xml_declaration ++ [Byte.x0a] ++
           tostring (mkElement "addons" ∅ None None
                               (List.map addon_elem entries)))) /\
  (forall zips_dir out_dir zips w w',
     main fromstring tostring md5_digest zips_dir out_dir zips w =
       (w', Done tt) ->
     exists lines selected,
       selection_of fromstring zips lines selected /\ selected <> [] /\
       files w' !! path_join out_dir "addons.xml" =
       Some (list_byte_of_string xml_declaration ++ [Byte.x0a] ++
             tostring (mkElement "addons" ∅ None None
                                 (List.map addon_elem selected)))).
Proof.
  assert (Hh : xml_header = list_byte_of_string xml_declaration ++ [Byte.x0a])
    by (vm_compute; reflexivity).
  split; [vm_compute; reflexivity|]. split; [exact Hh|]. split.
  - intros entries out_dir w. rewrite build_addons_xml_run.
    cbv zeta. cbn [fst files].
    rewrite lookup_insert_ne by (intros H%path_join_inj; discriminate).
    rewrite lookup_insert_eq, addons_root_children, Hh, <- app_assoc.
    reflexivity.
  - intros zips_dir out_dir zips w w' Hmain.
    apply main_done in Hmain as (lines & selected & Hsel & ->).
    exists lines, selected. split; [exact Hsel|]. split.
    + destruct Hsel as (rs & latest & _ & Hne & Hs & _ & Hall).
      intros ->. inversion Hall as [Hk|]. apply Hne.
      apply (table_empty rs latest Hs).
      assert (Hd : dom latest = ∅).
      { apply set_eq. intros k. rewrite <- elem_of_elements.
        unfold sorted_keys in Hk.
        rewrite <- (merge_sort_Permutation String.le (elements (dom latest))).
        rewrite <- Hk. set_solver. }
      apply dom_empty_inv_L in Hd. rewrite Hd. reflexivity.
    + rewrite written_xml, addons_root_children, Hh, <- app_assoc.
      reflexivity.
Qed.


(** C4. The aggregated document has one descriptor for each selected
    identifier and no other, in ascending order of the identifiers: the
    children of the root are the elements kept in the table, taken at its
    sorted keys; in a run these keys are the identifiers that the
    archives yield. With archives for b.addon and a.addon, a.addon comes
    first. *)
Theorem document_fragments_sorted :
  (forall latest, exists selected,
     getitems latest (sorted_keys latest) = Ok selected /\
     Forall2 (fun k r => latest !! k = Some r) (sorted_keys latest) selected /\
     StronglySorted str_lt (sorted_keys latest) /\
     (forall k, k ∈ sorted_keys latest <-> is_Some (latest !! k)) /\
     List.length selected = size latest /\
     children (addons_root selected) = List.map addon_elem selected) /\
  (forall zips lines selected,
     selection_of fromstring zips lines selected ->
     StronglySorted str_lt (List.map addon_id selected) /\
     (forall k, k ∈ List.map addon_id selected <->
                exists a r, a ∈ zips /\ archive_yields fromstring a r /\
                            addon_id r = k) /\
     Forall (fun r => attrib (addon_elem r) !! "id" = Some (addon_id r))
            selected) /\
  (forall zips_dir out_dir zips w w',
     main fromstring tostring md5_digest zips_dir out_dir zips w =
       (w', Done tt) ->
     exists lines selected,
       selection_of fromstring zips lines selected /\
       files w' !! path_join out_dir "addons.xml" =
         Some (xml_header ++ tostring (addons_root selected)) /\
       children (addons_root selected) = List.map addon_elem selected) /\
  (forall ea eb va vb pa pb,
     let a := mkAddon "a.addon" va ea pa in
     let b := mkAddon "b.addon" vb eb pb in
     exists latest,
       select_seq [b; a] ∅ = Ok latest /\
       getitems latest (sorted_keys latest) = Ok [a; b] /\
       children (addons_root [a; b]) = [ea; eb]).
Proof.
  split; [|split; [|split]].
  - intros latest. destruct (selected_exists latest) as (selected & Hget & Hall).
    exists selected. split; [exact Hget|]. split; [exact Hall|].
    split; [apply sorted_keys_ascending|].
    split; [apply sorted_keys_elem|]. split.
    + rewrite <- (Forall2_length _ _ _ Hall). unfold sorted_keys.
      rewrite merge_sort_Permutation, <- size_dom. reflexivity.
    + rewrite addons_root_children. reflexivity.
  - exact selection_sorted.
  - intros zips_dir out_dir zips w w' Hmain.
    apply main_done in Hmain as (lines & selected & Hsel & ->).
    exists lines, selected. split; [exact Hsel|].
    split; [apply written_xml|].
    rewrite addons_root_children. reflexivity.
  - intros ea eb va vb pa pb a b.
    exists (<["a.addon" := a]> {[ "b.addon" := b ]}).
    split; [|split]; vm_compute; reflexivity.
Qed.

Lemma hex_digit_is_hex n : (n < 16)%N -> is_hex_char (hex_digit n) = true.
Proof.
  intros Hn. unfold hex_digit, is_hex_char, in_range, code.
  destruct (n <? 10)%N eqn:H10.
  - apply N.ltb_lt in H10. rewrite N_ascii_embedding by lia.
    apply orb_true_iff. left. apply andb_true_iff.
    split; apply N.leb_le; lia.
  - apply N.ltb_ge in H10. rewrite N_ascii_embedding by lia.
    apply orb_true_iff. right. apply andb_true_iff.
    split; apply N.leb_le; lia.
Qed.

Lemma hex_all_hex digest : str_all is_hex_char (hex digest) = true.
Proof.
  induction digest as [|b digest IH]; [reflexivity|].
  pose proof (byte_to_N_bound b) as Hb. cbn [hex str_all].
  rewrite !hex_digit_is_hex, IH; [reflexivity| |].
  - apply N.mod_lt. lia.
  - apply N.Div0.div_lt_upper_bound. lia.
Qed.

(** C5. After [build_addons_xml] the file addons.xml.md5 holds the
    hexadecimal text of the MD5 digest of the bytes that addons.xml holds,
    two lowercase hexadecimal digits for each byte of the digest and
    nothing after them; so it is after every run that writes. *)
Theorem md5_file_is_digest_of_addons_xml :
  (forall entries out_dir w,
     let w' := fst (build_addons_xml tostring md5_digest entries out_dir w) in
     exists content,
       files w' !! path_join out_dir "addons.xml" = Some content /\
       files w' !! path_join out_dir "addons.xml.md5" =
         Some (list_byte_of_string (hex (md5_digest content)))) /\
  (forall zips_dir out_dir zips w w',
     main fromstring tostring md5_digest zips_dir out_dir zips w =
       (w', Done tt) ->
     exists content,
       files w' !! path_join out_dir "addons.xml" = Some content /\
       files w' !! path_join out_dir "addons.xml.md5" =
         Some (list_byte_of_string (hex (md5_digest content)))) /\
  (forall digest,
     str_all is_hex_char (hex digest) = true /\
     String.length (hex digest) = (2 * List.length digest)%nat /\
     List.length (list_byte_of_string (hex digest)) =
       (2 * List.length digest)%nat).
Proof.
  split; [|split].
  - intros entries out_dir w w'. subst w'.
    exists (xml_header ++ tostring (addons_root entries)).
    rewrite build_addons_xml_run. cbv zeta. cbn [fst files]. split.
    + rewrite lookup_insert_ne by (intros H%path_join_inj; discriminate).
      apply lookup_insert_eq.
    + rewrite lookup_insert_eq.
      rewrite (proj1 (encode_utf8_hex _)). reflexivity.
  - intros zips_dir out_dir zips w w' Hmain.
    apply main_done in Hmain as (lines & selected & Hsel & ->).
    exists (xml_header ++ tostring (addons_root selected)).
    split; [apply written_xml|].
    rewrite written_md5, (proj1 (encode_utf8_hex _)). reflexivity.
  - intros digest. split; [apply hex_all_hex|].
    assert (Hlen : String.length (hex digest) = (2 * List.length digest)%nat).
    { induction digest as [|b digest IH]; [reflexivity|].
      cbn [hex String.length List.length]. rewrite IH. lia. }
    split; [exact Hlen|].
    destruct (encode_utf8_hex digest) as [<- H]. exact H.
Qed.


(** What the loop of [main] comes to, whatever the world: it returns the
    table, every warning printed, or it stops on the exception of a
    comparison, the warnings so far printed. *)
Lemma main_loop_outcome zips latest :
  exists rs lines,
    scanned fromstring zips rs lines /\
    ((exists latest',
        select_seq rs latest = Ok latest' /\
        (forall w, main_loop (find_addons fromstring zips) latest w =
                     (warn lines w, Done latest'))) \/
     (exists e lines1 lines2,
        select_seq rs latest = Raise e /\ lines = lines1 ++ lines2 /\
        (forall w, main_loop (find_addons fromstring zips) latest w =
                     (warn lines1 w, Failed e)))).
Proof.
  destruct (scanned_total fromstring zips) as (rs & lines & Hscan).
  exists rs, lines. split; [exact Hscan|].
  destruct (select_seq rs latest) as [latest'|e] eqn:Hsel.
  - left. exists latest'. split; [reflexivity|]. intros w.
    apply (main_loop_scanned zips rs lines Hscan). exact Hsel.
  - right.
    destruct (main_loop_scanned_raise zips rs lines Hscan latest e Hsel)
      as (lines1 & lines2 & Hl & Hrun).
    exists e, lines1, lines2. split; [reflexivity|]. split; assumption.
Qed.

(** The loop ends the same way in every world, and adds to standard
    error lines that do not depend on the world. *)
Lemma main_loop_world zips latest :
  exists lines o,
    forall w, main_loop (find_addons fromstring zips) latest w =
                (warn lines w, o).
Proof.
  destruct (main_loop_outcome zips latest)
    as (rs & lines & _ & [(l & _ & H)|(e & l1 & l2 & _ & _ & H)]).
  - exists lines, (Done l). exact H.
  - exists l1, (Failed e). exact H.
Qed.

Lemma scanned_app zips1 rs1 lines1 zips2 rs2 lines2 :
  scanned fromstring zips1 rs1 lines1 ->
  scanned fromstring zips2 rs2 lines2 ->
  scanned fromstring (zips1 ++ zips2) (rs1 ++ rs2) (lines1 ++ lines2).
Proof.
  induction 1; intros H2; simpl; [exact H2| |]; constructor; auto.
Qed.

Lemma scanned_unique zips : forall rs lines rs' lines',
  scanned fromstring zips rs lines -> scanned fromstring zips rs' lines' ->
  rs = rs'.
Proof.
  induction zips as [|a zips IH]; intros rs lines rs' lines' H1 H2;
    inversion H1; subst; inversion H2; subst; try reflexivity.
  - f_equal; [eapply archive_yields_unique; eassumption|eapply IH; eassumption].
  - exfalso. eapply archive_not_both; eassumption.
  - exfalso. eapply archive_not_both; eassumption.
  - eapply IH; eassumption.
Qed.

(** C6. An archive whose processing fails, because it is corrupt, has no
    descriptor, cannot be read or parsed, or lacks the id or the version,
    never stops the scan: its failure is caught, one warning goes to
    standard error, nothing is yielded for it, so the loop of [main] ends
    as it does in the run without it, and the archives after it are
    processed: once the loop is through the archives before it, it goes
    on with the archives after it from the same table, the warning
    printed. Every archive either yields a tuple or fails in this way. *)
Theorem failing_archive_skipped :
  (forall a line,
     archive_fails fromstring a line ->
     (forall w, find_addons_next fromstring a w = (warn [line] w, Done None)) /\
     (forall pre post latest w,
        main_loop (find_addons fromstring (pre ++ a :: post)) latest w =
          (l ← main_loop (find_addons fromstring pre) latest;
           _ ← print_err line;
           main_loop (find_addons fromstring post) l) w) /\
     (forall pre post w,
        snd (main_loop (find_addons fromstring (pre ++ a :: post)) ∅ w) =
        snd (main_loop (find_addons fromstring (pre ++ post)) ∅ w)) /\
     (forall pre post w w1 l,
        main_loop (find_addons fromstring pre) ∅ w = (w1, Done l) ->
        main_loop (find_addons fromstring (pre ++ a :: post)) ∅ w =
          main_loop (find_addons fromstring post) l (warn [line] w1) /\
        main_loop (find_addons fromstring (pre ++ post)) ∅ w =
          main_loop (find_addons fromstring post) l w1 /\
        exists lines1 lines2,
          stderr w1 = stderr w ++ lines1 /\
          stderr (fst (main_loop (find_addons fromstring (pre ++ a :: post)) ∅ w))
          = stderr w ++ lines1 ++ line :: lines2 /\
          stderr (fst (main_loop (find_addons fromstring (pre ++ post)) ∅ w))
          = stderr w ++ lines1 ++ lines2)) /\
  (forall a w,
     (exists r, archive_yields fromstring a r /\
                find_addons_next fromstring a w = (w, Done (Some r))) \/
     (exists line, archive_fails fromstring a line /\
                   find_addons_next fromstring a w = (warn [line] w, Done None))).
Proof.
  split.
  - intros a line Hfail.
    assert (Hwith : forall pre post latest w,
              main_loop (find_addons fromstring (pre ++ a :: post)) latest w =
                (l ← main_loop (find_addons fromstring pre) latest;
                 _ ← print_err line;
                 main_loop (find_addons fromstring post) l) w).
    { intros pre post latest w. unfold find_addons.
      rewrite List.map_app, main_loop_app. cbn [List.map main_loop].
      unfold mbind, M_bind.
      destruct (main_loop (List.map (find_addons_next fromstring) pre) latest w)
        as [w1 [l|e|c]]; try reflexivity.
      rewrite (find_addons_next_fails fromstring a line w1 Hfail).
      reflexivity. }
    assert (Hwithout : forall pre post latest w,
              main_loop (find_addons fromstring (pre ++ post)) latest w =
                (l ← main_loop (find_addons fromstring pre) latest;
                 main_loop (find_addons fromstring post) l) w).
    { intros pre post latest w. unfold find_addons.
      rewrite List.map_app, main_loop_app. reflexivity. }
    split; [intros w; apply find_addons_next_fails; exact Hfail|].
    split; [exact Hwith|]. split.
    + intros pre post w. rewrite Hwith, Hwithout. unfold mbind, M_bind.
      destruct (main_loop (find_addons fromstring pre) ∅ w)
        as [w1 [l|e|c]]; try reflexivity.
      unfold print_err.
      destruct (main_loop_world post l) as (lines' & o & Hpost).
      rewrite !Hpost. reflexivity.
    + intros pre post w w1 l Hpre.
      assert (H1 : main_loop (find_addons fromstring (pre ++ a :: post)) ∅ w =
                   main_loop (find_addons fromstring post) l (warn [line] w1)).
      { rewrite Hwith. unfold mbind, M_bind. rewrite Hpre. reflexivity. }
      assert (H2 : main_loop (find_addons fromstring (pre ++ post)) ∅ w =
                   main_loop (find_addons fromstring post) l w1).
      { rewrite Hwithout. unfold mbind, M_bind. rewrite Hpre. reflexivity. }
      split; [exact H1|]. split; [exact H2|].
      destruct (main_loop_world pre ∅) as (lines1 & o1 & Hp).
      destruct (main_loop_world post l) as (lines2 & o2 & Hpost).
      rewrite Hp in Hpre. injection Hpre as <- _.
      exists lines1, lines2. rewrite H1, H2, !Hpost.
      cbn [fst stderr warn]. rewrite <- !app_assoc. repeat split.
  - intros a w. destruct (archive_yields_or_fails fromstring a)
      as [[r Hr]|[line Hl]].
    + left. exists r. split; [exact Hr|].
      apply find_addons_next_yields. exact Hr.
    + right. exists line. split; [exact Hl|].
      apply find_addons_next_fails. exact Hl.
Qed.

(** C7. When no archive is usable (none found, or each one fails), the
    process, once it has made the output directory, prints its diagnostic
    on standard error after the warnings and exits with status 1, and no
    file is created or changed. A run changes the files only when it
    returns, and then an archive yields a tuple and both files are there:
    the files are written only for a table that is not empty. A run that
    ends on an exception (the output directory cannot be made, or a
    comparison of versions raises) leaves the files as they were. *)
Theorem no_usable_archive_no_output :
  (forall zips_dir out_dir zips lines w,
     blocked w out_dir = false ->
     Forall2 (archive_fails fromstring) zips lines ->
     let run := main fromstring tostring md5_digest zips_dir out_dir zips w in
     snd run = Exited 1 /\
     exit_status (snd run) <> 0 /\
     files (fst run) = files w /\
     stdout (fst run) = stdout w /\
     stderr (fst run) =
       stderr w ++ lines ++ ["No add-ons found under " +:+ path_str zips_dir]) /\
  (forall zips_dir out_dir w,
     blocked w out_dir = false ->
     let run := main fromstring tostring md5_digest zips_dir out_dir [] w in
     snd run = Exited 1 /\ files (fst run) = files w) /\
  (forall zips_dir out_dir zips w,
     let run := main fromstring tostring md5_digest zips_dir out_dir zips w in
     (snd run = Exited 1 /\ files (fst run) = files w /\
      exists lines, Forall2 (archive_fails fromstring) zips lines) \/
     (snd run = Done tt /\
      is_Some (files (fst run) !! path_join out_dir "addons.xml") /\
      is_Some (files (fst run) !! path_join out_dir "addons.xml.md5") /\
      exists a r, a ∈ zips /\ archive_yields fromstring a r) \/
     (exists e, snd run = Failed e /\ exit_status (snd run) <> 0 /\
                files (fst run) = files w /\ stdout (fst run) = stdout w)) /\
  (forall zips_dir out_dir zips w,
     let run := main fromstring tostring md5_digest zips_dir out_dir zips w in
     files (fst run) <> files w ->
     snd run = Done tt /\ exists a r, a ∈ zips /\ archive_yields fromstring a r).
Proof.
  assert (Hnone : forall zips_dir out_dir zips lines w,
            blocked w out_dir = false ->
            Forall2 (archive_fails fromstring) zips lines ->
            main fromstring tostring md5_digest zips_dir out_dir zips w =
              (nothing_found zips_dir out_dir lines w, Exited 1)).
  { intros zips_dir out_dir zips lines w Hb Hall.
    apply scanned_all_fail in Hall.
    apply (main_run zips_dir out_dir zips [] lines ∅ w Hb Hall). reflexivity. }
  assert (Hways : forall zips_dir out_dir zips w,
     let run := main fromstring tostring md5_digest zips_dir out_dir zips w in
     (snd run = Exited 1 /\ files (fst run) = files w /\
      exists lines, Forall2 (archive_fails fromstring) zips lines) \/
     (snd run = Done tt /\
      is_Some (files (fst run) !! path_join out_dir "addons.xml") /\
      is_Some (files (fst run) !! path_join out_dir "addons.xml.md5") /\
      exists a r, a ∈ zips /\ archive_yields fromstring a r) \/
     (exists e, snd run = Failed e /\ exit_status (snd run) <> 0 /\
                files (fst run) = files w /\ stdout (fst run) = stdout w)).
  { intros zips_dir out_dir zips w run. subst run.
    destruct (main_outcome zips_dir out_dir zips w)
      as [(_ & ->)|[(_ & rs & lines & l1 & l2 & e & _ & _ & _ & ->)
         |[(_ & lines & Hall & ->)|(_ & lines & selected & Hsel & Hmain)]]].
    - right. right. eexists. cbn [fst snd exit_status].
      repeat split. discriminate.
    - right. right. exists e. cbn [fst snd exit_status aborted files stdout].
      repeat split. discriminate.
    - left. repeat split. exists lines. exact Hall.
    - right. left. cbv zeta in Hmain. rewrite Hmain. cbn [fst snd].
      split; [reflexivity|]. rewrite written_xml, written_md5.
      split; [eauto|]. split; [eauto|].
      destruct Hsel as (rs & latest & Hscan & Hne & _).
      destruct rs as [|r rs]; [congruence|].
      destruct (proj1 (scanned_elem zips (r :: rs) lines r Hscan))
        as (a & Ha & Hy); [apply elem_of_cons; left; reflexivity|].
      exists a, r. auto. }
  split; [|split; [|split; [exact Hways|]]].
  - intros zips_dir out_dir zips lines w Hb Hall run. subst run.
    rewrite (Hnone _ _ _ _ _ Hb Hall). cbn [fst snd exit_status nothing_found
      files stdout stderr]. repeat split; try reflexivity. discriminate.
  - intros zips_dir out_dir w Hb run. subst run.
    rewrite (Hnone zips_dir out_dir [] [] w Hb) by constructor.
    split; reflexivity.
  - intros zips_dir out_dir zips w run Hfiles.
    destruct (Hways zips_dir out_dir zips w)
      as [(_ & H & _)|[(Hd & _ & _ & Hy)|(e & _ & _ & H & _)]].
    + contradiction.
    + split; [exact Hd|exact Hy].
    + contradiction.
Qed.

Lemma last_named_first n content pre : forall post,
  last_named n (pre ++ (n, content) :: post) =
    Some (default content (last_named n post)).
Proof.
  induction pre as [|[m c] pre IH]; intros post.
  - cbn [app last_named].
    destruct (last_named n post); [reflexivity|].
    rewrite String.eqb_refl. reflexivity.
  - cbn [app last_named]. rewrite IH. reflexivity.
Qed.

Lemma last_named_none n entries :
  Forall (fun e => fst e <> n) entries -> last_named n entries = None.
Proof.
  induction 1 as [|[m c] entries Hm _ IH]; [reflexivity|].
  cbn [last_named]. rewrite IH.
  destruct (String.eqb m n) eqn:E; [|reflexivity].
  apply String.eqb_eq in E. simpl in Hm. contradiction.
Qed.

Lemma find_addon_xml_first names n :
  find_addon_xml names = Some n <->
  exists pre post,
    names = pre ++ n :: post /\ is_descriptor n = true /\
    Forall (fun m => is_descriptor m = false) pre.
Proof.
  revert n. induction names as [|m names IH]; intros n.
  - split; [discriminate|]. intros ([|? ?] & post & H & _); discriminate.
  - cbn [find_addon_xml]. fold (is_descriptor m).
    destruct (is_descriptor m) eqn:Hm.
    + split.
      * intros [= <-]. exists [], names. repeat split; [exact Hm|constructor].
      * intros ([|m' pre] & post & H & Hn & Hpre); simpl in H.
        -- congruence.
        -- injection H as <- _. inversion Hpre; congruence.
    + rewrite IH. split.
      * intros (pre & post & -> & Hn & Hpre).
        exists (m :: pre), post. repeat split; [exact Hn|].
        constructor; assumption.
      * intros ([|m' pre] & post & H & Hn & Hpre); simpl in H.
        -- congruence.
        -- injection H as <- ->. inversion Hpre; subst.
           exists pre, post. auto.
Qed.

Lemma find_addon_xml_none names :
  find_addon_xml names = None <->
  Forall (fun m => is_descriptor m = false) names.
Proof.
  induction names as [|m names IH].
  - split; [constructor|reflexivity].
  - cbn [find_addon_xml]. fold (is_descriptor m).
    destruct (is_descriptor m) eqn:Hm.
    + split; [discriminate|]. intros H. inversion H; congruence.
    + rewrite IH. split; [intros H; constructor; assumption|].
      intros H. inversion H; assumption.
Qed.

(** The outcome for an archive whose first descriptor name is [n]: what
    reading [n] gives is parsed, and the tuple of its root is yielded. *)
Lemma find_addons_next_descriptor p z n w :
  find_addon_xml (namelist z) = Some n ->
  find_addons_next fromstring (mkArchive p (Ok z)) w =
    match zip_read z n with
    | Raise e => (warn [handler_line (mkArchive p (Ok z)) e] w, Done None)
    | Ok data =>
        match fromstring data with
        | Raise e => (warn [handler_line (mkArchive p (Ok z)) e] w, Done None)
        | Ok elem =>
            match attrib elem !! "id", attrib elem !! "version" with
            | Some (String c1 id), Some (String c2 ver) =>
                (w, Done (Some (mkAddon (String c1 id) (String c2 ver) elem p)))
            | _, _ =>
                (warn ["[WARN] Missing id/version in " +:+ path_str p] w,
                 Done None)
            end
        end
    end.
Proof.
  intros Hn.
  unfold find_addons_next, scan_zip, mbind, M_bind, mret, M_ret, lift,
    print_err, warn, handler_line.
  cbn [zip_open zip_path]. cbv zeta. rewrite py_not_find, Hn.
  cbn [default from_option]. unfold id.
  destruct (zip_read z n) as [data|[msg|cls msg]]; [|reflexivity|reflexivity].
  destruct (fromstring data) as [elem|[msg|cls msg]]; [|reflexivity|reflexivity].
  destruct (attrib elem !! "id") as [[|c1 id]|];
    destruct (attrib elem !! "version") as [[|c2 ver]|]; reflexivity.
Qed.

(** In an archive with two members of one name the descriptor used is
    not the first: the name taken is that of the first member whose
    lowercased name ends with /addon.xml, but opening a member by its name
    reads the last member of that name, so the second one is parsed and
    yielded. *)
Lemma descriptor_of_duplicate_name_is_last :
  let entries :=
    [("x/addon.xml", Ok (list_byte_of_string "x@1.0"));
     ("x/addon.xml", Ok (list_byte_of_string "x@2.0"))] in
  find_addon_xml (namelist (zip_of_entries entries)) = Some "x/addon.xml" /\
  find_addons_next sample_fromstring
    (mkArchive ["x.zip"] (Ok (zip_of_entries entries))) sample_world =
    (sample_world, Done (Some (sample_entry "x" "2.0" ["x.zip"]))) /\
  find_addons_next sample_fromstring
    (mkArchive ["x.zip"] (Ok (zip_of_entries entries))) sample_world <>
    (sample_world, Done (Some (sample_entry "x" "1.0" ["x.zip"]))).
Proof.
  intros entries. split; [reflexivity|].
  assert (H : find_addons_next sample_fromstring
                (mkArchive ["x.zip"] (Ok (zip_of_entries entries))) sample_world =
              (sample_world, Done (Some (sample_entry "x" "2.0" ["x.zip"]))))
    by (vm_compute; reflexivity).
  split; [exact H|]. rewrite H. intros E.
  assert (Hv : addon_ver (sample_entry "x" "2.0" ["x.zip"]) =
               addon_ver (sample_entry "x" "1.0" ["x.zip"])) by congruence.
  vm_compute in Hv. discriminate Hv.
Qed.

(** C10. The name of the descriptor of an archive is the name of
    the first member, in the order of the name list, whose lowercased name
    ends with /addon.xml; what is read, parsed and yielded is the member
    that the archive gives for this name: the first member itself unless a
    later member bears the same name, and then the last of that name. The
    members after the first under other names change nothing and bring no
    warning. A member named addon.xml, in whatever case, is no descriptor,
    and an archive with no other candidate is skipped with the warning that
    no addon.xml was found. *)
Theorem descriptor_is_first_match :
  (forall n, is_descriptor n = true <->
             exists p, str_lower n = p +:+ "/addon.xml") /\
  (forall names n,
     find_addon_xml names = Some n <->
     exists pre post,
       names = pre ++ n :: post /\ is_descriptor n = true /\
       Forall (fun m => is_descriptor m = false) pre) /\
  (forall names,
     find_addon_xml names = None <->
     Forall (fun m => is_descriptor m = false) names) /\
  (forall p pre n content post w,
     is_descriptor n = true ->
     Forall (fun e => is_descriptor (fst e) = false) pre ->
     let a := mkArchive p (Ok (zip_of_entries (pre ++ (n, content) :: post))) in
     find_addons_next fromstring a w =
       match default content (last_named n post) with
       | Raise e => (warn [handler_line a e] w, Done None)
       | Ok data =>
           match fromstring data with
           | Raise e => (warn [handler_line a e] w, Done None)
           | Ok elem =>
               match attrib elem !! "id", attrib elem !! "version" with
               | Some (String c1 id), Some (String c2 ver) =>
                   (w, Done (Some (mkAddon (String c1 id) (String c2 ver)
                                           elem p)))
               | _, _ =>
                   (warn ["[WARN] Missing id/version in " +:+ path_str p] w,
                    Done None)
               end
           end
       end) /\
  (forall n post content,
     Forall (fun e => fst e <> n) post ->
     default content (last_named n post) = content) /\
  (forall p rd pre n post w,
     is_descriptor n = true ->
     Forall (fun m => is_descriptor m = false) pre ->
     find_addons_next fromstring
       (mkArchive p (Ok (mkZip (pre ++ n :: post) rd))) w =
     find_addons_next fromstring (mkArchive p (Ok (mkZip [n] rd))) w) /\
  (forall n, str_lower n = "addon.xml" -> is_descriptor n = false) /\
  (forall p rd names w,
     Forall (fun m => is_descriptor m = false) names ->
     find_addons_next fromstring (mkArchive p (Ok (mkZip names rd))) w =
       (warn ["[WARN] No addon.xml found in " +:+ path_str p] w, Done None)) /\
  (forall p rd w,
     find_addons_next fromstring (mkArchive p (Ok (mkZip ["addon.xml"] rd))) w =
       (warn ["[WARN] No addon.xml found in " +:+ path_str p] w, Done None)).
Proof.
  assert (Hwarn : forall p rd names w,
            Forall (fun m => is_descriptor m = false) names ->
            find_addons_next fromstring (mkArchive p (Ok (mkZip names rd))) w =
              (warn ["[WARN] No addon.xml found in " +:+ path_str p] w, Done None)).
  { intros p rd names w Hall.
    apply (find_addons_next_fails fromstring
             (mkArchive p (Ok (mkZip names rd)))).
    apply (fails_no_descriptor fromstring
             (mkArchive p (Ok (mkZip names rd))) (mkZip names rd));
      [reflexivity|]. apply find_addon_xml_none. exact Hall. }
  assert (Hroot : forall n, str_lower n = "addon.xml" -> is_descriptor n = false).
  { intros n Hn. unfold is_descriptor. rewrite Hn. reflexivity. }
  split; [intros n; apply str_endswith_spec|].
  split; [exact find_addon_xml_first|]. split; [exact find_addon_xml_none|].
  split; [|split; [|split; [|split; [exact Hroot|]]]].
  - intros p pre n content post w Hn Hpre a. subst a.
    rewrite (find_addons_next_descriptor p _ n w).
    + cbn [zip_read zip_of_entries]. rewrite last_named_first. reflexivity.
    + cbn [namelist zip_of_entries]. apply find_addon_xml_first.
      exists (List.map fst pre), (List.map fst post).
      split; [rewrite List.map_app; reflexivity|]. split; [exact Hn|].
      apply Forall_map. exact Hpre.
  - intros n post content Hpost. rewrite (last_named_none n post Hpost).
    reflexivity.
  - intros p rd pre n post w Hn Hpre.
    assert (H1 : find_addon_xml (pre ++ n :: post) = Some n)
      by (apply find_addon_xml_first; exists pre, post; auto).
    assert (H2 : find_addon_xml [n] = Some n)
      by (apply find_addon_xml_first; exists [], []; auto).
    unfold find_addons_next, scan_zip, mbind, M_bind, lift.
    cbn [zip_open namelist zip_read zip_path]. rewrite H1, H2. reflexivity.
  - split; [exact Hwarn|]. intros p rd w. apply Hwarn.
    constructor; [|constructor]. apply Hroot. reflexivity.
Qed.

End Pipeline.

(** * Further properties of the version ordering *)

Lemma runs_nil_iff v :
  Spec.runs v = [] <-> str_all Spec.is_other v = true.
Proof.
  induction v as [|c v IH]; [split; reflexivity|].
  destruct (Spec.kind_of c) as [k|] eqn:Hk.
  - rewrite (runs_cons k) by exact Hk. simpl. unfold Spec.is_other at 1.
    rewrite Hk. simpl. split; discriminate.
  - rewrite runs_skip by exact Hk. simpl.
    rewrite (proj2 (is_other_none c) Hk). simpl. exact IH.
Qed.

Lemma tokens_nil_iff v :
  Spec.tokens v = [] <-> str_all Spec.is_other v = true.
Proof.
  rewrite <- runs_nil_iff. unfold Spec.tokens.
  destruct (Spec.runs v); simpl; split; congruence.
Qed.

Lemma tokens_compare_refl xs : Spec.tokens_compare xs xs = Eq.
Proof. apply tokens_compare_eq. reflexivity. Qed.

Lemma tokens_compare_app_gt xs ys :
  ys <> [] -> Spec.tokens_compare (xs ++ ys) xs = Gt.
Proof.
  intros Hys. induction xs as [|x xs IH]; simpl.
  - destruct ys; [congruence|reflexivity].
  - rewrite (proj2 (token_compare_eq x x) eq_refl). exact IH.
Qed.

Lemma tokens_app pre s :
  (forall k, Spec.last_kind pre = Some k -> Spec.head_kind s <> Some k) ->
  Spec.tokens (pre +:+ s) = Spec.tokens pre ++ Spec.tokens s.
Proof.
  intros Hseam. unfold Spec.tokens.
  rewrite (runs_app pre s Hseam), List.map_app. reflexivity.
Qed.

Lemma within_cap_app pre s :
  (forall k, Spec.last_kind pre = Some k -> Spec.head_kind s <> Some k) ->
  within_cap (pre +:+ s) = within_cap pre && within_cap s.
Proof.
  intros Hseam. rewrite !within_cap_runs, (runs_app pre s Hseam).
  apply forallb_app.
Qed.

Lemma within_cap_no_token v :
  str_all Spec.is_other v = true -> within_cap v = true.
Proof.
  intros Hv. apply runs_nil_iff in Hv. rewrite within_cap_runs, Hv.
  reflexivity.
Qed.

(** X1. A version without any digit or letter has the empty tuple: it is
    never greater than a version that [normalize_version] accepts, every
    such version with a digit or a letter is greater than it, and in the
    loop of [main] it never takes the place of a tuple already kept whose
    version [normalize_version] accepts. *)
Theorem version_without_token_is_least v :
  str_all Spec.is_other v = true ->
  normalize_version v = Ok (PTuple []) /\
  (forall u, within_cap u = true -> version_gt v u = Ok false) /\
  (forall u, within_cap u = true ->
             version_gt u v = Ok (negb (str_all Spec.is_other u))) /\
  (forall latest r best,
     addon_ver r = v -> latest !! addon_id r = Some best ->
     within_cap (addon_ver best) = true ->
     select latest r = Ok latest).
Proof.
  intros Hv. pose proof (within_cap_no_token v Hv) as Hcap.
  apply tokens_nil_iff in Hv.
  assert (Hle : forall u, within_cap u = true -> version_gt v u = Ok false).
  { intros u Hu. apply version_gt_false.
    split; [exact Hcap|]. split; [exact Hu|]. unfold Spec.version_compare.
    rewrite Hv. destruct (Spec.tokens u); discriminate. }
  split; [rewrite (normalize_version_tokens v Hcap), Hv; reflexivity|].
  split; [exact Hle|]. split.
  - intros u Hcu. rewrite (version_gt_compare u v Hcu Hcap).
    unfold Spec.version_compare. rewrite Hv. f_equal.
    destruct (str_all Spec.is_other u) eqn:Hu.
    + apply tokens_nil_iff in Hu. rewrite Hu. reflexivity.
    + destruct (Spec.tokens u) eqn:Ht; [|reflexivity].
      apply tokens_nil_iff in Ht. congruence.
  - intros latest r best Hr Hbest Hb. unfold select.
    rewrite Hbest, Hr, (Hle _ Hb). reflexivity.
Qed.

(** X2. What is added behind a version counts as more: when the added text
    holds a digit or a letter and does not prolong the last run of the
    version, and no run of the longer version has more than 4300 digits,
    the longer version is strictly greater. So 1.0.0 is greater than 1.0,
    and 1.0.0~alpha and 1.0.0a are greater than 1.0.0. *)
Theorem version_with_suffix_is_greater v s :
  (forall k, Spec.last_kind v = Some k -> Spec.head_kind s <> Some k) ->
  str_all Spec.is_other s = false ->
  within_cap (v +:+ s) = true ->
  version_gt (v +:+ s) v = Ok true /\ version_gt v (v +:+ s) = Ok false.
Proof.
  intros Hseam Hs Hcap.
  assert (Hv : within_cap v = true).
  { rewrite (within_cap_app v s Hseam) in Hcap.
    apply andb_true_iff in Hcap as [H _]. exact H. }
  assert (Hgt : version_gt (v +:+ s) v = Ok true).
  { apply version_gt_true. split; [exact Hcap|]. split; [exact Hv|].
    unfold Spec.version_compare.
    rewrite (tokens_app v s Hseam). apply tokens_compare_app_gt.
    intros Ht. apply tokens_nil_iff in Ht. congruence. }
  split; [exact Hgt|]. apply version_gt_asym. exact Hgt.
Qed.

Lemma head_kind_other sep s :
  sep <> EmptyString -> str_all Spec.is_other sep = true ->
  Spec.head_kind (sep +:+ s) = None.
Proof.
  destruct sep as [|c sep]; [congruence|]. intros _ Hsep.
  simpl in Hsep. apply andb_true_iff in Hsep as [Hc _].
  apply is_other_none in Hc. exact Hc.
Qed.

Lemma runs_separator pre sep post :
  sep <> EmptyString -> str_all Spec.is_other sep = true ->
  Spec.runs (pre +:+ sep +:+ post) = Spec.runs pre ++ Spec.runs post.
Proof.
  intros Hne Hsep. rewrite runs_app.
  - rewrite (runs_separators sep post Hsep). reflexivity.
  - intros k _. rewrite (head_kind_other sep post Hne Hsep). discriminate.
Qed.

Lemma tokens_separator pre sep post :
  sep <> EmptyString -> str_all Spec.is_other sep = true ->
  Spec.tokens (pre +:+ sep +:+ post) = Spec.tokens pre ++ Spec.tokens post.
Proof.
  intros Hne Hsep. unfold Spec.tokens.
  rewrite (runs_separator pre sep post Hne Hsep), List.map_app. reflexivity.
Qed.

(** X3. Which characters separate the runs, and how many of them, makes no
    difference: for two versions that differ in one stretch of characters
    that are neither digits nor letters, not empty on either side,
    [normalize_version] gives the same result, and when this result is a
    tuple neither version is greater. *)
Theorem version_separators_interchangeable pre sep sep' post :
  sep <> EmptyString -> str_all Spec.is_other sep = true ->
  sep' <> EmptyString -> str_all Spec.is_other sep' = true ->
  normalize_version (pre +:+ sep +:+ post) =
    normalize_version (pre +:+ sep' +:+ post) /\
  within_cap (pre +:+ sep +:+ post) = within_cap (pre +:+ sep' +:+ post) /\
  (within_cap (pre +:+ sep +:+ post) = true ->
   version_gt (pre +:+ sep +:+ post) (pre +:+ sep' +:+ post) = Ok false /\
   version_gt (pre +:+ sep' +:+ post) (pre +:+ sep +:+ post) = Ok false).
Proof.
  intros Hne Hsep Hne' Hsep'.
  assert (Hruns : Spec.runs (pre +:+ sep +:+ post) =
                  Spec.runs (pre +:+ sep' +:+ post)).
  { rewrite (runs_separator pre sep post Hne Hsep).
    rewrite (runs_separator pre sep' post Hne' Hsep'). reflexivity. }
  assert (Heq : normalize_version (pre +:+ sep +:+ post) =
                normalize_version (pre +:+ sep' +:+ post))
    by (apply normalize_version_runs; exact Hruns).
  split; [exact Heq|].
  split; [rewrite !within_cap_runs, Hruns; reflexivity|].
  intros Hcap. apply version_gt_tie.
  exists (PTuple (List.map part_of (Spec.tokens (pre +:+ sep +:+ post)))).
  split; [|rewrite <- Heq]; apply normalize_version_tokens; exact Hcap.
Qed.

Lemma take_drop_all cls s :
  str_all cls s = true ->
  take_class cls s = s /\ drop_class cls s = EmptyString.
Proof.
  induction s as [|c s IH]; [split; reflexivity|].
  simpl. intros [Hc Hs]%andb_true_iff. rewrite Hc.
  destruct (IH Hs) as [-> ->]. split; reflexivity.
Qed.

Lemma runs_number d :
  d <> EmptyString -> str_all re_digit d = true ->
  Spec.runs d = [(Spec.Digits, d)].
Proof.
  destruct d as [|c d]; [congruence|]. intros _ Hall.
  simpl in Hall. apply andb_true_iff in Hall as [Hc Hd].
  rewrite (runs_cons Spec.Digits c d) by (apply kind_of_digit; exact Hc).
  simpl class_of. destruct (take_drop_all re_digit d Hd) as [-> ->].
  reflexivity.
Qed.

Lemma tokens_number d :
  d <> EmptyString -> str_all re_digit d = true ->
  Spec.tokens d = [Spec.TNum (Spec.value 0 d)].
Proof.
  intros Hne Hall. unfold Spec.tokens. rewrite (runs_number d Hne Hall).
  reflexivity.
Qed.

Lemma py_int_value d :
  d <> EmptyString -> str_all re_digit d = true ->
  (String.length d <= int_max_str_digits)%nat ->
  py_int d = Ok (Z.of_N (Spec.value 0 d)).
Proof.
  intros Hne Hall Hlen. unfold py_int. rewrite Hall.
  rewrite (proj2 (Nat.leb_le _ _) Hlen).
  destruct d; [congruence|]. apply (int_digits_value _ 0%N Hall).
Qed.

Lemma tokens_compare_app xs ys zs :
  Spec.tokens_compare (xs ++ ys) (xs ++ zs) = Spec.tokens_compare ys zs.
Proof.
  induction xs as [|x xs IH]; [reflexivity|]. simpl.
  rewrite (proj2 (token_compare_eq x x) eq_refl). exact IH.
Qed.

(** X14. Numbers compare by value, not as text: of two versions that are
    the same up to their last component, a run of at most 4300 digits on
    both sides, the greater is the one whose last number, as [int] reads
    it, is the greater. So 1.10 is greater than 1.9, and 1.010 ties with
    1.10. *)
Theorem last_number_decides pre sep d1 d2 :
  sep <> EmptyString -> str_all Spec.is_other sep = true ->
  d1 <> EmptyString -> str_all re_digit d1 = true ->
  d2 <> EmptyString -> str_all re_digit d2 = true ->
  within_cap pre = true ->
  (String.length d1 <= int_max_str_digits)%nat ->
  (String.length d2 <= int_max_str_digits)%nat ->
  exists n1 n2,
    py_int d1 = Ok n1 /\ py_int d2 = Ok n2 /\
    version_gt (pre +:+ sep +:+ d1) (pre +:+ sep +:+ d2) = Ok (Z.gtb n1 n2).
Proof.
  intros Hne Hsep Hne1 Hd1 Hne2 Hd2 Hpre Hl1 Hl2.
  assert (Hcap : forall d, d <> EmptyString -> str_all re_digit d = true ->
            (String.length d <= int_max_str_digits)%nat ->
            within_cap (pre +:+ sep +:+ d) = true).
  { intros d Hn Hd Hl.
    rewrite within_cap_runs, (runs_separator pre sep d Hne Hsep), forallb_app.
    rewrite <- within_cap_runs, Hpre, (runs_number d Hn Hd).
    unfold run_within_cap. cbn [forallb fst snd andb].
    rewrite (proj2 (Nat.leb_le _ _) Hl). reflexivity. }
  exists (Z.of_N (Spec.value 0 d1)), (Z.of_N (Spec.value 0 d2)).
  split; [apply py_int_value; assumption|].
  split; [apply py_int_value; assumption|].
  rewrite (version_gt_compare _ _ (Hcap d1 Hne1 Hd1 Hl1) (Hcap d2 Hne2 Hd2 Hl2)).
  unfold Spec.version_compare.
  rewrite !(tokens_separator pre sep _ Hne Hsep), tokens_compare_app.
  rewrite (tokens_number d1 Hne1 Hd1), (tokens_number d2 Hne2 Hd2).
  simpl. f_equal. unfold Z.gtb. rewrite N2Z.inj_compare.
  destruct (N.compare (Spec.value 0 d1) (Spec.value 0 d2)); reflexivity.
Qed.

(** * Further properties of the selection *)

Lemma select_never_lowers latest r latest' k best :
  select latest r = Ok latest' -> latest !! k = Some best ->
  exists best', latest' !! k = Some best' /\
                (best' = best \/
                 version_gt (addon_ver best') (addon_ver best) = Ok true).
Proof.
  intros Hsel Hk.
  apply select_ok in Hsel as [[Hnew ->]|[_ ->]];
    [|exists best; split; [exact Hk|left; reflexivity]].
  destruct (decide (addon_id r = k)) as [<-|Hne].
  - exists r. rewrite lookup_insert_eq. split; [reflexivity|].
    destruct Hnew as [Hn|(b & Hb & Hg)]; [congruence|].
    right. rewrite Hk in Hb. injection Hb as <-. exact Hg.
  - exists best. rewrite lookup_insert_ne by exact Hne.
    split; [exact Hk|left; reflexivity].
Qed.

(** X5. The loop of [main] never drops an identifier from the table and
    never lowers a version: whatever tuples follow, as long as the loop
    returns, an identifier that has a tuple keeps this tuple or gets one
    of a strictly greater version. *)
Theorem selection_never_lowers rs : forall latest latest' k best,
  select_seq rs latest = Ok latest' -> latest !! k = Some best ->
  exists best', latest' !! k = Some best' /\
                (best' = best \/
                 version_gt (addon_ver best') (addon_ver best) = Ok true).
Proof.
  induction rs as [|r rs IH]; intros latest latest' k best Hsel Hk.
  - injection Hsel as <-. exists best. split; [exact Hk|left; reflexivity].
  - simpl in Hsel. destruct (select latest r) as [l|e] eqn:Hr; [|discriminate].
    simpl in Hsel.
    destruct (select_never_lowers latest r l k best Hr Hk) as (b1 & Hb1 & H1).
    destruct (IH l latest' k b1 Hsel Hb1) as (b2 & Hb2 & H2).
    exists b2. split; [exact Hb2|].
    destruct H2 as [->|H2]; [exact H1|].
    destruct H1 as [->|H1]; [right; exact H2|].
    right. apply (version_gt_trans _ (addon_ver b1)); assumption.
Qed.

Lemma first_greatest_greatest rs r :
  no_ties rs -> Forall (fun r => within_cap (addon_ver r) = true) rs ->
  first_greatest rs r -> greatest rs r.
Proof.
  intros Hties Hcap (pre & post & -> & Hpre & Hpost). split.
  - apply elem_of_middle.
  - intros r' Hin Hid.
    pose proof (proj1 (Forall_forall _ _) Hcap r' Hin) as Hr'.
    pose proof (proj1 (Forall_forall _ _) Hcap r (elem_of_middle pre r post))
      as Hr.
    apply elem_of_app in Hin as [Hin|Hin]; [right; apply Hpre; assumption|].
    apply elem_of_cons in Hin as [->|Hin]; [left; reflexivity|].
    destruct (version_gt_trichotomy (addon_ver r) (addon_ver r') Hr Hr')
      as [H|[H|H]].
    + right. exact H.
    + rewrite (Hpost r' Hin Hid) in H. discriminate.
    + left. symmetry. apply Hties; try assumption.
      * apply elem_of_middle.
      * apply elem_of_app. right. apply elem_of_cons. right. exact Hin.
      * congruence.
Qed.

Lemma greatest_first_greatest rs r r0 :
  greatest rs r -> first_greatest rs r0 -> addon_id r0 = addon_id r ->
  r = r0.
Proof.
  intros [Hin Hall] (pre & post & Hrs & Hpre & Hpost) Hid.
  assert (Hr0 : r0 ∈ rs) by (rewrite Hrs; apply elem_of_middle).
  destruct (Hall r0 Hr0 Hid) as [->|Hg]; [reflexivity|].
  rewrite Hrs in Hin.
  apply elem_of_app in Hin as [Hin|Hin].
  - pose proof (Hpre r Hin (eq_sym Hid)) as H.
    apply version_gt_asym in H. congruence.
  - apply elem_of_cons in Hin as [->|Hin]; [reflexivity|].
    rewrite (Hpost r Hin (eq_sym Hid)) in Hg. discriminate.
Qed.

(** Without ties the table holds, for each identifier, the tuple of the
    greatest version, wherever it stands. *)
Lemma table_lookup_greatest rs latest k r :
  no_ties rs -> Forall (fun r => within_cap (addon_ver r) = true) rs ->
  select_seq rs ∅ = Ok latest ->
  latest !! k = Some r <-> addon_id r = k /\ greatest rs r.
Proof.
  intros Hties Hcap Hsel.
  destruct (table_of_select_seq rs latest Hsel) as [Hsome Hnone]. split.
  - intros Hk. destruct (Hsome k r Hk) as [Hid Hfg].
    split; [exact Hid|]. apply first_greatest_greatest; assumption.
  - intros [Hid Hg]. destruct (latest !! k) as [r0|] eqn:Hk.
    + destruct (Hsome k r0 Hk) as [Hid0 Hfg0]. f_equal. symmetry.
      apply (greatest_first_greatest rs); [assumption|assumption|congruence].
    + exfalso. destruct Hg as [Hin _]. apply (Hnone k Hk r Hin Hid).
Qed.

Lemma no_ties_perm rs rs' : rs ≡ₚ rs' -> no_ties rs -> no_ties rs'.
Proof.
  intros Hp Hties r1 r2 H1 H2. rewrite <- Hp in H1, H2.
  apply Hties; assumption.
Qed.

Lemma within_cap_perm rs rs' :
  rs ≡ₚ rs' ->
  Forall (fun r => within_cap (addon_ver r) = true) rs ->
  Forall (fun r => within_cap (addon_ver r) = true) rs'.
Proof.
  intros Hp Hcap. apply Forall_forall. intros r Hr. rewrite <- Hp in Hr.
  exact (proj1 (Forall_forall _ _) Hcap r Hr).
Qed.

Lemma greatest_perm rs rs' r : rs ≡ₚ rs' -> greatest rs r -> greatest rs' r.
Proof.
  intros Hp [Hin Hall]. split; [rewrite <- Hp; exact Hin|].
  intros r' Hr'. rewrite <- Hp in Hr'. apply Hall. exact Hr'.
Qed.

Lemma select_seq_perm rs rs' :
  rs ≡ₚ rs' -> no_ties rs ->
  Forall (fun r => within_cap (addon_ver r) = true) rs ->
  select_seq rs ∅ = select_seq rs' ∅.
Proof.
  intros Hp Hties Hcap.
  pose proof (within_cap_perm rs rs' Hp Hcap) as Hcap'.
  destruct (select_seq_total rs ∅ Hcap table_within_cap_empty) as [l Hl].
  destruct (select_seq_total rs' ∅ Hcap' table_within_cap_empty) as [l' Hl'].
  rewrite Hl, Hl'. f_equal. apply map_eq. intros k.
  pose proof (no_ties_perm rs rs' Hp Hties) as Hties'.
  destruct (l !! k) as [r|] eqn:Hk.
  - symmetry. apply (table_lookup_greatest rs' l' k r Hties' Hcap' Hl').
    apply (table_lookup_greatest rs l k r Hties Hcap Hl) in Hk as [Hid Hg].
    split; [exact Hid|]. apply (greatest_perm rs); assumption.
  - destruct (l' !! k) as [r|] eqn:Hk'; [|reflexivity].
    apply (table_lookup_greatest rs' l' k r Hties' Hcap' Hl') in Hk' as [Hid Hg].
    symmetry in Hp.
    assert (Hr : l !! k = Some r).
    { apply (table_lookup_greatest rs l k r Hties Hcap Hl).
      split; [exact Hid|]. apply (greatest_perm rs'); assumption. }
    congruence.
Qed.

(** X4. When no two tuples of one identifier tie and no version has a run
    of more than 4300 digits, the table does not depend on the order in
    which the tuples are met: any rearrangement of them leads the loop of
    [main] to the same table, which holds for each identifier the tuple of
    the strictly greatest version. *)
Theorem selection_order_independent rs rs' :
  rs ≡ₚ rs' -> no_ties rs ->
  Forall (fun r => within_cap (addon_ver r) = true) rs ->
  select_seq rs ∅ = select_seq rs' ∅ /\
  (exists latest, select_seq rs ∅ = Ok latest) /\
  (forall latest k r,
     select_seq rs ∅ = Ok latest ->
     latest !! k = Some r <-> addon_id r = k /\ greatest rs r).
Proof.
  intros Hp Hties Hcap. split; [apply select_seq_perm; assumption|].
  split; [apply select_seq_total; [exact Hcap|apply table_within_cap_empty]|].
  intros latest k r Hsel. apply table_lookup_greatest; assumption.
Qed.

(** * Further properties of the scan and of the output *)

Lemma find_addon_xml_elem names n :
  find_addon_xml names = Some n -> n ∈ names.
Proof.
  induction names as [|m names IH]; simpl; [discriminate|].
  destruct (str_endswith (str_lower m) "/addon.xml").
  - intros [= ->]. apply elem_of_cons. left. reflexivity.
  - intros H. apply elem_of_cons. right. apply IH. exact H.
Qed.

Lemma two_inserts_agree (f1 f2 : gmap path bytes) a b x y :
  (forall p, p <> a -> p <> b -> f1 !! p = f2 !! p) ->
  <[b := y]> (<[a := x]> f1) = <[b := y]> (<[a := x]> f2).
Proof.
  intros Hagree. apply map_eq. intros p. rewrite !lookup_insert.
  case_decide as Hb; [reflexivity|]. case_decide as Ha; [reflexivity|].
  apply Hagree; congruence.
Qed.

Lemma path_parents_elem (p : path) n : take n p ∈ path_parents p.
Proof.
  unfold path_parents. apply list_elem_of_In, in_map_iff.
  destruct (decide (n <= List.length p)%nat) as [Hn|Hn].
  - exists n. split; [reflexivity|]. apply in_seq. lia.
  - exists (List.length p). split; [|apply in_seq; lia].
    rewrite firstn_all. symmetry. apply take_ge. lia.
Qed.

Section Further.

Variable fromstring : bytes -> result Element.
Variable tostring : Element -> bytes.
Variable md5_digest : bytes -> bytes.

Lemma archive_fails_unique a line line' :
  archive_fails fromstring a line -> archive_fails fromstring a line' ->
  line = line'.
Proof.
  intros H1 H2.
  pose proof (find_addons_next_fails fromstring a line sample_world H1) as E1.
  pose proof (find_addons_next_fails fromstring a line' sample_world H2) as E2.
  rewrite E1 in E2. injection E2 as E. exact E.
Qed.

Lemma scanned_fail_elem zips rs lines line :
  scanned fromstring zips rs lines ->
  line ∈ lines <-> exists a, a ∈ zips /\ archive_fails fromstring a line.
Proof.
  induction 1 as [|a r zips rs lines Hr _ IH|a l zips rs lines Hl _ IH].
  - split; [intros H; inversion H|intros (a & H & _); inversion H].
  - rewrite IH. split.
    + intros (a' & Ha' & Hf). exists a'.
      split; [apply elem_of_cons; right; exact Ha'|exact Hf].
    + intros (a' & [->|Ha']%elem_of_cons & Hf).
      * exfalso. apply (archive_not_both fromstring a r line); assumption.
      * exists a'. auto.
  - rewrite elem_of_cons, IH. split.
    + intros [->|(a' & Ha' & Hf)].
      * exists a. split; [apply elem_of_cons; left; reflexivity|exact Hl].
      * exists a'. split; [apply elem_of_cons; right; exact Ha'|exact Hf].
    + intros (a' & [->|Ha']%elem_of_cons & Hf).
      * left. apply (archive_fails_unique a); assumption.
      * right. exists a'. auto.
Qed.

(** X8. The scan accounts for every archive once: an archive gives a tuple
    or one line on standard error, never both, so the tuples and the
    lines together are as many as the archives; the lines are those of
    the failing archives. The loop of [main] over the scan changes no
    file, no directory and nothing on standard output; when it returns,
    standard error has got all the lines, and when a comparison raises,
    those of the archives scanned so far. *)
Theorem scan_accounts_for_every_archive zips rs lines :
  scanned fromstring zips rs lines ->
  (List.length rs + List.length lines = List.length zips)%nat /\
  (forall line, line ∈ lines <->
                exists a, a ∈ zips /\ archive_fails fromstring a line) /\
  (forall latest w,
     let run := main_loop (find_addons fromstring zips) latest w in
     stdout (fst run) = stdout w /\
     files (fst run) = files w /\ dirs (fst run) = dirs w /\
     ((exists latest',
         select_seq rs latest = Ok latest' /\ snd run = Done latest' /\
         stderr (fst run) = stderr w ++ lines) \/
      (exists e lines1 lines2,
         select_seq rs latest = Raise e /\ snd run = Failed e /\
         lines = lines1 ++ lines2 /\
         stderr (fst run) = stderr w ++ lines1))).
Proof.
  intros Hscan. split; [|split].
  - induction Hscan; simpl; lia.
  - intros line. apply (scanned_fail_elem zips rs lines line Hscan).
  - intros latest w run. subst run.
    destruct (select_seq rs latest) as [latest'|e] eqn:Hsel.
    + rewrite (main_loop_scanned fromstring zips rs lines Hscan latest latest' w Hsel).
      repeat split. left. exists latest'. repeat split.
    + destruct (main_loop_scanned_raise fromstring zips rs lines Hscan latest e Hsel)
        as (lines1 & lines2 & Hl & Hrun).
      rewrite Hrun. repeat split. right. exists e, lines1, lines2.
      repeat split. exact Hl.
Qed.

(** X9. What the generator yields is well formed: the identifier and the
    version are not empty and are the id and version attributes of the
    yielded element, which is the parsed content of a member of the
    archive whose lowercased name ends with /addon.xml; the path is that
    of the archive, and nothing was printed for it. *)
Theorem yielded_tuple_well_formed a w w' r :
  find_addons_next fromstring a w = (w', Done (Some r)) ->
  w' = w /\
  addon_id r <> EmptyString /\ addon_ver r <> EmptyString /\
  attrib (addon_elem r) !! "id" = Some (addon_id r) /\
  attrib (addon_elem r) !! "version" = Some (addon_ver r) /\
  addon_zip r = zip_path a /\
  exists z n data,
    zip_open a = Ok z /\ n ∈ namelist z /\ is_descriptor n = true /\
    zip_read z n = Ok data /\ fromstring data = Ok (addon_elem r).
Proof.
  intros Hnext.
  destruct (archive_yields_or_fails fromstring a) as [[r0 Hy]|[line Hf]].
  - rewrite (find_addons_next_yields fromstring a r0 w Hy) in Hnext.
    injection Hnext as <- <-.
    destruct Hy as [z n data elem id ver Hz Hn Hdata Helem Hid Hid' Hver Hver'].
    simpl. repeat split; try assumption; try reflexivity.
    exists z, n, data. repeat split; try assumption.
    + apply find_addon_xml_elem. exact Hn.
    + apply (find_addon_xml_descriptor (namelist z)). exact Hn.
  - rewrite (find_addons_next_fails fromstring a line w Hf) in Hnext.
    discriminate.
Qed.

(** X7. [build_addons_xml] touches the two output files and nothing else:
    every other file, the directories and both output streams stay as
    they were; what the two files held before does not matter; and a
    second call with the same tuples leaves the world as the first one
    left it. *)
Theorem build_addons_xml_touches_two_files entries out_dir w :
  let build := build_addons_xml tostring md5_digest entries out_dir in
  (forall p, p <> path_join out_dir "addons.xml" ->
             p <> path_join out_dir "addons.xml.md5" ->
             files (fst (build w)) !! p = files w !! p) /\
  dirs (fst (build w)) = dirs w /\
  stdout (fst (build w)) = stdout w /\
  stderr (fst (build w)) = stderr w /\
  (forall w0,
     (forall p, p <> path_join out_dir "addons.xml" ->
                p <> path_join out_dir "addons.xml.md5" ->
                files w0 !! p = files w !! p) ->
     files (fst (build w0)) = files (fst (build w))) /\
  fst (build (fst (build w))) = fst (build w).
Proof.
  intros build. subst build.
  rewrite !build_addons_xml_run. cbv zeta. cbn [fst files dirs stdout stderr].
  split; [|split; [reflexivity|split; [reflexivity|split; [reflexivity|split]]]].
  - intros p Hx Hm.
    rewrite lookup_insert_ne by congruence.
    rewrite lookup_insert_ne by congruence. reflexivity.
  - intros w0 Hagree. rewrite build_addons_xml_run. cbv zeta. cbn [fst files].
    apply two_inserts_agree. exact Hagree.
  - f_equal. apply two_inserts_agree. intros p Hx Hm.
    rewrite lookup_insert_ne by congruence.
    rewrite lookup_insert_ne by congruence. reflexivity.
Qed.

(** X6. In a run that writes, no usable archive is above what is
    published: for every archive that yields a tuple, the document holds
    a tuple of the same identifier, which is this very tuple or one whose
    version that of the archive does not exceed. *)
Theorem published_version_not_exceeded zips_dir out_dir zips w w' :
  main fromstring tostring md5_digest zips_dir out_dir zips w = (w', Done tt) ->
  exists lines selected,
    selection_of fromstring zips lines selected /\
    files w' !! path_join out_dir "addons.xml" =
      Some (xml_header ++ tostring (addons_root selected)) /\
    forall a r, a ∈ zips -> archive_yields fromstring a r ->
      exists s, s ∈ selected /\ addon_id s = addon_id r /\
                (s = r \/
                 version_gt (addon_ver r) (addon_ver s) = Ok false).
Proof.
  intros Hmain.
  apply (main_done fromstring tostring md5_digest) in Hmain
    as (lines & selected & Hsel & ->).
  exists lines, selected. split; [exact Hsel|].
  split; [apply written_xml|].
  destruct Hsel as (rs & latest & Hscan & Hne & Hs & Hget & Hall).
  destruct (table_of_select_seq rs latest Hs) as [Hsome Hnone].
  intros a r Ha Hy.
  assert (Hr : r ∈ rs)
    by (apply (scanned_elem fromstring zips rs lines r Hscan); exists a; auto).
  destruct (latest !! addon_id r) as [s|] eqn:Hk;
    [|exfalso; apply (Hnone _ Hk r Hr); reflexivity].
  destruct (Hsome _ _ Hk) as [Hid (pre & post & Hrs & Hpre & Hpost)].
  exists s. split; [|split; [exact Hid|]].
  - assert (Hkey : addon_id r ∈ sorted_keys latest)
      by (apply sorted_keys_elem; eauto).
    clear Hget. induction Hall as [|k0 r0 ks sel Hk0 _ IH]; [inversion Hkey|].
    apply elem_of_cons in Hkey as [<-|Hkey].
    + apply elem_of_cons. left. congruence.
    + apply elem_of_cons. right. apply IH. exact Hkey.
  - rewrite Hrs in Hr. apply elem_of_app in Hr as [Hr|Hr].
    + right. apply version_gt_asym. apply Hpre; [exact Hr|congruence].
    + apply elem_of_cons in Hr as [->|Hr]; [left; reflexivity|].
      right. apply Hpost; [exact Hr|congruence].
Qed.

(** X10. A run that writes prints, after the warnings of the scan and
    nothing else on standard error, the summary on standard output: the
    title, the paths of the two files, a heading, and one line for each
    descriptor of the document, in the order of the document. *)
Theorem run_summary zips_dir out_dir zips w w' :
  main fromstring tostring md5_digest zips_dir out_dir zips w = (w', Done tt) ->
  exists lines selected,
    selection_of fromstring zips lines selected /\
    children (addons_root selected) = List.map addon_elem selected /\
    stdout w' =
      stdout w ++
      ["Generated:";
       " - " +:+ path_str (path_join out_dir "addons.xml");
       " - " +:+ path_str (path_join out_dir "addons.xml.md5");
       newline +:+ "Included add-ons (latest only):"] ++
      List.map
        (fun r => " - " +:+ addon_id r +:+ " @ " +:+ addon_ver r +:+ "  (" +:+
                  path_name (addon_zip r) +:+ ")") selected /\
    stderr w' = stderr w ++ lines /\
    (forall line, line ∈ lines <->
                  exists a, a ∈ zips /\ archive_fails fromstring a line).
Proof.
  intros Hmain.
  apply (main_done fromstring tostring md5_digest) in Hmain
    as (lines & selected & Hsel & ->).
  exists lines, selected. split; [exact Hsel|].
  split; [rewrite addons_root_children; reflexivity|].
  split; [reflexivity|]. split; [reflexivity|].
  destruct Hsel as (rs & latest & Hscan & _).
  intros line. apply (scanned_fail_elem zips rs lines line Hscan).
Qed.

(** X11. Where the output directory or a directory above it is a regular
    file, [main] stops on the exception of [mkdir] with the world as it
    was: no archive is scanned and nothing is printed. Everywhere else the
    run, also one that finds nothing and exits with status 1 and one that
    a comparison ends, leaves the output directory and the directories
    above it created, and removes no directory. *)
Theorem output_directory_created zips_dir out_dir zips w :
  let run := main fromstring tostring md5_digest zips_dir out_dir zips w in
  if blocked w out_dir then run = (w, Failed (mkdir_error w out_dir))
  else
    out_dir ∈ dirs (fst run) /\
    (forall n, take n out_dir ∈ dirs (fst run)) /\
    (forall d, d ∈ dirs w -> d ∈ dirs (fst run)).
Proof.
  intros run. subst run.
  destruct (main_outcome fromstring tostring md5_digest zips_dir out_dir zips w)
    as [(-> & H)|H]; [exact H|].
  assert (Hb : blocked w out_dir = false) by (destruct H as [H|[H|H]]; apply H).
  rewrite Hb.
  assert (Hd : dirs (fst (main fromstring tostring md5_digest zips_dir out_dir
                               zips w)) =
               dirs w ∪ list_to_set (path_parents out_dir)).
  { destruct H as [(_ & rs & lines & l1 & l2 & e & _ & _ & _ & ->)
                  |[(_ & lines & _ & ->)|(_ & lines & selected & _ & Hmain)]].
    - reflexivity.
    - reflexivity.
    - cbv zeta in Hmain. rewrite Hmain. reflexivity. }
  rewrite Hd.
  assert (Hn : forall n, take n out_dir ∈
                 dirs w ∪ list_to_set (C := gset path) (path_parents out_dir)).
  { intros n. apply elem_of_union. right. apply elem_of_list_to_set.
    apply path_parents_elem. }
  split; [|split; [exact Hn|]].
  - rewrite <- (firstn_all out_dir) at 1. apply Hn.
  - intros d Hin. apply elem_of_union. left. exact Hin.
Qed.

Lemma scanned_perm zips zips' :
  zips ≡ₚ zips' ->
  forall rs lines, scanned fromstring zips rs lines ->
  exists rs' lines', scanned fromstring zips' rs' lines' /\ rs ≡ₚ rs'.
Proof.
  induction 1 as [|a zips zips' _ IH|a b zips|zips1 zips2 zips3 _ IH1 _ IH2];
    intros rs lines Hscan.
  - inversion Hscan; subst. exists [], []. split; [constructor|reflexivity].
  - inversion Hscan as [|a0 r zs rs0 ls Hr Hrest|a0 l zs rs0 ls Hl Hrest]; subst.
    + destruct (IH _ _ Hrest) as (rs' & lines' & Hs & Hp).
      exists (r :: rs'), lines'. split; [constructor; assumption|].
      constructor. exact Hp.
    + destruct (IH _ _ Hrest) as (rs' & lines' & Hs & Hp).
      exists rs', (l :: lines'). split; [constructor; assumption|exact Hp].
  - inversion Hscan; subst;
      match goal with
      | Hrest : scanned _ (_ :: zips) _ _ |- _ => inversion Hrest; subst
      end;
      eexists _, _;
      (split;
       [ solve
           [ eapply scanned_yield;
             [ eassumption
             | solve [ eapply scanned_yield; eassumption
                     | eapply scanned_fail; eassumption ] ]
           | eapply scanned_fail;
             [ eassumption
             | solve [ eapply scanned_yield; eassumption
                     | eapply scanned_fail; eassumption ] ] ]
       | first [ apply perm_swap | reflexivity ] ]).
  - destruct (IH1 _ _ Hscan) as (rs2 & lines2 & Hs2 & Hp2).
    destruct (IH2 _ _ Hs2) as (rs3 & lines3 & Hs3 & Hp3).
    exists rs3, lines3. split; [exact Hs3|]. etransitivity; eassumption.
Qed.

(** X12. The two files do not depend on the order in which the directory
    is traversed, as long as no two usable archives of one identifier
    tie and no version has a run of more than 4300 digits: for any
    rearrangement of the archives the run ends the same way, with the
    same files and the same standard output. *)
Theorem output_order_independent zips zips' rs lines zips_dir out_dir w :
  zips ≡ₚ zips' -> scanned fromstring zips rs lines -> no_ties rs ->
  Forall (fun r => within_cap (addon_ver r) = true) rs ->
  let run := main fromstring tostring md5_digest zips_dir out_dir zips w in
  let run' := main fromstring tostring md5_digest zips_dir out_dir zips' w in
  snd run = snd run' /\
  files (fst run) = files (fst run') /\
  stdout (fst run) = stdout (fst run').
Proof.
  intros Hp Hscan Hties Hcap run run'. subst run run'.
  destruct (blocked w out_dir) eqn:Hb.
  { rewrite !main_blocked by exact Hb. repeat split. }
  destruct (scanned_perm zips zips' Hp rs lines Hscan)
    as (rs' & lines' & Hscan' & Hprs).
  destruct (select_seq_total rs ∅ Hcap table_within_cap_empty) as [latest Hsel].
  assert (Hsel' : select_seq rs' ∅ = Ok latest)
    by (rewrite <- (select_seq_perm rs rs' Hprs Hties Hcap); exact Hsel).
  pose proof (main_run fromstring tostring md5_digest zips_dir out_dir
                zips rs lines latest w Hb Hscan Hsel) as H.
  pose proof (main_run fromstring tostring md5_digest zips_dir out_dir
                zips' rs' lines' latest w Hb Hscan' Hsel') as H'.
  destruct rs as [|r rs]; destruct rs' as [|r' rs'].
  - rewrite H, H'. repeat split.
  - apply Permutation_nil_cons in Hprs. contradiction.
  - symmetry in Hprs. apply Permutation_nil_cons in Hprs. contradiction.
  - destruct H as (sel & Hget & _ & Hm).
    destruct H' as (sel' & Hget' & _ & Hm').
    assert (sel' = sel) as -> by congruence.
    cbv zeta in Hm, Hm'. rewrite Hm, Hm'. repeat split.
Qed.

Lemma select_seq_raises rs : forall latest e,
  select_seq rs latest = Raise e ->
  exists n, (int_max_str_digits < n)%nat /\ e = int_limit_error n.
Proof.
  induction rs as [|r rs IH]; intros latest e Hsel; [discriminate|].
  simpl in Hsel. destruct (select latest r) as [l|e0] eqn:Hs.
  - apply (IH l e Hsel).
  - injection Hsel as ->. apply select_raises in Hs as (best & _ & Hg).
    destruct (within_cap (addon_ver r) && within_cap (addon_ver best)) eqn:Hc.
    + apply andb_true_iff in Hc as [Ha Hb].
      rewrite (version_gt_compare _ _ Ha Hb) in Hg. discriminate.
    + destruct (version_gt_raises _ _ Hc) as (n & Hn & Hg').
      exists n. split; [exact Hn|]. congruence.
Qed.


(** X13. Of an opened archive only the descriptor is read: the outcome
    for the archive is the same whatever reading any other member would
    give, a failure included. *)
Theorem only_descriptor_is_read p names rd rd' n w :
  find_addon_xml names = Some n -> rd n = rd' n ->
  find_addons_next fromstring (mkArchive p (Ok (mkZip names rd))) w =
  find_addons_next fromstring (mkArchive p (Ok (mkZip names rd'))) w.
Proof.
  intros Hn Hrd.
  unfold find_addons_next, scan_zip, mbind, M_bind, lift.
  cbn [zip_open namelist zip_read zip_path]. cbv zeta.
  rewrite py_not_find, Hn. cbn [default from_option]. unfold id.
  rewrite Hrd. reflexivity.
Qed.

End Further.

(** * The properties at the sample inputs *)

Lemma version_order_token_by_token_witness :
  Spec.maximal_runs ("" +:+ "10" +:+ ".0rc")
    [(Spec.Digits, "10"); (Spec.Digits, "0"); (Spec.Letters, "rc")] /\
  findall "10.0rc" = ["10"; "0"; "rc"] /\
  within_cap "10.0rc" = true /\ within_cap "9.1" = true /\
  normalize_version "10.0rc" =
    Ok (PTuple (List.map part_of (Spec.tokens "10.0rc"))) /\
  version_gt "10.0rc" "9.1" =
    Ok (bool_decide (Spec.version_compare "10.0rc" "9.1" = Gt)).
Proof.
  assert (H : Spec.maximal_runs ("" +:+ "10" +:+ ".0rc")
                [(Spec.Digits, "10"); (Spec.Digits, "0"); (Spec.Letters, "rc")]).
  { apply (Spec.runs_next "" Spec.Digits "10" ".0rc");
      [reflexivity|discriminate|reflexivity|discriminate|].
    apply (Spec.runs_next "." Spec.Digits "0" "rc");
      [reflexivity|discriminate|reflexivity|discriminate|].
    apply (Spec.runs_next "" Spec.Letters "rc" "");
      [reflexivity|discriminate|reflexivity|discriminate|].
    apply Spec.runs_done. reflexivity. }
  assert (Ha : within_cap "10.0rc" = true) by reflexivity.
  assert (Hb : within_cap "9.1" = true) by reflexivity.
  pose proof version_order_token_by_token
    as (_ & H2 & _ & _ & _ & _ & H7 & _ & H9 & _).
  split; [exact H|]. split; [exact (H2 "10.0rc" _ H)|].
  split; [exact Ha|]. split; [exact Hb|].
  split; [exact (H7 "10.0rc" Ha)|exact (H9 "10.0rc" "9.1" Ha Hb)].
Defined.

Lemma selection_keeps_latest_witness :
  let old := sample_entry "a.addon" "1.2.0" ["repo"; "zips"; "a.zip"] in
  let new := sample_entry "a.addon" "1.3.0" ["repo"; "zips"; "a2.zip"] in
  is_newer {[ "a.addon" := old ]} new /\
  select {[ "a.addon" := old ]} new =
    Ok (<[ "a.addon" := new ]> {[ "a.addon" := old ]}) /\
  ~ is_newer {[ "a.addon" := new ]} old /\
  select {[ "a.addon" := new ]} old = Ok {[ "a.addon" := new ]}.
Proof.
  intros old new.
  assert (H1 : is_newer {[ "a.addon" := old ]} new).
  { right. exists old. split; vm_compute; reflexivity. }
  assert (H2 : ~ is_newer {[ "a.addon" := new ]} old).
  { intros [H|(best & Hb & Hg)].
    - vm_compute in H. discriminate H.
    - vm_compute in Hb. injection Hb as <-.
      vm_compute in Hg. discriminate Hg. }
  assert (H3 : within_cap (addon_ver old) = true) by reflexivity.
  assert (H4 : table_within_cap {[ "a.addon" := new ]}).
  { intros k r [_ <-]%lookup_singleton_Some. reflexivity. }
  pose proof selection_keeps_latest as (S1 & _ & _ & S4 & _).
  split; [exact H1|]. split.
  - exact (S1 {[ "a.addon" := old ]} new H1).
  - split; [exact H2|].
    exact (S4 {[ "a.addon" := new ]} old H2 H3 H4).
Defined.

(** The byte after the declaration is a line feed: the file is not the
    declaration with the serialized root right behind it. *)
Lemma addons_xml_line_feed_after_declaration :
  let root := mkElement "addons" ∅ None None [sample_elem "a.addon" "1.3.0"] in
  files (fst sample_run) !! ["repo"; "addons.xml"] =
    Some (list_byte_of_string xml_declaration ++ [Byte.x0a] ++
          sample_tostring root) /\
  files (fst sample_run) !! ["repo"; "addons.xml"] <>
    Some (list_byte_of_string xml_declaration ++ sample_tostring root).
Proof.
  vm_compute. split; [reflexivity|]. intros H. discriminate H.
Qed.

Lemma addons_xml_header_then_root_witness :
  sample_run = (fst sample_run, Done tt) /\
  exists lines selected,
    selection_of sample_fromstring sample_zips lines selected /\
    selected <> [] /\
    files (fst sample_run) !! path_join ["repo"] "addons.xml" =
      Some (list_byte_of_string xml_declaration ++ [Byte.x0a] ++
            sample_tostring
              (mkElement "addons" ∅ None None (List.map addon_elem selected))).
Proof.
  assert (H : sample_run = (fst sample_run, Done tt))
    by (vm_compute; reflexivity).
  split; [exact H|].
  exact (proj2 (proj2 (proj2
    (addons_xml_header_then_root sample_fromstring sample_tostring
       sample_digest)))
    ["repo"; "zips"] ["repo"] sample_zips sample_world (fst sample_run) H).
Defined.

Lemma document_fragments_sorted_witness :
  sample_run = (fst sample_run, Done tt) /\
  exists lines selected,
    selection_of sample_fromstring sample_zips lines selected /\
    files (fst sample_run) !! path_join ["repo"] "addons.xml" =
      Some (xml_header ++ sample_tostring (addons_root selected)) /\
    children (addons_root selected) = List.map addon_elem selected.
Proof.
  assert (H : sample_run = (fst sample_run, Done tt))
    by (vm_compute; reflexivity).
  split; [exact H|].
  exact (proj1 (proj2 (proj2
    (document_fragments_sorted sample_fromstring sample_tostring
       sample_digest)))
    ["repo"; "zips"] ["repo"] sample_zips sample_world (fst sample_run) H).
Defined.

Lemma md5_file_is_digest_of_addons_xml_witness :
  sample_run = (fst sample_run, Done tt) /\
  exists content,
    files (fst sample_run) !! path_join ["repo"] "addons.xml" = Some content /\
    files (fst sample_run) !! path_join ["repo"] "addons.xml.md5" =
      Some (list_byte_of_string (hex (sample_digest content))).
Proof.
  assert (H : sample_run = (fst sample_run, Done tt))
    by (vm_compute; reflexivity).
  split; [exact H|].
  exact (proj1 (proj2
    (md5_file_is_digest_of_addons_xml sample_fromstring sample_tostring
       sample_digest))
    ["repo"; "zips"] ["repo"] sample_zips sample_world (fst sample_run) H).
Defined.

Lemma sample_corrupt_fails :
  archive_fails sample_fromstring sample_corrupt
    "[WARN] Bad zip file: /repo/zips/bad.zip".
Proof.
  exact (fails_open sample_fromstring sample_corrupt
           (BadZipFile "File is not a zip file") eq_refl).
Defined.

Lemma sample_rootonly_fails :
  archive_fails sample_fromstring sample_rootonly
    "[WARN] No addon.xml found in /repo/zips/root.zip".
Proof.
  refine (match zip_open sample_rootonly as o
                return zip_open sample_rootonly = o -> _ with
          | Ok z => fun Hz =>
              fails_no_descriptor sample_fromstring sample_rootonly z Hz _
          | Raise e => fun Hz => _
          end eq_refl).
  - injection Hz as <-. reflexivity.
  - discriminate Hz.
Defined.

Lemma failing_archive_skipped_witness :
  archive_fails sample_fromstring sample_corrupt
    "[WARN] Bad zip file: /repo/zips/bad.zip" /\
  find_addons_next sample_fromstring sample_corrupt sample_world =
    (warn ["[WARN] Bad zip file: /repo/zips/bad.zip"] sample_world, Done None) /\
  snd (main_loop (find_addons sample_fromstring
                    ([sample_good] ++ sample_corrupt :: [sample_newer]))
                 ∅ sample_world) =
  snd (main_loop (find_addons sample_fromstring ([sample_good] ++ [sample_newer]))
                 ∅ sample_world).
Proof.
  split; [exact sample_corrupt_fails|].
  pose proof (proj1 (failing_archive_skipped sample_fromstring)
                sample_corrupt _ sample_corrupt_fails) as (H1 & _ & H3 & _).
  split; [exact (H1 sample_world)|].
  exact (H3 [sample_good] [sample_newer] sample_world).
Defined.

Lemma no_usable_archive_no_output_witness :
  let lines := ["[WARN] Bad zip file: /repo/zips/bad.zip";
                "[WARN] No addon.xml found in /repo/zips/root.zip"] in
  let run := main sample_fromstring sample_tostring sample_digest
                  ["repo"; "zips"] ["repo"] [sample_corrupt; sample_rootonly]
                  sample_world in
  blocked sample_world ["repo"] = false /\
  Forall2 (archive_fails sample_fromstring)
          [sample_corrupt; sample_rootonly] lines /\
  snd run = Exited 1 /\
  exit_status (snd run) <> 0 /\
  files (fst run) = files sample_world /\
  stdout (fst run) = stdout sample_world /\
  stderr (fst run) =
    stderr sample_world ++ lines ++ ["No add-ons found under /repo/zips"].
Proof.
  intros lines run.
  assert (H : Forall2 (archive_fails sample_fromstring)
                      [sample_corrupt; sample_rootonly] lines).
  { constructor; [exact sample_corrupt_fails|].
    constructor; [exact sample_rootonly_fails|constructor]. }
  assert (Hb : blocked sample_world ["repo"] = false) by reflexivity.
  split; [exact Hb|]. split; [exact H|].
  exact (proj1 (no_usable_archive_no_output sample_fromstring sample_tostring
                  sample_digest)
           ["repo"; "zips"] ["repo"] [sample_corrupt; sample_rootonly] lines
           sample_world Hb H).
Defined.

Lemma version_order_total_witness :
  version_gt "1.0.1" "1.0.0a" = Ok true /\
  version_gt "1.0.0a" "1.0.0" = Ok true /\
  version_gt "1.0.1" "1.0.0" = Ok true /\
  version_gt "1.0.0" "1.0.1" = Ok false.
Proof.
  assert (H1 : version_gt "1.0.1" "1.0.0a" = Ok true) by (vm_compute; reflexivity).
  assert (H2 : version_gt "1.0.0a" "1.0.0" = Ok true) by (vm_compute; reflexivity).
  pose proof version_order_total as (_ & _ & Htrans & Hasym & _).
  pose proof (Htrans _ _ _ H1 H2) as H3.
  split; [exact H1|]. split; [exact H2|]. split; [exact H3|].
  exact (Hasym _ _ H3).
Defined.


Lemma descriptor_is_first_match_witness :
  let first := Ok (list_byte_of_string "x.addon@2.0") in
  let other := Ok (list_byte_of_string "y.addon@9.9") in
  let pre := [("addon.xml", other); ("x/icon.png", other)] in
  let post := [("y/addon.xml", other)] in
  is_descriptor "X.Addon/ADDON.xml" = true /\
  Forall (fun e : string * result bytes => is_descriptor (fst e) = false) pre /\
  find_addons_next sample_fromstring
    (mkArchive ["x.zip"]
       (Ok (zip_of_entries (pre ++ ("X.Addon/ADDON.xml", first) :: post))))
    sample_world =
    (sample_world, Done (Some (sample_entry "x.addon" "2.0" ["x.zip"]))).
Proof.
  intros first other pre post.
  assert (H1 : is_descriptor "X.Addon/ADDON.xml" = true) by reflexivity.
  assert (H2 : Forall (fun e : string * result bytes =>
                         is_descriptor (fst e) = false) pre).
  { constructor; [reflexivity|]. constructor; [reflexivity|constructor]. }
  split; [exact H1|]. split; [exact H2|].
  pose proof (descriptor_is_first_match sample_fromstring)
    as (_ & _ & _ & H & _).
  exact (H ["x.zip"] pre "X.Addon/ADDON.xml" first post sample_world H1 H2).
Defined.

(** * The further properties at the sample inputs *)

Lemma sample_good_yields :
  archive_yields sample_fromstring sample_good
    (sample_entry "a.addon" "1.2.0" ["repo"; "zips"; "a.zip"]).
Proof.
  refine (yields_addon sample_fromstring sample_good _ "a.addon/addon.xml"
            (list_byte_of_string "a.addon@1.2.0")
            (sample_elem "a.addon" "1.2.0") "a.addon" "1.2.0"
            eq_refl _ _ _ _ _ _ _);
    vm_compute; try reflexivity; discriminate.
Qed.

Lemma sample_newer_yields :
  archive_yields sample_fromstring sample_newer
    (sample_entry "a.addon" "1.3.0" ["repo"; "zips"; "a2.zip"]).
Proof.
  refine (yields_addon sample_fromstring sample_newer _ "a.addon/addon.xml"
            (list_byte_of_string "a.addon@1.3.0")
            (sample_elem "a.addon" "1.3.0") "a.addon" "1.3.0"
            eq_refl _ _ _ _ _ _ _);
    vm_compute; try reflexivity; discriminate.
Qed.

Lemma sample_scanned :
  scanned sample_fromstring sample_zips
    [sample_entry "a.addon" "1.2.0" ["repo"; "zips"; "a.zip"];
     sample_entry "a.addon" "1.3.0" ["repo"; "zips"; "a2.zip"]]
    ["[WARN] Bad zip file: /repo/zips/bad.zip";
     "[WARN] No addon.xml found in /repo/zips/root.zip"].
Proof.
  apply scanned_yield; [exact sample_good_yields|].
  apply scanned_fail; [exact sample_corrupt_fails|].
  apply scanned_fail; [exact sample_rootonly_fails|].
  apply scanned_yield; [exact sample_newer_yields|]. constructor.
Qed.

Lemma sample_no_ties :
  no_ties [sample_entry "a.addon" "1.2.0" ["repo"; "zips"; "a.zip"];
           sample_entry "a.addon" "1.3.0" ["repo"; "zips"; "a2.zip"]].
Proof.
  intros r1 r2 H1 H2 _ Hn.
  apply elem_of_cons in H1 as [->|H1]; apply elem_of_cons in H2 as [->|H2];
    try apply list_elem_of_singleton in H1 as ->;
    try apply list_elem_of_singleton in H2 as ->;
    try reflexivity; vm_compute in Hn; discriminate Hn.
Qed.

Lemma version_without_token_is_least_witness :
  str_all Spec.is_other "~+." = true /\
  within_cap "0" = true /\
  normalize_version "~+." = Ok (PTuple []) /\
  version_gt "~+." "0" = Ok false /\
  version_gt "0" "~+." = Ok (negb (str_all Spec.is_other "0")).
Proof.
  assert (H : str_all Spec.is_other "~+." = true) by reflexivity.
  assert (H0 : within_cap "0" = true) by reflexivity.
  pose proof (version_without_token_is_least "~+." H) as (H1 & H2 & H3 & _).
  split; [exact H|]. split; [exact H0|]. split; [exact H1|].
  split; [exact (H2 "0" H0)|exact (H3 "0" H0)].
Defined.

Lemma version_with_suffix_is_greater_witness :
  (forall k, Spec.last_kind "1.0.0" = Some k ->
             Spec.head_kind "~alpha" <> Some k) /\
  str_all Spec.is_other "~alpha" = false /\
  within_cap ("1.0.0" +:+ "~alpha") = true /\
  version_gt ("1.0.0" +:+ "~alpha") "1.0.0" = Ok true /\
  version_gt "1.0.0" ("1.0.0" +:+ "~alpha") = Ok false.
Proof.
  assert (H1 : forall k, Spec.last_kind "1.0.0" = Some k ->
                         Spec.head_kind "~alpha" <> Some k)
    by (intros k _ H; vm_compute in H; discriminate H).
  assert (H2 : str_all Spec.is_other "~alpha" = false) by reflexivity.
  assert (H3 : within_cap ("1.0.0" +:+ "~alpha") = true) by reflexivity.
  split; [exact H1|]. split; [exact H2|]. split; [exact H3|].
  exact (version_with_suffix_is_greater "1.0.0" "~alpha" H1 H2 H3).
Defined.

Lemma version_separators_interchangeable_witness :
  "." <> EmptyString /\ str_all Spec.is_other "." = true /\
  "--" <> EmptyString /\ str_all Spec.is_other "--" = true /\
  within_cap ("1" +:+ "." +:+ "0") = true /\
  normalize_version ("1" +:+ "." +:+ "0") =
    normalize_version ("1" +:+ "--" +:+ "0") /\
  version_gt ("1" +:+ "." +:+ "0") ("1" +:+ "--" +:+ "0") = Ok false /\
  version_gt ("1" +:+ "--" +:+ "0") ("1" +:+ "." +:+ "0") = Ok false.
Proof.
  assert (H1 : "." <> EmptyString) by discriminate.
  assert (H2 : str_all Spec.is_other "." = true) by reflexivity.
  assert (H3 : "--" <> EmptyString) by discriminate.
  assert (H4 : str_all Spec.is_other "--" = true) by reflexivity.
  split; [exact H1|]. split; [exact H2|]. split; [exact H3|].
  assert (H5 : within_cap ("1" +:+ "." +:+ "0") = true) by reflexivity.
  pose proof (version_separators_interchangeable "1" "." "--" "0" H1 H2 H3 H4)
    as (E1 & _ & E3).
  split; [exact H4|]. split; [exact H5|]. split; [exact E1|exact (E3 H5)].
Defined.

Lemma selection_order_independent_witness :
  let old := sample_entry "a.addon" "1.2.0" ["repo"; "zips"; "a.zip"] in
  let new := sample_entry "a.addon" "1.3.0" ["repo"; "zips"; "a2.zip"] in
  [old; new] ≡ₚ [new; old] /\ no_ties [old; new] /\
  Forall (fun r => within_cap (addon_ver r) = true) [old; new] /\
  select_seq [old; new] ∅ = select_seq [new; old] ∅.
Proof.
  intros old new.
  assert (Hp : [old; new] ≡ₚ [new; old]) by apply perm_swap.
  assert (Hc : Forall (fun r => within_cap (addon_ver r) = true) [old; new]).
  { constructor; [reflexivity|]. constructor; [reflexivity|constructor]. }
  split; [exact Hp|]. split; [exact sample_no_ties|]. split; [exact Hc|].
  exact (proj1 (selection_order_independent [old; new] [new; old] Hp
                  sample_no_ties Hc)).
Defined.

Lemma selection_never_lowers_witness :
  let old := sample_entry "a.addon" "1.2.0" ["repo"; "zips"; "a.zip"] in
  let new := sample_entry "a.addon" "1.3.0" ["repo"; "zips"; "a2.zip"] in
  select_seq [new] {[ "a.addon" := old ]} = Ok {[ "a.addon" := new ]} /\
  ({[ "a.addon" := old ]} : gmap string addon) !! "a.addon" = Some old /\
  exists best',
    ({[ "a.addon" := new ]} : gmap string addon) !! "a.addon" = Some best' /\
    (best' = old \/
     version_gt (addon_ver best') (addon_ver old) = Ok true).
Proof.
  intros old new.
  assert (H1 : select_seq [new] {[ "a.addon" := old ]} =
               Ok {[ "a.addon" := new ]}) by (vm_compute; reflexivity).
  assert (H2 : ({[ "a.addon" := old ]} : gmap string addon) !! "a.addon" =
               Some old) by (vm_compute; reflexivity).
  split; [exact H1|]. split; [exact H2|].
  exact (selection_never_lowers [new] _ _ "a.addon" old H1 H2).
Defined.

Lemma scan_accounts_for_every_archive_witness :
  scanned sample_fromstring sample_zips
    [sample_entry "a.addon" "1.2.0" ["repo"; "zips"; "a.zip"];
     sample_entry "a.addon" "1.3.0" ["repo"; "zips"; "a2.zip"]]
    ["[WARN] Bad zip file: /repo/zips/bad.zip";
     "[WARN] No addon.xml found in /repo/zips/root.zip"] /\
  (2 + 2 = List.length sample_zips)%nat.
Proof.
  split; [exact sample_scanned|].
  exact (proj1 (scan_accounts_for_every_archive sample_fromstring
                  sample_zips _ _ sample_scanned)).
Defined.

Lemma yielded_tuple_well_formed_witness :
  let r := sample_entry "a.addon" "1.2.0" ["repo"; "zips"; "a.zip"] in
  find_addons_next sample_fromstring sample_good sample_world =
    (sample_world, Done (Some r)) /\
  addon_id r <> EmptyString /\ addon_ver r <> EmptyString /\
  addon_zip r = zip_path sample_good.
Proof.
  intros r.
  assert (H : find_addons_next sample_fromstring sample_good sample_world =
              (sample_world, Done (Some r))) by (vm_compute; reflexivity).
  pose proof (yielded_tuple_well_formed sample_fromstring sample_good
                sample_world sample_world r H) as (_ & H1 & H2 & _ & _ & H3 & _).
  split; [exact H|]. split; [exact H1|]. split; [exact H2|exact H3].
Defined.

Lemma build_addons_xml_touches_two_files_witness :
  let w := mkWorld {[ ["repo"; "README.md"] := [Byte.x68; Byte.x69] ]} ∅ [] [] in
  let r := sample_entry "a.addon" "1.3.0" ["repo"; "zips"; "a2.zip"] in
  ["repo"; "README.md"] <> path_join ["repo"] "addons.xml" /\
  ["repo"; "README.md"] <> path_join ["repo"] "addons.xml.md5" /\
  files (fst (build_addons_xml sample_tostring sample_digest [r] ["repo"] w))
    !! ["repo"; "README.md"] = files w !! ["repo"; "README.md"].
Proof.
  intros w r.
  assert (H1 : ["repo"; "README.md"] <> path_join ["repo"] "addons.xml")
    by (intros H; vm_compute in H; discriminate H).
  assert (H2 : ["repo"; "README.md"] <> path_join ["repo"] "addons.xml.md5")
    by (intros H; vm_compute in H; discriminate H).
  split; [exact H1|]. split; [exact H2|].
  exact (proj1 (build_addons_xml_touches_two_files sample_tostring
                  sample_digest [r] ["repo"] w) _ H1 H2).
Defined.

Lemma published_version_not_exceeded_witness :
  sample_run = (fst sample_run, Done tt) /\
  exists lines selected,
    selection_of sample_fromstring sample_zips lines selected /\
    files (fst sample_run) !! path_join ["repo"] "addons.xml" =
      Some (xml_header ++ sample_tostring (addons_root selected)) /\
    forall a r, a ∈ sample_zips -> archive_yields sample_fromstring a r ->
      exists s, s ∈ selected /\ addon_id s = addon_id r /\
                (s = r \/
                 version_gt (addon_ver r) (addon_ver s) = Ok false).
Proof.
  assert (H : sample_run = (fst sample_run, Done tt))
    by (vm_compute; reflexivity).
  split; [exact H|].
  exact (published_version_not_exceeded sample_fromstring sample_tostring
           sample_digest ["repo"; "zips"] ["repo"] sample_zips sample_world
           (fst sample_run) H).
Defined.

Lemma run_summary_witness :
  sample_run = (fst sample_run, Done tt) /\
  exists lines selected,
    selection_of sample_fromstring sample_zips lines selected /\
    stdout (fst sample_run) =
      stdout sample_world ++ summary ["repo"] selected /\
    stderr (fst sample_run) = stderr sample_world ++ lines.
Proof.
  assert (H : sample_run = (fst sample_run, Done tt))
    by (vm_compute; reflexivity).
  split; [exact H|].
  destruct (run_summary sample_fromstring sample_tostring sample_digest
              ["repo"; "zips"] ["repo"] sample_zips sample_world
              (fst sample_run) H)
    as (lines & selected & H1 & _ & H2 & H3 & _).
  exists lines, selected. split; [exact H1|]. split; [exact H2|exact H3].
Defined.

Lemma output_directory_created_witness :
  let w := mkWorld ∅ {[ ["srv"] ]} [] [] in
  let w' := fst (main sample_fromstring sample_tostring sample_digest
                      ["repo"; "zips"] ["repo"; "out"] [sample_corrupt] w) in
  let blocking := mkWorld {[ ["repo"] := [] ]} ∅ [] [] in
  ["srv"] ∈ dirs w /\ ["srv"] ∈ dirs w' /\ ["repo"; "out"] ∈ dirs w' /\
  main sample_fromstring sample_tostring sample_digest
       ["repo"; "zips"] ["repo"; "out"] [sample_corrupt] blocking =
    (blocking, Failed (mkdir_error blocking ["repo"; "out"])).
Proof.
  intros w w' blocking.
  assert (H : ["srv"] ∈ dirs w)
    by (unfold w; cbn [dirs]; apply elem_of_singleton; reflexivity).
  pose proof (output_directory_created sample_fromstring sample_tostring
                sample_digest ["repo"; "zips"] ["repo"; "out"] [sample_corrupt] w)
    as Hw.
  pose proof (output_directory_created sample_fromstring sample_tostring
                sample_digest ["repo"; "zips"] ["repo"; "out"] [sample_corrupt]
                blocking) as Hb.
  change (blocked w ["repo"; "out"]) with false in Hw.
  change (blocked blocking ["repo"; "out"]) with true in Hb.
  cbv zeta in Hw, Hb. destruct Hw as (H1 & _ & H3).
  split; [exact H|]. split; [exact (H3 _ H)|]. split; [exact H1|exact Hb].
Defined.

Lemma output_order_independent_witness :
  let zips' := [sample_newer; sample_rootonly; sample_corrupt; sample_good] in
  let run' := main sample_fromstring sample_tostring sample_digest
                   ["repo"; "zips"] ["repo"] zips' sample_world in
  sample_zips ≡ₚ zips' /\
  Forall (fun r => within_cap (addon_ver r) = true)
         [sample_entry "a.addon" "1.2.0" ["repo"; "zips"; "a.zip"];
          sample_entry "a.addon" "1.3.0" ["repo"; "zips"; "a2.zip"]] /\
  snd sample_run = snd run' /\
  files (fst sample_run) = files (fst run') /\
  stdout (fst sample_run) = stdout (fst run').
Proof.
  intros zips' run'.
  assert (Hp : sample_zips ≡ₚ zips').
  { exact (Permutation_rev sample_zips). }
  assert (Hc : Forall (fun r => within_cap (addon_ver r) = true)
                 [sample_entry "a.addon" "1.2.0" ["repo"; "zips"; "a.zip"];
                  sample_entry "a.addon" "1.3.0" ["repo"; "zips"; "a2.zip"]]).
  { constructor; [reflexivity|]. constructor; [reflexivity|constructor]. }
  split; [exact Hp|]. split; [exact Hc|].
  exact (output_order_independent sample_fromstring sample_tostring
           sample_digest sample_zips zips' _ _ ["repo"; "zips"] ["repo"]
           sample_world Hp sample_scanned sample_no_ties Hc).
Defined.

Lemma last_number_decides_witness :
  "." <> EmptyString /\ str_all Spec.is_other "." = true /\
  "10" <> EmptyString /\ str_all re_digit "10" = true /\
  "9" <> EmptyString /\ str_all re_digit "9" = true /\
  within_cap "1" = true /\
  (String.length "10" <= int_max_str_digits)%nat /\
  (String.length "9" <= int_max_str_digits)%nat /\
  exists n1 n2,
    py_int "10" = Ok n1 /\ py_int "9" = Ok n2 /\
    version_gt ("1" +:+ "." +:+ "10") ("1" +:+ "." +:+ "9") = Ok (Z.gtb n1 n2).
Proof.
  assert (H1 : "." <> EmptyString) by discriminate.
  assert (H2 : str_all Spec.is_other "." = true) by reflexivity.
  assert (H3 : "10" <> EmptyString) by discriminate.
  assert (H4 : str_all re_digit "10" = true) by reflexivity.
  assert (H5 : "9" <> EmptyString) by discriminate.
  assert (H6 : str_all re_digit "9" = true) by reflexivity.
  split; [exact H1|]. split; [exact H2|]. split; [exact H3|].
  assert (H7 : within_cap "1" = true) by reflexivity.
  assert (H8 : (String.length "10" <= int_max_str_digits)%nat)
    by (apply Nat.leb_le; reflexivity).
  assert (H9 : (String.length "9" <= int_max_str_digits)%nat)
    by (apply Nat.leb_le; reflexivity).
  split; [exact H4|]. split; [exact H5|]. split; [exact H6|].
  split; [exact H7|]. split; [exact H8|]. split; [exact H9|].
  exact (last_number_decides "1" "." "10" "9" H1 H2 H3 H4 H5 H6 H7 H8 H9).
Defined.

Lemma only_descriptor_is_read_witness :
  let names := ["x/icon.png"; "x/addon.xml"] in
  let rd := fun n : string =>
    if String.eqb n "x/addon.xml" then Ok (list_byte_of_string "x@1.0")
    else Raise (BadZipFile "Bad CRC-32") in
  let rd' := fun _ : string => Ok (list_byte_of_string "x@1.0") in
  find_addon_xml names = Some "x/addon.xml" /\
  rd "x/addon.xml" = rd' "x/addon.xml" /\
  find_addons_next sample_fromstring
    (mkArchive ["x.zip"] (Ok (mkZip names rd))) sample_world =
  find_addons_next sample_fromstring
    (mkArchive ["x.zip"] (Ok (mkZip names rd'))) sample_world.
Proof.
  intros names rd rd'.
  assert (H1 : find_addon_xml names = Some "x/addon.xml") by reflexivity.
  assert (H2 : rd "x/addon.xml" = rd' "x/addon.xml") by reflexivity.
  split; [exact H1|]. split; [exact H2|].
  exact (only_descriptor_is_read sample_fromstring ["x.zip"] names rd rd'
           "x/addon.xml" sample_world H1 H2).
Defined.

